(** * Adaptive cubature: a shallow embedding of [scipy/integrate/_cubature.py]

    The Python module integrates array-valued functions over hyperrectangles
    with fixed rules (weighted sums of function values) and an adaptive
    driver that bisects the region of largest estimated error.

    Conventions of the embedding.
    - Floating-point numbers are replaced by exact rationals ([Qc], the
      rationals in lowest terms, whose equality is Leibniz equality and
      which compute).
    - A rank-1 array is a [list Qc]; the node array of shape [(d, m)] is the
      list of its [d] rows; an output array of shape [(out_1,...,out_k)] is
      flattened to a [list Qc], and the integrand's value of shape
      [(out_1,...,out_k, m)] is the list of its rows of length [m].
    - Python exceptions are values of [exn]; a call that can raise returns a
      [result].  Loops that Python does not bound take a [fuel] argument and
      answer [OutOfFuel] when it runs out.
    - Arrays that the driver updates in place live in a [store] and are
      referred to by location, so that sharing between the accumulator and
      the regions is visible. *)

From Stdlib Require Import String Bool Arith.
From Stdlib Require Import QArith Qcanon Qround ZArith List Lia Lqa Permutation Sorted.
Import ListNotations.

Open Scope Qc_scope.

(* ================================================================== *)
(** ** Numbers *)

(** Integer and natural literals seen as rationals. *)
Definition qz (z : Z) : Qc := Q2Qc (inject_Z z).
Definition qn (n : nat) : Qc := qz (Z.of_nat n).

Definition Qcltb (x y : Qc) : bool :=
  match x ?= y with Lt => true | _ => false end.

Definition Qcabs (x : Qc) : Qc := if Qcltb x 0 then - x else x.

Definition Qcmax (x y : Qc) : Qc := if Qcltb x y then y else x.

(* ================================================================== *)
(** ** Exceptions and results *)

Inductive exn : Type :=
| ValueError (msg : string)
| NotImplementedError
| LinAlgError
| IndexError.

Inductive result (A : Type) : Type :=
| Ok (x : A)
| Raise (e : exn)
| OutOfFuel.

Arguments Ok {A} x.
Arguments Raise {A} e.
Arguments OutOfFuel {A}.

Definition bind {A B} (r : result A) (k : A -> result B) : result B :=
  match r with
  | Ok x => k x
  | Raise e => Raise e
  | OutOfFuel => OutOfFuel
  end.

Declare Scope result_scope.
Delimit Scope result_scope with result.
Notation "x <- r ;; k" := (bind r (fun x => k))
  (at level 61, r at next level, right associativity) : result_scope.
Notation "' p <- r ;; k" := (bind r (fun x => let p := x in k))
  (at level 61, p pattern, r at next level, right associativity) : result_scope.
Open Scope result_scope.

Fixpoint mapM {A B} (f : A -> result B) (l : list A) : result (list B) :=
  match l with
  | [] => Ok []
  | x :: l' => y <- f x ;; ys <- mapM f l' ;; Ok (y :: ys)
  end.

Fixpoint foldM {A S} (f : S -> A -> result S) (l : list A) (s : S) : result S :=
  match l with
  | [] => Ok s
  | x :: l' => s' <- f s x ;; foldM f l' s'
  end.

(* ================================================================== *)
(** ** Arrays *)

Definition vec := list Qc.
Definition matrix := list vec.

(** Elementwise combination of two arrays of equal shape. *)
Fixpoint map2 {A B C} (f : A -> B -> C) (l1 : list A) (l2 : list B) : list C :=
  match l1, l2 with
  | x :: l1', y :: l2' => f x y :: map2 f l1' l2'
  | _, _ => []
  end.

Fixpoint update {A} (l : list A) (i : nat) (x : A) : list A :=
  match l, i with
  | [], _ => []
  | _ :: l', O => x :: l'
  | y :: l', S i' => y :: update l' i' x
  end.

Definition broadcast_error : exn :=
  ValueError "operands could not be broadcast together".

Module np.

(** [np.sum] of a rank-1 array. *)
Definition sum (v : vec) : Qc := fold_right Qcplus 0 v.

(** [math.prod] / [np.prod] of a rank-1 array. *)
Definition prod (v : vec) : Qc := fold_right Qcmult 1 v.

Definition abs (v : vec) : vec := map Qcabs v.

(** [np.max] of an array of non-negative entries.  NumPy raises on an
    empty array; the driver only compares regions while some component of
    the error violates the tolerance, so the arrays it compares are never
    empty. *)
Definition max (v : vec) : Qc := fold_right Qcmax 0 v.

(** [x * y] for two rank-1 arrays: equal lengths multiply elementwise, a
    length-1 operand is stretched, anything else does not broadcast. *)
Definition multiply (x y : vec) : result vec :=
  if length x =? length y then Ok (map2 Qcmult x y)
  else match x, y with
       | [c], _ => Ok (map (fun t => c * t) y)
       | _, [c] => Ok (map (fun t => t * c) x)
       | _, _ => Raise broadcast_error
       end.

(** Elementwise operation between two flattened output arrays.  Every
    estimate of one run has the shape of the integrand's output, so
    operands of different sizes are reported as a broadcasting error. *)
Definition elementwise (f : Qc -> Qc -> Qc) (x y : vec) : result vec :=
  if length x =? length y then Ok (map2 f x y) else Raise broadcast_error.

(** [np.concat([x, y], axis=-1)] on arrays of shape [(d, m1)], [(d, m2)]. *)
Definition concat_last (x y : matrix) : result matrix :=
  if length x =? length y then Ok (map2 (@app Qc) x y)
  else Raise (ValueError "all the input array dimensions except for the concatenation axis must match exactly").

(** [np.linspace(start, stop, num)]: [num] samples [start + k * step] with
    [step = (stop - start) / (num - 1)].  (NumPy also overwrites the last
    sample with [stop], the same number in exact arithmetic.) *)
Definition linspace (start stop : Qc) (num : nat) : vec :=
  let step := (stop - start) / qn (num - 1)%nat in
  map (fun k => qn k * step + start) (seq 0 num).

(** [np.vander(points, increasing=True)]: row [j] is
    [points[j]^0, ..., points[j]^(n-1)]. *)
Definition vander_increasing (points : vec) : matrix :=
  map (fun x => map (fun i => x ^ i) (seq 0 (length points))) points.

Definition ncols (m : matrix) : nat :=
  match m with [] => 0 | row :: _ => length row end.

Definition transpose (m : matrix) : matrix :=
  map (fun i => map (fun row => nth i row 0) m) (seq 0 (ncols m)).

(** Matrix-vector product, used to state what [np.linalg.solve] returns. *)
Definition dot (row x : vec) : Qc := sum (map2 Qcmult row x).
Definition matvec (a : matrix) (x : vec) : vec := map (fun row => dot row x) a.

(** [np.repeat(values, counts)]. *)
Definition repeat (values : vec) (counts : list nat) : vec :=
  List.concat (map2 (@List.repeat Qc) values counts).

End np.

Module itertools.

(** [itertools.product] of a list of pools, as in the Python documentation:
    [result = [[]]; for pool in pools: result = [x+[y] for x in result for y in pool]]. *)
Definition product {A} (pools : list (list A)) : list (list A) :=
  fold_left
    (fun result pool => flat_map (fun x => map (fun y => x ++ [y]) pool) result)
    pools [[]].

End itertools.

(* ================================================================== *)
(** ** [heapq]: the binary heap of the Python standard library

    The functions follow [Lib/heapq.py]; the two [while] loops take fuel. *)

Module heapq.
Section Heap.

Context {A : Type}.
(** [lt x y] is Python's [x < y] on heap items. *)
Variable lt : A -> A -> bool.

(** The [while pos > startpos] loop of [_siftdown]; [pos] decreases at
    every turn, so [pos] turns of fuel are enough. *)
Fixpoint _siftdown_loop (fuel : nat) (heap : list A) (startpos pos : nat)
         (newitem : A) : list A :=
  match fuel with
  | O => update heap pos newitem
  | S fuel' =>
      if startpos <? pos then
        let parentpos := ((pos - 1) / 2)%nat in
        match nth_error heap parentpos with
        | Some parent =>
            if lt newitem parent
            then _siftdown_loop fuel' (update heap pos parent) startpos parentpos newitem
            else update heap pos newitem
        | None => update heap pos newitem
        end
      else update heap pos newitem
  end.

Definition _siftdown (heap : list A) (startpos pos : nat) : list A :=
  match nth_error heap pos with
  | Some newitem => _siftdown_loop pos heap startpos pos newitem
  | None => heap
  end.

(** The [while childpos < endpos] loop of [_siftup]: bubbles the smaller
    child up until a leaf is reached; returns the heap and the leaf
    position. *)
Fixpoint _siftup_loop (fuel : nat) (heap : list A) (endpos pos : nat)
  : list A * nat :=
  match fuel with
  | O => (heap, pos)
  | S fuel' =>
      let childpos := (2 * pos + 1)%nat in
      if childpos <? endpos then
        let rightpos := (childpos + 1)%nat in
        let childpos :=
          match nth_error heap childpos, nth_error heap rightpos with
          | Some c, Some r =>
              if (rightpos <? endpos) && negb (lt c r) then rightpos else childpos
          | _, _ => childpos
          end in
        match nth_error heap childpos with
        | Some c => _siftup_loop fuel' (update heap pos c) endpos childpos
        | None => (heap, pos)
        end
      else (heap, pos)
  end.

Definition _siftup (heap : list A) (pos : nat) : list A :=
  match nth_error heap pos with
  | Some newitem =>
      let '(heap', pos') := _siftup_loop (length heap) heap (length heap) pos in
      _siftdown (update heap' pos' newitem) pos pos'
  | None => heap
  end.

Definition heappush (heap : list A) (item : A) : list A :=
  _siftdown (heap ++ [item]) 0 (length heap).

(** [heappop] returns the popped item and the heap left behind; it raises
    [IndexError] on an empty heap. *)
Definition heappop (heap : list A) : result (A * list A) :=
  match rev heap with
  | [] => Raise IndexError
  | lastelt :: front =>
      match rev front with
      | [] => Ok (lastelt, [])
      | returnitem :: rest =>
          Ok (returnitem, _siftup (lastelt :: rest) 0)
      end
  end.

End Heap.
End heapq.

(* ================================================================== *)
(** ** Rules *)

(** The integrand receives the array of evaluation points, of shape
    [(d, m)], and returns the array of its values, of shape
    [(out_1,...,out_k, m)] (here: the list of its rows). *)
Definition integrand := matrix -> matrix.

Definition dimension_error : exn :=
  ValueError "cubature rule and function are of incompatible dimension".

(** [_apply_rule(f, a, b, rule)]. *)
Definition _apply_rule (f : integrand) (a b : vec) (rule : matrix * vec)
  : result vec :=
  let '(orig_nodes, orig_weights) := rule in
  let rule_ndim := length orig_nodes in
  let a_ndim := length a in
  let b_ndim := length b in
  if negb (rule_ndim =? a_ndim) || negb (rule_ndim =? b_ndim) then
    Raise dimension_error
  else
    let lengths := map2 Qcminus b a in
    let nodes :=
      map2 (fun row la => map (fun x => (x + 1) * (fst la / qz 2) + snd la) row)
           orig_nodes (combine lengths a) in
    let weight_scale_factor := np.prod (map (fun l => l / qz 2) lengths) in
    let weights := map (fun w => w * weight_scale_factor) orig_weights in
    rows <- mapM (np.multiply weights) (f nodes) ;;
    Ok (map np.sum rows).

(** A rule object: the two methods of the [Cubature] interface. *)
Record Cubature : Type := {
  estimate : integrand -> vec -> vec -> result vec;
  error_estimate : integrand -> vec -> vec -> result vec
}.

(** The base class [Cubature]: both methods raise [NotImplementedError]. *)
Definition Cubature_base : Cubature := {|
  estimate := fun _ _ _ => Raise NotImplementedError;
  error_estimate := fun _ _ _ => Raise NotImplementedError
|}.

(** [FixedCubature]: a subclass supplies the property [rule] (which may
    itself raise); [error_estimate] is inherited from [Cubature]. *)
Definition FixedCubature (rule : result (matrix * vec)) : Cubature := {|
  estimate := fun f a b => r <- rule ;; _apply_rule f a b r;
  error_estimate := fun _ _ _ => Raise NotImplementedError
|}.

(** [ErrorFromDifference.error_estimate], for the properties [rule] (of
    [higher]) and [lower_rule] (of [lower]). *)
Definition ErrorFromDifference_error_estimate
           (rule lower_rule : result (matrix * vec))
           (f : integrand) (a b : vec) : result vec :=
  '(nodes, weights) <- rule ;;
  '(lower_nodes, lower_weights) <- lower_rule ;;
  error_nodes <- np.concat_last nodes lower_nodes ;;
  let error_weights := weights ++ map Qcopp lower_weights in
  let error_rule := (error_nodes, error_weights) in
  r <- _apply_rule f a b error_rule ;;
  Ok (np.abs r).

Definition ErrorFromDifference (rule lower_rule : result (matrix * vec))
  : Cubature := {|
  estimate := estimate (FixedCubature rule);
  error_estimate := ErrorFromDifference_error_estimate rule lower_rule
|}.

(* ------------------------------------------------------------------ *)
(** *** Newton-Cotes *)

Section NewtonCotes.

(** [np.linalg.solve(a, b)] is NumPy's; it is taken as a parameter.  Its
    contract (used by the theorems): a returned [x] satisfies [a x = b]. *)
Variable solve : matrix -> vec -> result vec.

(** [_newton_cotes_weights(points)]. *)
Definition _newton_cotes_weights (points : vec) : result vec :=
  let order := (length points - 1)%nat in
  let a := np.vander_increasing points in
  let a := np.transpose a in
  let i := seq 0 (order + 1) in
  let b := map (fun i => (1 - (- (1)) ^ (i + 1)) / (qz 2 * (qn i + 1))) i in
  x <- solve a b ;;
  Ok (map (fun t => qz 2 * t) x).

(** The [nodes] computed by [NewtonCotes.rule]. *)
Definition NewtonCotes_nodes (npoints : nat) (open : bool) : matrix :=
  if open then
    let h := qz 2 / qn npoints in
    [np.linspace (- (1) + h) (1 - h) npoints]
  else
    [np.linspace (- (1)) 1 npoints].

(** [NewtonCotes.rule]. *)
Definition NewtonCotes_rule (npoints : nat) (open : bool)
  : result (matrix * vec) :=
  let nodes := NewtonCotes_nodes npoints open in
  weights <- _newton_cotes_weights (List.concat nodes) ;;
  Ok (nodes, weights).


End NewtonCotes.

(* ------------------------------------------------------------------ *)
(** *** Genz-Malik *)

(** The [weights] computed by [GenzMalik.rule].  The products with
    [2**ndim] are integer arithmetic in Python, the divisions are true
    divisions. *)
Definition GenzMalik_rule_weights (ndim : nat) : vec :=
  let n := Z.of_nat ndim in
  let w_1 := qz (2 ^ n * (12824 - 9120 * n + 400 * n ^ 2)) / qz 19683 in
  let w_2 := qz (2 ^ n * 980) / qz 6561 in
  let w_3 := qz (2 ^ n * (1820 - 400 * n)) / qz 19683 in
  let w_4 := qz (2 ^ n) * (qz 200 / qz 19683) in
  let w_5 := qz 6859 / qz 19683 in
  np.repeat [w_1; w_2; w_3; w_4; w_5]
            [1; 2 * ndim; 2 * ndim; 2 * (ndim - 1) * ndim; 2 ^ ndim]%nat.

(** The [weights] computed by [GenzMalik.lower_rule]. *)
Definition GenzMalik_lower_rule_weights (ndim : nat) : vec :=
  let n := Z.of_nat ndim in
  let w_1 := qz (2 ^ n * (729 - 950 * n + 50 * n ^ 2)) / qz 729 in
  let w_2 := qz (2 ^ n) * (qz 245 / qz 486) in
  let w_3 := qz (2 ^ n * (265 - 100 * n)) / qz 1458 in
  let w_4 := qz (2 ^ n) * (qz 25 / qz 729) in
  np.repeat [w_1; w_2; w_3; w_4]
            [1; 2 * ndim; 2 * ndim; 2 * (ndim - 1) * ndim]%nat.

(** The number of nodes that [GenzMalik.rule] and [GenzMalik.lower_rule]
    reshape their node arrays to. *)
Definition GenzMalik_nodes_size (ndim : nat) : nat :=
  (1 + 2 * (ndim + 1) * ndim + 2 ^ ndim)%nat.

Definition GenzMalik_lower_nodes_size (ndim : nat) : nat :=
  (1 + 2 * (ndim + 1) * ndim)%nat.

(* ================================================================== *)
(** ** Bisection of a region *)

(** The element type of an array of bounds, as far as [+] goes: a
    floating-point type, a signed or unsigned integer type of [bits] bits,
    or [bool].  [np.asarray] keeps the type the caller's array has. *)
Inductive dtype : Type :=
| floating
| signed (bits : Z)
| unsigned (bits : Z)
| boolean.

(** The value an array of type [dt] holds for the integer [z]: integer
    arithmetic wraps around, and [+] on booleans is the logical or. *)
Definition wrap (dt : dtype) (z : Z) : Z :=
  match dt with
  | floating => z
  | signed bits => ((z + 2 ^ (bits - 1)) mod 2 ^ bits - 2 ^ (bits - 1))%Z
  | unsigned bits => (z mod 2 ^ bits)%Z
  | boolean => if (z =? 0)%Z then 0%Z else 1%Z
  end.

(** [x + y] for two entries of arrays whose sum has type [dt]; the entries
    of an integer or boolean array are integers. *)
Definition add_dtype (dt : dtype) (x y : Qc) : Qc :=
  match dt with
  | floating => x + y
  | _ => qz (wrap dt (Qfloor (x + y)))
  end.

(** [_subregion_coordinates(a, b)]: the list of the pairs the generator
    yields; [dt] is the type NumPy gives to [a + b].  The division by 2 is
    a true division: [m] and the yielded arrays are floating point, whatever
    [dt] is.  Arrays [a], [b] of different lengths cannot be stacked. *)
Definition _subregion_coordinates (dt : dtype) (a b : vec)
  : result (list (vec * vec)) :=
  if length a =? length b then
    let m := map2 (fun x y => add_dtype dt x y / qz 2) a b in
    Ok (combine
          (itertools.product (map2 (fun x y => [x; y]) a m))
          (itertools.product (map2 (fun x y => [x; y]) m b)))
  else Raise broadcast_error.

Definition _max_norm (x : vec) : Qc := np.max (np.abs x).

(* ================================================================== *)
(** ** The adaptive driver *)

(** The arrays [est], [err] and the estimates held by the regions are NumPy
    arrays that [cubature] updates in place ([est -= est_k], [est += est_sub]).
    They are kept in a store; a location stands for the array object.  Every
    call of a rule returns a new array (the result of [np.sum] or [np.abs]),
    which the driver's model allocates; the first region is built from the
    very arrays [est] and [err] that the loop then updates. *)
Definition loc := nat.
Definition store := list vec.

Definition alloc (s : store) (v : vec) : store * loc := (s ++ [v], length s).
Definition deref (s : store) (l : loc) : vec := nth l s [].

(** [x op= y] on the array at location [x]. *)
Definition inplace (f : Qc -> Qc -> Qc) (s : store) (x : loc) (y : vec)
  : result store :=
  v <- np.elementwise f (deref s x) y ;;
  Ok (update s x v).

(** The dataclass [CubatureRegion]; [a] and [b] are never written to.
    [region_dtype] is the element type of [a + b] for the arrays [a] and [b]
    of the region. *)
Record CubatureRegion : Type := {
  region_estimate : loc;
  region_error : loc;
  region_a : vec;
  region_b : vec;
  region_dtype : dtype
}.

(** [CubatureRegion.__lt__]. *)
Definition CubatureRegion_lt (s : store) (self other : CubatureRegion) : bool :=
  Qcltb (_max_norm (deref s (region_error other)))
        (_max_norm (deref s (region_error self))).

(** What a caller reads off a returned region. *)
Record RegionValue : Type := {
  value_estimate : vec;
  value_error : vec;
  value_a : vec;
  value_b : vec
}.

(** The dataclass [CubatureResult], with its arrays read off the store. *)
Record CubatureResult : Type := {
  res_estimate : vec;
  res_error : vec;
  res_success : bool;
  res_status : string;
  res_regions : list RegionValue;
  res_subdivisions : Z;
  res_atol : Qc;
  res_rtol : Qc
}.

(** The local variables of [cubature] while the loop runs. *)
Record state : Type := {
  st_store : store;
  st_est : loc;
  st_err : loc;
  st_regions : list CubatureRegion;
  st_subdivisions : Z
}.

Definition region_value (s : store) (r : CubatureRegion) : RegionValue := {|
  value_estimate := deref s (region_estimate r);
  value_error := deref s (region_error r);
  value_a := region_a r;
  value_b := region_b r
|}.

Section Driver.

Variable f : integrand.
Variable rule : Cubature.
Variables rtol atol : Qc.
(** [max_subdivisions]: an integer, or [None] (replaced by [np.inf]). *)
Variable max_subdivisions : option Z.

(** The loop condition [np.any(err > atol + rtol * np.abs(est))]: arrays
    of equal size are compared entry by entry, an array of one entry is
    compared with every entry of the other, anything else does not
    broadcast. *)
Definition tolerance_violated (est err : vec) : result bool :=
  if length err =? length est then
    Ok (existsb (fun p => Qcltb (atol + rtol * Qcabs (snd p)) (fst p))
                (combine err est))
  else match err, est with
       | [r], _ => Ok (existsb (fun e => Qcltb (atol + rtol * Qcabs e) r) est)
       | _, [e] => Ok (existsb (fun r => Qcltb (atol + rtol * Qcabs e) r) err)
       | _, _ => Raise broadcast_error
       end.

(** One turn of [for a_k_sub, b_k_sub in _subregion_coordinates(a_k, b_k)]. *)
Definition refine_subregion (est err : loc)
           (acc : store * list CubatureRegion) (sub : vec * vec)
  : result (store * list CubatureRegion) :=
  let '(s, regions) := acc in
  let '(a_k_sub, b_k_sub) := sub in
  est_sub_v <- estimate rule f a_k_sub b_k_sub ;;
  let '(s, est_sub) := alloc s est_sub_v in
  err_sub_v <- error_estimate rule f a_k_sub b_k_sub ;;
  let '(s, err_sub) := alloc s err_sub_v in
  s <- inplace Qcplus s est (deref s est_sub) ;;
  s <- inplace Qcplus s err (deref s err_sub) ;;
  let new_region := {| region_estimate := est_sub; region_error := err_sub;
                       region_a := a_k_sub; region_b := b_k_sub;
                       region_dtype := floating |} in
  Ok (s, heapq.heappush (CubatureRegion_lt s) regions new_region).

(** The body of the [while] loop up to [subdivisions += 1]. *)
Definition refine (st : state) : result state :=
  let s := st_store st in
  '(region_k, regions) <- heapq.heappop (CubatureRegion_lt s) (st_regions st) ;;
  let est_k := region_estimate region_k in
  let err_k := region_error region_k in
  let a_k := region_a region_k in
  let b_k := region_b region_k in
  s <- inplace Qcminus s (st_est st) (deref s est_k) ;;
  s <- inplace Qcminus s (st_err st) (deref s err_k) ;;
  subs <- _subregion_coordinates (region_dtype region_k) a_k b_k ;;
  '(s, regions) <- foldM (refine_subregion (st_est st) (st_err st)) subs (s, regions) ;;
  Ok {| st_store := s; st_est := st_est st; st_err := st_err st;
        st_regions := regions;
        st_subdivisions := (st_subdivisions st + 1)%Z |}.

(** [subdivisions >= max_subdivisions]. *)
Definition budget_reached (subdivisions : Z) : bool :=
  match max_subdivisions with
  | None => false
  | Some limit => (limit <=? subdivisions)%Z
  end.

(** The [while] loop; returns the final state and the flag [success]. *)
Fixpoint refinement_loop (fuel : nat) (st : state) : result (state * bool) :=
  again <- tolerance_violated (deref (st_store st) (st_est st))
                              (deref (st_store st) (st_err st)) ;;
  if again then
    match fuel with
    | O => OutOfFuel
    | S fuel' =>
        st' <- refine st ;;
        if budget_reached (st_subdivisions st') then Ok (st', false)
        else refinement_loop fuel' st'
    end
  else Ok (st, true).

(** The state before the loop, from the two initial estimates; [dt] is the
    element type of [a + b] for the arrays [np.asarray(a)] and
    [np.asarray(b)]. *)
Definition initial_state (est_v err_v : vec) (dt : dtype) (a b : vec) : state :=
  let '(s, est) := alloc [] est_v in
  let '(s, err) := alloc s err_v in
  {| st_store := s; st_est := est; st_err := err;
     st_regions := [ {| region_estimate := est; region_error := err;
                        region_a := a; region_b := b; region_dtype := dt |} ];
     st_subdivisions := 0 |}.

Definition make_result (st : state) (success : bool) : CubatureResult := {|
  res_estimate := deref (st_store st) (st_est st);
  res_error := deref (st_store st) (st_err st);
  res_success := success;
  res_status := if success then "converged" else "not_converged";
  res_regions := map (region_value (st_store st)) (st_regions st);
  res_subdivisions := st_subdivisions st;
  res_atol := atol;
  res_rtol := rtol
|}.

Definition invalid_rule_error : exn :=
  ValueError "attempting cubature with a rule that doesn't implement error estimation.".

(** [cubature(f, a, b, rule, rtol, atol, max_subdivisions)] for rank-1
    [a] and [b] whose sum has the element type [dt]. *)
Definition cubature (fuel : nat) (dt : dtype) (a b : vec) : result CubatureResult :=
  est <- estimate rule f a b ;;
  err <- match error_estimate rule f a b with
         | Raise NotImplementedError => Raise invalid_rule_error
         | r => r
         end ;;
  '(st, success) <- refinement_loop fuel (initial_state est err dt a b) ;;
  Ok (make_result st success).

End Driver.

(* ================================================================== *)
(** ** Concrete instances used in examples *)

(** A solver for the parameter of the Newton-Cotes section: Gauss-Jordan
    elimination on the augmented rows; the candidate solution is kept only
    if it satisfies the system. *)
Module gauss.

Definition scale (c : Qc) (row : vec) : vec := map (fun t => c * t) row.
Definition axpy (c : Qc) (x y : vec) : vec := map2 (fun s t => t - c * s) x y.

(** Splits [rows] at the first row whose entry [col] is not zero. *)
Fixpoint find_pivot (col : nat) (rows : matrix) : option (vec * matrix) :=
  match rows with
  | [] => None
  | r :: rows' =>
      if Qc_eq_bool (nth col r 0) 0 then
        match find_pivot col rows' with
        | Some (p, rest) => Some (p, r :: rest)
        | None => None
        end
      else Some (r, rows')
  end.

(** [done] holds the rows already reduced (in reverse order), [todo] the
    rows still to pivot on. *)
Fixpoint eliminate (fuel col : nat) (done todo : matrix) : option matrix :=
  match fuel with
  | O => match todo with [] => Some (rev done) | _ => None end
  | S fuel' =>
      match find_pivot col todo with
      | None => None
      | Some (p, rest) =>
          let p := scale (/ nth col p 0) p in
          let clear r := axpy (nth col r 0) p r in
          eliminate fuel' (S col) (p :: map clear done) (map clear rest)
      end
  end.

Definition solve (a : matrix) (b : vec) : result vec :=
  let n := length a in
  match eliminate n 0 [] (map2 (fun row t => row ++ [t]) a b) with
  | None => Raise LinAlgError
  | Some rows =>
      let x := map (fun r => nth n r 0) rows in
      if (length x =? n) && forallb (fun p => Qc_eq_bool (fst p) (snd p))
                                    (combine (np.matvec a x) b)
         && (length b =? n)
      then Ok x else Raise LinAlgError
  end.

End gauss.

(** The midpoint rule paired with the trapezoidal rule on [[-1, 1]]. *)
Definition midpoint_trapezoid : Cubature :=
  ErrorFromDifference (Ok ([[0]], [qz 2])) (Ok ([[- (1); 1]], [1; 1])).

(** [f(x) = x**2] on arrays of shape [(1, m)]. *)
Definition square : integrand := map (map (fun x => x * x)).

(** [f(x) = 1] on arrays of shape [(d, m)], for [d >= 1]. *)
Definition ones : integrand := fun x => [map (fun _ => 1) (hd [] x)].

(* ================================================================== *)
(** ** Vocabulary of the statements *)

(** The exact integral of [x^i] over [[-1, 1]]. *)
Definition monomial_integral (i : nat) : Qc := (1 - (- (1)) ^ (i + 1)) / (qn i + 1).

(** The right-hand side [b] that [_newton_cotes_weights] hands to the
    solver. *)
Definition half_moment (i : nat) : Qc :=
  (1 - (- (1)) ^ (i + 1)) / (qz 2 * (qn i + 1)).

(** The recursive reading of the Cartesian product. *)
Fixpoint product_rec {A} (pools : list (list A)) : list (list A) :=
  match pools with
  | [] => [[]]
  | pool :: pools' => flat_map (fun y => map (cons y) (product_rec pools')) pool
  end.

(** A child of the region [[a, b]] is named by a choice per axis: [false]
    for the lower half [[a_i, m_i]], [true] for the upper half
    [[m_i, b_i]]. *)
Definition midpoint (a b : vec) : vec := map2 (fun x y => (x + y) / qz 2) a b.
Definition pick (p : Qc * Qc) (c : bool) : Qc := if c then snd p else fst p.
Definition lower_corner (a m : vec) (s : list bool) : vec :=
  map2 pick (combine a m) s.
Definition upper_corner (m b : vec) (s : list bool) : vec :=
  map2 pick (combine m b) s.
Definition child (a b : vec) (s : list bool) : vec * vec :=
  (lower_corner a (midpoint a b) s, upper_corner (midpoint a b) b s).

(** The midpoint that [_subregion_coordinates] computes in arrays whose sum
    has type [dt], and the child it yields for a choice pattern. *)
Definition midpoint_dtype (dt : dtype) (a b : vec) : vec :=
  map2 (fun x y => add_dtype dt x y / qz 2) a b.
Definition child_at (a m b : vec) (s : list bool) : vec * vec :=
  (lower_corner a m s, upper_corner m b s).

(** The integers an array of type [dt] can hold. *)
Definition in_range (dt : dtype) (z : Z) : Prop :=
  match dt with
  | floating => True
  | signed bits => (- 2 ^ (bits - 1) <= z < 2 ^ (bits - 1))%Z
  | unsigned bits => (0 <= z < 2 ^ bits)%Z
  | boolean => (0 <= z <= 1)%Z
  end.

(** The sums [a_i + b_i] are formed without wrapping: the arrays are
    floating point, or their entries are integers whose sums the type
    holds. *)
Definition sums_fit (dt : dtype) (a b : vec) : Prop :=
  dt = floating \/
  forall i, (i < length a)%nat ->
    exists x y, nth i a 0 = qz x /\ nth i b 0 = qz y /\ in_range dt (x + y).

(** All choice patterns of [d] axes, in the order of [itertools.product]. *)
Definition patterns (d : nat) : list (list bool) :=
  itertools.product (List.repeat [false; true] d).

(** [x] lies in the closed box with corners [a] and [b]. *)
Definition in_box (a b x : vec) : Prop :=
  length x = length a /\
  forall i, (i < length a)%nat -> nth i a 0 <= nth i x 0 /\ nth i x 0 <= nth i b 0.

Definition volume (lo hi : vec) : Qc := np.prod (map2 Qcminus hi lo).

(** The affine image of a reference node on axis [i], of the whole node
    array, and of a weight (the Jacobian determinant of the mapping). *)
Definition mapped_node (a b : vec) (i : nat) (x : Qc) : Qc :=
  (x + 1) * ((nth i b 0 - nth i a 0) / qz 2) + nth i a 0.
Definition mapped_nodes (nodes : matrix) (a b : vec) : matrix :=
  map (fun i => map (mapped_node a b i) (nth i nodes [])) (seq 0 (length nodes)).
Definition jacobian (a b : vec) : Qc :=
  np.prod (map (fun i => (nth i b 0 - nth i a 0) / qz 2) (seq 0 (length a))).
Definition mapped_weight (a b : vec) (w : Qc) : Qc := w * jacobian a b.

(** The integrand that evaluates [g] at every evaluation point (column) of
    its argument; [g] returns the [n] components of the flattened output. *)
Definition column (x : matrix) (k : nat) : vec := map (fun row => nth k row 0) x.
Definition vectorize (n : nat) (g : vec -> vec) : integrand :=
  fun x => map (fun j => map (fun k => nth j (g (column x k)) 0) (seq 0 (np.ncols x)))
               (seq 0 n).

(** Two node arrays side by side. *)
Definition hconcat (x y : matrix) : matrix := map2 (@app Qc) x y.

(** [f(x) = x**2] again, written as a function of the evaluation point. *)
Definition square_pointwise : integrand :=
  vectorize 1 (fun p => [nth 0 p 0 * nth 0 p 0]).

(** *** The accumulator of the driver *)

(** The elementwise sum of arrays of [n] entries. *)
Definition array_sum (n : nat) (arrays : list vec) : vec :=
  fold_right (map2 Qcplus) (List.repeat 0 n) arrays.

Definition estimates_of (s : store) (regions : list CubatureRegion) : list vec :=
  map (fun r => deref s (region_estimate r)) regions.
Definition errors_of (s : store) (regions : list CubatureRegion) : list vec :=
  map (fun r => deref s (region_error r)) regions.

(** The accumulators hold the sums of the fields of the live regions. *)
Definition accumulator_consistent (st : state) : Prop :=
  let s := st_store st in
  deref s (st_est st)
  = array_sum (length (deref s (st_est st))) (estimates_of s (st_regions st)) /\
  deref s (st_err st)
  = array_sum (length (deref s (st_err st))) (errors_of s (st_regions st)).

(** The same, read off a returned result. *)
Definition result_consistent (res : CubatureResult) : Prop :=
  res_estimate res
  = array_sum (length (res_estimate res)) (map value_estimate (res_regions res)) /\
  res_error res
  = array_sum (length (res_error res)) (map value_error (res_regions res)).

(** A region whose arrays are allocated, are not the accumulators, and have
    the accumulators' shapes. *)
Definition region_fresh (s : store) (est err : loc) (r : CubatureRegion) : Prop :=
  (region_estimate r < length s)%nat /\ (region_error r < length s)%nat /\
  region_estimate r <> est /\ region_estimate r <> err /\
  region_error r <> est /\ region_error r <> err /\
  length (deref s (region_estimate r)) = length (deref s est) /\
  length (deref s (region_error r)) = length (deref s err).

(** The working set after a refinement: the accumulators are arrays of their
    own and hold the sums over the regions. *)
Definition refined (s : store) (est err : loc) (regions : list CubatureRegion) : Prop :=
  (est < length s)%nat /\ (err < length s)%nat /\ est <> err /\
  Forall (region_fresh s est err) regions /\
  deref s est = array_sum (length (deref s est)) (estimates_of s regions) /\
  deref s err = array_sum (length (deref s err)) (errors_of s regions).

(** The working set before the first refinement: one region, which shares
    its two arrays with the accumulators. *)
Definition pristine (st : state) : Prop :=
  (st_est st < length (st_store st))%nat /\ (st_err st < length (st_store st))%nat /\
  st_est st <> st_err st /\
  exists a b dt, st_regions st = [ {| region_estimate := st_est st;
                                      region_error := st_err st;
                                      region_a := a; region_b := b;
                                      region_dtype := dt |} ].

Definition driver_invariant (st : state) : Prop :=
  pristine st \/ refined (st_store st) (st_est st) (st_err st) (st_regions st).


(** [s'] extends [s] and agrees with it away from the accumulators. *)
Definition frame (s s' : store) (est err : loc) : Prop :=
  (length s <= length s')%nat /\
  forall l, (l < length s)%nat -> l <> est -> l <> err -> deref s' l = deref s l.

(** The states in which the loop condition of [cubature] is evaluated,
    starting from [st0]. *)
Inductive at_test (f : integrand) (rule : Cubature) (rtol atol : Qc)
          (max_subdivisions : option Z) (st0 : state) : state -> Prop :=
| at_test_first : at_test f rule rtol atol max_subdivisions st0 st0
| at_test_next st st' :
    at_test f rule rtol atol max_subdivisions st0 st ->
    tolerance_violated rtol atol (deref (st_store st) (st_est st))
                       (deref (st_store st) (st_err st)) = Ok true ->
    refine f rule st = Ok st' ->
    budget_reached max_subdivisions (st_subdivisions st') = false ->
    at_test f rule rtol atol max_subdivisions st0 st'.

(* ================================================================== *)
(** ** The working set of the driver *)

Definition region_bounds (r : CubatureRegion) : vec * vec := (region_a r, region_b r).

(** The arrays of region [r] hold what the rule returns on its bounds. *)
Definition region_evaluated (f : integrand) (rule : Cubature) (s : store)
           (r : CubatureRegion) : Prop :=
  estimate rule f (region_a r) (region_b r) = Ok (deref s (region_estimate r)) /\
  error_estimate rule f (region_a r) (region_b r) = Ok (deref s (region_error r)).

(** The arrays of region [r] are the same in both stores. *)
Definition region_unchanged (s s' : store) (r : CubatureRegion) : Prop :=
  deref s' (region_estimate r) = deref s (region_estimate r) /\
  deref s' (region_error r) = deref s (region_error r).

(** [u <= v] componentwise. *)
Definition vec_le (u v : vec) : Prop :=
  length u = length v /\
  forall i, (i < length u)%nat -> nth i u 0 <= nth i v 0.

(** The box [[lo, hi]] is well formed and lies in the box [[a, b]]. *)
Definition box_inside (a b lo hi : vec) : Prop :=
  vec_le a lo /\ vec_le lo hi /\ vec_le hi b.

Definition regions_volume (regions : list CubatureRegion) : Qc :=
  np.sum (map (fun r => volume (region_a r) (region_b r)) regions).

(** What the driver keeps true of its working set, for the call
    [cubature(f, a, b, rule, ...)] with bounds whose sum has type [dt]. *)
Definition bookkeeping (f : integrand) (rule : Cubature) (dt : dtype) (a b : vec)
           (st : state) : Prop :=
  driver_invariant st /\
  Forall (region_evaluated f rule (st_store st)) (st_regions st) /\
  Forall (fun r => length (region_a r) = length a) (st_regions st) /\
  (0 <= st_subdivisions st)%Z /\
  Z.of_nat (length (st_regions st))
  = (1 + st_subdivisions st * (2 ^ Z.of_nat (length a) - 1))%Z /\
  regions_volume (st_regions st) = volume a b /\
  (vec_le a b -> sums_fit dt a b ->
   Forall (fun r => sums_fit (region_dtype r) (region_a r) (region_b r) /\
                    box_inside a b (region_a r) (region_b r))
          (st_regions st)).

(* ================================================================== *)
(** ** The heap order *)

(** The parent of position [i > 0] in the heap layout of [heapq]. *)
Definition parent_pos (i : nat) : nat := ((i - 1) / 2)%nat.

(** The heap invariant of [heapq]: no item is less than its parent. *)
Definition heap_ordered {A} (lt : A -> A -> bool) (h : list A) : Prop :=
  forall i x p, (0 < i)%nat ->
    nth_error h i = Some x -> nth_error h (parent_pos i) = Some p ->
    lt x p = false.

(** The heap invariant away from position [pos]: it holds between items that
    are not at [pos], and between the parent of [pos] and the children of
    [pos]. *)
Definition hole_ordered {A} (lt : A -> A -> bool) (h : list A) (pos : nat) : Prop :=
  (forall i x p, (0 < i)%nat -> i <> pos -> parent_pos i <> pos ->
     nth_error h i = Some x -> nth_error h (parent_pos i) = Some p ->
     lt x p = false) /\
  (forall c x p, (0 < pos)%nat -> (0 < c)%nat -> parent_pos c = pos ->
     nth_error h c = Some x -> nth_error h (parent_pos pos) = Some p ->
     lt x p = false).

(** No child of [pos] is less than [item]. *)
Definition above_children {A} (lt : A -> A -> bool) (h : list A) (pos : nat)
           (item : A) : Prop :=
  forall c x, (0 < c)%nat -> parent_pos c = pos -> nth_error h c = Some x ->
    lt x item = false.

(* ================================================================== *)
(** ** Polynomials *)


(** Finite sums, and the coefficient lists of [(h x + c) * A], of
    [(h x + c)^i] and of the derivative of [A]; the primitive of [A] that
    vanishes at [0], evaluated at [x]. *)
Definition bigsum (n : nat) (F : nat -> Qc) : Qc := np.sum (map F (seq 0 n)).

(* ================================================================== *)
(** ** Product rules *)

(** The multi-indices of an array of the given shape, in C order. *)
Definition ndindex (shape : list nat) : list (list nat) :=
  itertools.product (map (seq 0) shape).

(** [np.meshgrid] of the arrays [xi] with [indexing='ij'], every grid
    flattened in C order:
    NumPy ravels each input, and grid [i] holds [xi[i][k_i]] at the
    multi-index [(k_1, ..., k_N)]. *)
Definition meshgrid_ij (xi : list vec) : list vec :=
  map (fun i => map (fun idx => nth (nth i idx 0%nat) (nth i xi []) 0)
                    (ndindex (map (@length Qc) xi)))
      (seq 0 (length xi)).

(** [_cartesian_product(points)], for the ravelled arrays [points]:
    [np.stack] refuses an empty list of grids; the reshape to
    [(len(points), -1)] flattens every grid. *)
Definition _cartesian_product (points : list vec) : result matrix :=
  match points with
  | [] => Raise (ValueError "need at least one array to stack")
  | _ :: _ => Ok (meshgrid_ij points)
  end.

(** [np.prod(m, axis=0)]. *)
Definition prod_axis0 (m : matrix) : vec :=
  map (fun k => np.prod (column m k)) (seq 0 (np.ncols m)).

(** [Product.rule] and [Product.lower_rule]; a base cubature is the pair of
    its properties [rule] and [lower_rule]. *)
Definition Product_rule_of (select : result (matrix * vec) * result (matrix * vec)
                                     -> result (matrix * vec))
           (base_cubatures : list (result (matrix * vec) * result (matrix * vec)))
  : result (matrix * vec) :=
  rules <- mapM select base_cubatures ;;
  nodes <- _cartesian_product (map (fun r => List.concat (fst r)) rules) ;;
  weights <- _cartesian_product (map snd rules) ;;
  Ok (nodes, prod_axis0 weights).

Definition Product_rule := Product_rule_of fst.
Definition Product_lower_rule := Product_rule_of snd.

(** [Product(base_cubatures)]. *)
Definition Product (base_cubatures : list (result (matrix * vec) * result (matrix * vec)))
  : Cubature :=
  ErrorFromDifference (Product_rule base_cubatures) (Product_lower_rule base_cubatures).

(** Integrands: [g] applied to every entry, and the product of the [gs]
    applied to the coordinates of every evaluation point. *)
Definition pointwise (g : Qc -> Qc) : integrand := map (map g).
Definition separable (gs : list (Qc -> Qc)) : integrand :=
  vectorize 1 (fun p => [np.prod (map2 (fun g t => g t) gs p)]).

Definition bigprod (n : nat) (F : nat -> Qc) : Qc := np.prod (map F (seq 0 n)).

(** The multi-indices of the grids of [xs]. *)
Definition product_indices (xs : list vec) : list (list nat) :=
  ndindex (map (@length Qc) xs).

(* ================================================================== *)
(** ** Distinct permutations *)

(** [sorted(iterable)], by insertion. *)
Fixpoint insert_sorted (x : Qc) (l : vec) : vec :=
  match l with
  | [] => [x]
  | y :: l' => if Qcltb x y then x :: y :: l' else y :: insert_sorted x l'
  end.
Definition sorted (iterable : vec) : vec := fold_right insert_sorted [] iterable.

(** The first loop of [_distinct_permutations]: [i] runs down from
    [count - 1] to [0] and stops at the first [items[i] < items[i + 1]];
    [None] is the [else] branch of the loop. *)
Fixpoint find_ascent (items : vec) (count : nat) : option nat :=
  match count with
  | O => None
  | S i =>
      if Qcltb (nth i items 0) (nth (S i) items 0) then Some i
      else find_ascent items i
  end.

(** The second loop: [j] runs down from [i + count] to [i + 1] and stops
    at the first [items[i] < items[j]]; a loop that runs to its end leaves
    [j = i + 1]. *)
Fixpoint find_larger (items : vec) (i count : nat) : nat :=
  match count with
  | O => S i
  | S c =>
      if Qcltb (nth i items 0) (nth (i + S c) items 0) then (i + S c)%nat
      else find_larger items i c
  end.

(** One turn of the [while] loop after the [yield]: [None] when the
    generator returns, the next value of [items] otherwise. *)
Definition next_permutation (items : vec) : option vec :=
  let size := length items in
  match find_ascent items (size - 1) with
  | None => None
  | Some i =>
      let j := find_larger items i (size - 1 - i) in
      let items := update (update items i (nth j items 0)) j (nth i items 0) in
      Some (firstn (i + 1) items ++ rev (skipn (i + 1) items))
  end.

(** [_distinct_permutations(iterable)]: the list of the tuples the generator
    yields. *)
Fixpoint _distinct_permutations_loop (fuel : nat) (items : vec) : result (list vec) :=
  match fuel with
  | O => OutOfFuel
  | S fuel =>
      match next_permutation items with
      | None => Ok [items]
      | Some items' =>
          rest <- _distinct_permutations_loop fuel items' ;;
          Ok (items :: rest)
      end
  end.

Definition _distinct_permutations (fuel : nat) (iterable : vec) : result (list vec) :=
  _distinct_permutations_loop fuel (sorted iterable).

(** The lexicographic order of tuples of the same length. *)
Inductive lex_lt : vec -> vec -> Prop :=
| lex_here x y p q : x < y -> lex_lt (x :: p) (y :: q)
| lex_there x p q : lex_lt p q -> lex_lt (x :: p) (x :: q).

Definition ascending (l : vec) : Prop := StronglySorted Qcle l.
Definition descending (l : vec) : Prop := StronglySorted (fun x y => y <= x) l.

(** The number of entries of [l] below [x], and the numeral with these
    digits in base [length l + 1]. *)
Definition rank (l : vec) (x : Qc) : nat := length (filter (fun y => Qcltb y x) l).
Definition code (l p : vec) : nat :=
  fold_left (fun acc x => (acc * S (length l) + rank l x)%nat) p 0%nat.

(** [L] lists every distinct permutation of [l] once. *)
Definition enumerates (l : vec) (L : list vec) : Prop :=
  NoDup L /\ forall p, In p L <-> Permutation l p.

Definition starts_with (v : Qc) (p : vec) : bool :=
  match p with
  | [] => false
  | y :: _ => Qc_eq_bool y v
  end.

(* ================================================================== *)
(** ** The nodes of Genz-Malik *)

(** [zip] of the unpacked tuples [its]: tuple [i] collects entry [i] of
    every tuple, up to the length of the shortest one. *)
Definition zip_star (its : list vec) : matrix :=
  match its with
  | [] => []
  | t :: ts =>
      map (fun i => map (fun u => nth i u 0) its)
          (seq 0 (fold_right Nat.min (length t) (map (@length Qc) ts)))
  end.

(** [np.fromiter(iterable, dtype=float, count=count)]. *)
Definition fromiter (iterable : vec) (count : nat) : result vec :=
  if (length iterable <? count)%nat then Raise (ValueError "iterator too short")
  else Ok (firstn count iterable).

(** The assignment [nodes.shape = (rows, cols)] to a flat array of
    [rows * cols] entries. *)
Definition reshape (rows cols : nat) (flat : vec) : matrix :=
  map (fun i => firstn cols (skipn (i * cols) flat)) (seq 0 rows).

Section GenzMalikNodes.

(** The radii [l_2 = math.sqrt(9/70)], [l_3 = l_4 = math.sqrt(9/10)] and
    [l_5 = math.sqrt(9/19)] have no rational value: they are parameters. *)
Variables l_2 l_3 l_4 l_5 : Qc.

(** The points that [rule] and [lower_rule] have in common. *)
Definition GenzMalik_common_points (fuel ndim : nat) : result (list vec) :=
  let zeros := List.repeat 0 in
  p_1 <- _distinct_permutations fuel (l_2 :: zeros (ndim - 1)%nat) ;;
  p_2 <- _distinct_permutations fuel (- l_2 :: zeros (ndim - 1)%nat) ;;
  p_3 <- _distinct_permutations fuel (l_3 :: zeros (ndim - 1)%nat) ;;
  p_4 <- _distinct_permutations fuel (- l_3 :: zeros (ndim - 1)%nat) ;;
  p_5 <- _distinct_permutations fuel (l_4 :: l_4 :: zeros (ndim - 2)%nat) ;;
  p_6 <- _distinct_permutations fuel (l_4 :: - l_4 :: zeros (ndim - 2)%nat) ;;
  p_7 <- _distinct_permutations fuel (- l_4 :: - l_4 :: zeros (ndim - 2)%nat) ;;
  Ok ([zeros ndim] ++ p_1 ++ p_2 ++ p_3 ++ p_4 ++ p_5 ++ p_6 ++ p_7).

(** The node array made of the points [its]. *)
Definition GenzMalik_nodes_of (its : list vec) (ndim nodes_size : nat) : result matrix :=
  flat <- fromiter (List.concat (zip_star its)) (ndim * nodes_size) ;;
  Ok (reshape ndim nodes_size flat).

(** [GenzMalik.rule] and [GenzMalik.lower_rule]. *)
Definition GenzMalik_rule (fuel ndim : nat) : result (matrix * vec) :=
  its <- GenzMalik_common_points fuel ndim ;;
  let its := its ++ itertools.product (List.repeat [l_5; - l_5] ndim) in
  nodes <- GenzMalik_nodes_of its ndim (GenzMalik_nodes_size ndim) ;;
  Ok (nodes, GenzMalik_rule_weights ndim).

Definition GenzMalik_lower_rule (fuel ndim : nat) : result (matrix * vec) :=
  its <- GenzMalik_common_points fuel ndim ;;
  nodes <- GenzMalik_nodes_of its ndim (GenzMalik_lower_nodes_size ndim) ;;
  Ok (nodes, GenzMalik_lower_rule_weights ndim).


End GenzMalikNodes.

(** Coordinate [i] of every point. *)
Definition coordinate (i : nat) (its : list vec) : vec := map (fun u => nth i u 0) its.

(* ================================================================== *)
(** * Properties *)

(** ** Rational arithmetic *)

(** Goals about [Qc] are moved to [Q], where [field] and [lra] know the
    numerals. *)
Ltac qc2q :=
  unfold Qcle, Qclt, qn, qz, Qcdiv, Qcminus, Qcinv, Qcopp, Qcplus, Qcmult, Q2Qc in *;
  cbn [this] in *; rewrite ?Qred_correct in *.

Ltac qc_eq := apply Qc_is_canon; qc2q.

(** Linear arithmetic on lengths and locations, through the type aliases. *)
Ltac len := unfold store, matrix, vec, loc in *; lia.

Lemma qz_add x y : qz (x + y) = qz x + qz y.
Proof. qc_eq. now rewrite inject_Z_plus. Qed.

Lemma qz_mul x y : qz (x * y) = qz x * qz y.
Proof. qc_eq. now rewrite inject_Z_mult. Qed.

Lemma qz_sub x y : qz (x - y) = qz x - qz y.
Proof. qc_eq. unfold Z.sub. now rewrite inject_Z_plus, inject_Z_opp. Qed.

Lemma qz_0 : qz 0 = 0.
Proof. now qc_eq. Qed.

Lemma qz_1 : qz 1 = 1.
Proof. now qc_eq. Qed.

Lemma qn_S n : qn (S n) = qn n + 1.
Proof. unfold qn. now rewrite Nat2Z.inj_succ, <- Z.add_1_r, qz_add, qz_1. Qed.

Ltac push_qz := repeat (rewrite qz_mul || rewrite qz_add || rewrite qz_sub).

Lemma qz_two_half : qz 2 / qz 2 = 1.
Proof. now qc_eq. Qed.

(** ** Lists and sums *)

Lemma map2_length {A B C} (f : A -> B -> C) l1 l2 :
  length (map2 f l1 l2) = Nat.min (length l1) (length l2).
Proof.
  revert l2; induction l1 as [|x l1 IH]; intros [|y l2]; simpl; auto.
Qed.

Lemma sum_app u v : np.sum (u ++ v) = np.sum u + np.sum v.
Proof.
  unfold np.sum. induction u as [|x u IH]; simpl.
  - ring.
  - rewrite IH. ring.
Qed.

Lemma sum_repeat x k : np.sum (List.repeat x k) = qn k * x.
Proof.
  induction k as [|k IH].
  - unfold qn. simpl. rewrite qz_0. ring.
  - rewrite qn_S. unfold np.sum in *. cbn [List.repeat fold_right].
    rewrite IH. ring.
Qed.

Lemma sum_scale c v : np.sum (map (fun w => w * c) v) = np.sum v * c.
Proof.
  unfold np.sum. induction v as [|x v IH]; simpl.
  - ring.
  - rewrite IH. ring.
Qed.

(** ** C7: the Genz-Malik weights *)

Lemma weights_times_ones (w : vec) {A} (r : list A) :
  length r = length w ->
  map2 Qcmult w (map (fun _ => 1) r) = w.
Proof.
  revert r; induction w as [|x w IH]; intros [|y r] H; simpl in *;
    try discriminate; auto.
  rewrite IH by lia. f_equal. ring.
Qed.

Lemma unit_cube_scale d :
  np.prod (map (fun l => l / qz 2)
               (map2 Qcminus (List.repeat 1 d) (List.repeat (- (1)) d))) = 1.
Proof.
  induction d as [|d IH]; simpl; auto.
  unfold np.prod in *. simpl. rewrite IH.
  now qc_eq.
Qed.

(** A fixed rule applied to the constant function 1 on the reference cube
    returns the sum of its weights. *)
Lemma apply_rule_ones d (nodes : matrix) (weights : vec) :
  (1 <= d)%nat -> length nodes = d ->
  Forall (fun r => length r = length weights) nodes ->
  _apply_rule ones (List.repeat (- (1)) d) (List.repeat 1 d) (nodes, weights)
  = Ok [np.sum weights].
Proof.
  intros Hd Hlen Hrows. unfold _apply_rule.
  rewrite !repeat_length, Hlen, Nat.eqb_refl. cbn [negb orb].
  rewrite unit_cube_scale.
  destruct nodes as [|r nodes]; [simpl in Hlen; lia|].
  destruct d as [|d]; [lia|].
  inversion Hrows as [|? ? Hr _]; subst.
  cbn [List.repeat map2 combine ones hd mapM].
  unfold np.multiply. rewrite !length_map, Hr, Nat.eqb_refl.
  cbn [bind map]. rewrite weights_times_ones by (now rewrite !length_map).
  do 2 f_equal. rewrite sum_scale. ring.
Qed.

Lemma GenzMalik_rule_weights_sum ndim :
  np.sum (GenzMalik_rule_weights ndim) = qz (2 ^ Z.of_nat ndim).
Proof.
  unfold GenzMalik_rule_weights, np.repeat. cbn [map2 List.concat].
  rewrite !sum_app, !sum_repeat. unfold np.sum; cbn [fold_right]. unfold qn.
  assert (E : Z.of_nat (2 * (ndim - 1) * ndim)
              = (2 * (Z.of_nat ndim - 1) * Z.of_nat ndim)%Z).
  { destruct ndim; [reflexivity | nia]. }
  rewrite E.
  replace (Z.of_nat (2 * ndim)) with (2 * Z.of_nat ndim)%Z by lia.
  rewrite Nat2Z.inj_pow. change (Z.of_nat 2) with 2%Z. change (Z.of_nat 1) with 1%Z.
  rewrite Z.pow_2_r. push_qz.
  generalize (qz (2 ^ Z.of_nat ndim)) (qz (Z.of_nat ndim)); intros p q.
  qc_eq. field.
Qed.

Lemma GenzMalik_lower_rule_weights_sum ndim :
  np.sum (GenzMalik_lower_rule_weights ndim) = qz (2 ^ Z.of_nat ndim).
Proof.
  unfold GenzMalik_lower_rule_weights, np.repeat. cbn [map2 List.concat].
  rewrite !sum_app, !sum_repeat. unfold np.sum; cbn [fold_right]. unfold qn.
  assert (E : Z.of_nat (2 * (ndim - 1) * ndim)
              = (2 * (Z.of_nat ndim - 1) * Z.of_nat ndim)%Z).
  { destruct ndim; [reflexivity | nia]. }
  rewrite E.
  replace (Z.of_nat (2 * ndim)) with (2 * Z.of_nat ndim)%Z by lia.
  change (Z.of_nat 1) with 1%Z.
  rewrite Z.pow_2_r. push_qz.
  generalize (qz (2 ^ Z.of_nat ndim)) (qz (Z.of_nat ndim)); intros p q.
  qc_eq. field.
Qed.

Lemma GenzMalik_rule_weights_length ndim :
  (1 <= ndim)%nat ->
  length (GenzMalik_rule_weights ndim) = GenzMalik_nodes_size ndim.
Proof.
  intros H. unfold GenzMalik_rule_weights, GenzMalik_nodes_size, np.repeat.
  cbn [map2 List.concat]. rewrite !length_app, !repeat_length. simpl length.
  destruct ndim as [|k]; [lia|]. simpl Nat.sub. nia.
Qed.

Lemma GenzMalik_lower_rule_weights_length ndim :
  (1 <= ndim)%nat ->
  length (GenzMalik_lower_rule_weights ndim) = GenzMalik_lower_nodes_size ndim.
Proof.
  intros H. unfold GenzMalik_lower_rule_weights, GenzMalik_lower_nodes_size, np.repeat.
  cbn [map2 List.concat]. rewrite !length_app, !repeat_length. simpl length.
  destruct ndim as [|k]; [lia|]. simpl Nat.sub. nia.
Qed.

(** C7. For every [ndim >= 2] the weights of the degree-7 rule of
    [GenzMalik(ndim)] and the weights of its degree-5 lower rule both sum to
    exactly [2^ndim]; there are as many weights as nodes, and therefore each
    rule, whatever its node array of that shape, integrates the constant
    function 1 over [[-1,1]^ndim] to [2^ndim]. *)
Theorem GenzMalik_weights_sum_to_volume (ndim : nat) :
  (2 <= ndim)%nat ->
  np.sum (GenzMalik_rule_weights ndim) = qz (2 ^ Z.of_nat ndim) /\
  np.sum (GenzMalik_lower_rule_weights ndim) = qz (2 ^ Z.of_nat ndim) /\
  length (GenzMalik_rule_weights ndim) = GenzMalik_nodes_size ndim /\
  length (GenzMalik_lower_rule_weights ndim) = GenzMalik_lower_nodes_size ndim /\
  (forall nodes : matrix,
      length nodes = ndim ->
      Forall (fun r => length r = GenzMalik_nodes_size ndim) nodes ->
      estimate (FixedCubature (Ok (nodes, GenzMalik_rule_weights ndim))) ones
               (List.repeat (- (1)) ndim) (List.repeat 1 ndim)
      = Ok [qz (2 ^ Z.of_nat ndim)]) /\
  (forall nodes : matrix,
      length nodes = ndim ->
      Forall (fun r => length r = GenzMalik_lower_nodes_size ndim) nodes ->
      estimate (FixedCubature (Ok (nodes, GenzMalik_lower_rule_weights ndim))) ones
               (List.repeat (- (1)) ndim) (List.repeat 1 ndim)
      = Ok [qz (2 ^ Z.of_nat ndim)]).
Proof.
  intros Hn.
  pose proof (GenzMalik_rule_weights_length ndim ltac:(lia)) as L7.
  pose proof (GenzMalik_lower_rule_weights_length ndim ltac:(lia)) as L5.
  repeat split; auto using GenzMalik_rule_weights_sum, GenzMalik_lower_rule_weights_sum.
  - intros nodes Hlen Hrows. cbn [estimate FixedCubature bind].
    rewrite apply_rule_ones; try lia.
    + now rewrite GenzMalik_rule_weights_sum.
    + now rewrite L7.
  - intros nodes Hlen Hrows. cbn [estimate FixedCubature bind].
    rewrite apply_rule_ones; try lia.
    + now rewrite GenzMalik_lower_rule_weights_sum.
    + now rewrite L5.
Qed.

Lemma GenzMalik_weights_sum_to_volume_witness :
  np.sum (GenzMalik_rule_weights 2) = qz 4 /\
  np.sum (GenzMalik_lower_rule_weights 2) = qz 4.
Proof.
  destruct (GenzMalik_weights_sum_to_volume 2) as (H7 & H5 & _).
  - lia.
  - split; [exact H7 | exact H5].
Defined.

(** Closed equalities between values that contain rationals: both sides are
    computed, then compared entry by entry. *)
Ltac qc_compute :=
  vm_compute;
  repeat first [ progress (apply Qc_is_canon; reflexivity) | reflexivity | f_equal ].

(** ** C6: the nodes of the open Newton-Cotes rule *)

Lemma nth_map_seq {A} (g : nat -> A) n k d :
  (k < n)%nat -> nth k (map g (seq 0 n)) d = g k.
Proof.
  intros H.
  rewrite (nth_indep _ d (g 0%nat)) by (now rewrite length_map, length_seq).
  rewrite (map_nth g (seq 0 n) 0%nat k). now rewrite seq_nth.
Qed.

Lemma linspace_length start stop num : length (np.linspace start stop num) = num.
Proof. unfold np.linspace. now rewrite length_map, length_seq. Qed.

Lemma linspace_nth start stop num k :
  (k < num)%nat ->
  nth k (np.linspace start stop num) 0
  = qn k * ((stop - start) / qn (num - 1)) + start.
Proof. intros H. unfold np.linspace. now rewrite nth_map_seq. Qed.

Lemma qn_pred n : (1 <= n)%nat -> qn (n - 1) = qn n - 1.
Proof.
  intros H. unfold qn.
  replace (Z.of_nat (n - 1)) with (Z.of_nat n - 1)%Z by lia.
  now rewrite qz_sub, qz_1.
Qed.

Lemma qn_le m n : (m <= n)%nat -> qn m <= qn n.
Proof. intros H. qc2q. rewrite <- Zle_Qle. lia. Qed.

Lemma qn_0 : qn 0 = 0.
Proof. now qc_eq. Qed.

Lemma open_node_bounds_Q (N K : Q) :
  (3 <= N -> 0 <= K -> K <= N - 1 ->
   -1 < K * ((1 + - (2 * / N) + - (-1 + 2 * / N)) * / (N + - 1)) + (-1 + 2 * / N) < 1)%Q.
Proof.
  intros HN HK HKN.
  set (h := (2 * / N)%Q).
  set (step := ((1 + - h + - (-1 + h)) * / (N + - 1))%Q).
  assert (Hh : (0 < h)%Q).
  { unfold h. apply Qmult_lt_0_compat; [lra|]. apply Qinv_lt_0_compat. lra. }
  assert (Hh' : (h * N == 2)%Q) by (unfold h; field; lra).
  assert (Hh2 : (h <= 2 # 3)%Q) by nra.
  assert (Hs : (step * (N - 1) == 2 - 2 * h)%Q) by (unfold step; field; lra).
  assert (Hs0 : (0 <= step)%Q).
  { unfold step. apply Qmult_le_0_compat; [lra|].
    apply Qlt_le_weak, Qinv_lt_0_compat. lra. }
  assert (H1 : (0 <= K * step)%Q) by (apply Qmult_le_0_compat; auto).
  assert (H2 : (K * step <= (N - 1) * step)%Q) by (apply Qmult_le_compat_r; auto).
  split; lra.
Qed.

Lemma open_node_bounds (N K : Qc) :
  qz 3 <= N -> 0 <= K -> K <= N - 1 ->
  - (1) < K * ((1 - qz 2 / N - (- (1) + qz 2 / N)) / (N - 1)) + (- (1) + qz 2 / N) /\
  K * ((1 - qz 2 / N - (- (1) + qz 2 / N)) / (N - 1)) + (- (1) + qz 2 / N) < 1.
Proof. intros HN HK HKN. qc2q. now apply open_node_bounds_Q. Qed.

Lemma above_one_nonzero (N : Qc) : qz 3 <= N -> N - 1 <> 0.
Proof.
  intros HN E.
  assert (Q : (this (N - 1) == this 0)%Q) by (now rewrite E).
  assert (HN' : (3 <= N)%Q) by exact HN.
  qc2q. lra.
Qed.

Lemma open_spacing_positive (N : Qc) :
  qz 3 <= N ->
  (1 - qz 2 / N - (- (1) + qz 2 / N)) / (N - 1)
  = qz 2 * (N - qz 2) / (N * (N - 1)) /\
  0 < (1 - qz 2 / N - (- (1) + qz 2 / N)) / (N - 1).
Proof.
  intros HN.
  assert (HN' : (3 <= N)%Q) by exact HN.
  split.
  - qc_eq. field. split; lra.
  - qc2q. set (h := (inject_Z 2 * / N)%Q).
    assert (Hh : (0 < h)%Q).
    { unfold h. apply Qmult_lt_0_compat; [reflexivity|]. apply Qinv_lt_0_compat. lra. }
    assert (Hh' : (h * N == 2)%Q) by (unfold h; field; lra).
    assert (Hh2 : (h <= 2 # 3)%Q) by nra.
    apply Qmult_lt_0_compat; [lra|]. apply Qinv_lt_0_compat. lra.
Qed.

(** C6 (amended). For every [npoints >= 3], the node array of
    [NewtonCotes(npoints, open=True)] is one row of [npoints] equally
    spaced points strictly inside [[-1, 1]]: it runs from [-1 + h] to
    [1 - h] with [h = 2/npoints], and consecutive nodes are
    [(2 - 2h)/(npoints - 1) = 2(npoints - 2)/(npoints (npoints - 1))]
    apart, which is positive and is not [h]. *)
Theorem NewtonCotes_open_nodes (npoints : nat) :
  (3 <= npoints)%nat ->
  let h := qz 2 / qn npoints in
  let spacing := (1 - h - (- (1) + h)) / qn (npoints - 1) in
  exists row : vec,
    NewtonCotes_nodes npoints true = [row] /\
    (forall solve nodes w,
        NewtonCotes_rule solve npoints true = Ok (nodes, w) -> nodes = [row]) /\
    length row = npoints /\
    (forall k, (k < npoints)%nat -> nth k row 0 = qn k * spacing + (- (1) + h)) /\
    nth 0 row 0 = - (1) + h /\
    nth (npoints - 1) row 0 = 1 - h /\
    (forall k, (k < npoints)%nat -> - (1) < nth k row 0 /\ nth k row 0 < 1) /\
    (forall k, (S k < npoints)%nat -> nth (S k) row 0 - nth k row 0 = spacing) /\
    spacing = qz 2 * qn (npoints - 2) / (qn npoints * qn (npoints - 1)) /\
    0 < spacing.
Proof.
  intros Hn h spacing.
  assert (HN : qz 3 <= qn npoints) by (apply (qn_le 3); lia).
  assert (Hnth : forall k, (k < npoints)%nat ->
            nth k (np.linspace (- (1) + h) (1 - h) npoints) 0
            = qn k * spacing + (- (1) + h)).
  { intros k Hk. now rewrite linspace_nth. }
  exists (np.linspace (- (1) + h) (1 - h) npoints).
  split; [reflexivity|]. split.
  { intros solve nodes w. unfold NewtonCotes_rule.
    destruct (_newton_cotes_weights solve _); cbn [bind];
      intros H; inversion H; reflexivity. }
  split; [apply linspace_length|]. split; [exact Hnth|].
  assert (Hsp : spacing * (qn npoints - 1) = 1 - h - (- (1) + h)).
  { unfold spacing. rewrite qn_pred by lia. field.
    now apply above_one_nonzero. }
  split; [|split; [|split; [|split]]].
  - rewrite Hnth by lia. rewrite qn_0. ring.
  - rewrite Hnth by lia. rewrite qn_pred by lia.
    rewrite (Qcmult_comm _ spacing), Hsp. ring.
  - intros k Hk. rewrite Hnth by lia. unfold spacing, h.
    rewrite qn_pred by lia. apply open_node_bounds; auto.
    + change 0 with (qn 0). apply qn_le. lia.
    + rewrite <- qn_pred by lia. apply qn_le. lia.
  - intros k Hk. rewrite !Hnth by lia. rewrite qn_S. ring.
  - unfold spacing, h. rewrite !qn_pred by lia.
    destruct (open_spacing_positive (qn npoints) HN) as [E P].
    split; [|exact P]. rewrite E. f_equal. f_equal.
    replace (npoints - 2)%nat with (npoints - 1 - 1)%nat by lia.
    rewrite !qn_pred by lia. qc_eq. ring.
Qed.

Lemma NewtonCotes_open_nodes_witness :
  (3 <= 3)%nat /\
  exists row : vec,
    NewtonCotes_nodes 3 true = [row] /\
    nth 1 row 0 - nth 0 row 0 = qz 1 / qz 3.
Proof.
  split; [lia|].
  destruct (NewtonCotes_open_nodes 3) as (row & E & _ & _ & _ & _ & _ & _ & Hs & Hv & _).
  - lia.
  - exists row. split; [exact E|]. rewrite (Hs 0%nat) by lia. now qc_eq.
Defined.

(** C6 as stated fails at [npoints = 3]: the nodes are [-1/3, 0, 1/3], so
    consecutive nodes are [1/3] apart while [h = 2/3]; and the node [0] is
    not a point of the partition of [[-1, 1]] into three subintervals. *)
Lemma NewtonCotes_open_spacing_counterexample :
  NewtonCotes_nodes 3 true = [[- (qz 1 / qz 3); 0; qz 1 / qz 3]] /\
  ~ (forall npoints, (2 <= npoints)%nat ->
     forall row, NewtonCotes_nodes npoints true = [row] ->
     forall k, (S k < npoints)%nat ->
       nth (S k) row 0 - nth k row 0 = qz 2 / qn npoints).
Proof.
  assert (E : NewtonCotes_nodes 3 true = [[- (qz 1 / qz 3); 0; qz 1 / qz 3]])
    by qc_compute.
  split; [exact E|].
  intros H. specialize (H 3%nat ltac:(lia) _ E 0%nat ltac:(lia)).
  cbn [nth] in H. apply (f_equal this) in H. vm_compute in H. discriminate H.
Qed.

(** At [npoints = 2] the two open nodes coincide, and the solver of the
    examples reports the singular system. *)
Lemma NewtonCotes_open_two_points :
  NewtonCotes_nodes 2 true = [[0; 0]] /\
  NewtonCotes_rule gauss.solve 2 true = Raise LinAlgError.
Proof. split; [qc_compute | reflexivity]. Qed.

(** ** C5: the Newton-Cotes weights *)

Lemma dot_scale c row x :
  np.dot row (map (fun t => c * t) x) = c * np.dot row x.
Proof.
  unfold np.dot, np.sum. revert x.
  induction row as [|r row IH]; intros [|t x]; simpl; try ring.
  rewrite IH. ring.
Qed.

Lemma transpose_vander_row (points : vec) i :
  (i < length points)%nat ->
  nth i (np.transpose (np.vander_increasing points)) []
  = map (fun x => x ^ i) points.
Proof.
  intros Hi. unfold np.transpose.
  assert (Hc : np.ncols (np.vander_increasing points) = length points).
  { destruct points; [simpl in Hi; lia|]. simpl. now rewrite length_map, length_seq. }
  rewrite Hc, nth_map_seq by exact Hi.
  unfold np.vander_increasing. rewrite map_map.
  apply map_ext. intros x. now apply nth_map_seq.
Qed.

Lemma transpose_vander_length (points : vec) :
  length (np.transpose (np.vander_increasing points)) = length points.
Proof.
  unfold np.transpose. rewrite length_map, length_seq.
  destruct points; simpl; [reflexivity|]. now rewrite length_map, length_seq.
Qed.

Lemma qn_succ_nonzero i : qn i + 1 <> 0.
Proof.
  intros E.
  assert (Q : (this (qn i + 1) == this 0)%Q) by (now rewrite E).
  assert (P : 0 <= qn i) by (change 0 with (qn 0); apply qn_le; lia).
  qc2q. lra.
Qed.

Lemma twice_half_moment i : qz 2 * half_moment i = monomial_integral i.
Proof.
  unfold half_moment, monomial_integral.
  generalize ((- (1)) ^ (i + 1)). intros p.
  pose proof (qn_succ_nonzero i) as Hi. revert Hi.
  generalize (qn i + 1). intros q Hq.
  assert (H2 : qz 2 <> 0) by (intros E; discriminate E).
  field. auto.
Qed.

Section NewtonCotesWeights.

Variable solve : matrix -> vec -> result vec.
(** The contract of [np.linalg.solve]. *)
Hypothesis solve_sound : forall a b x, solve a b = Ok x -> np.matvec a x = b.

Lemma solved_weights_moments (points w : vec) :
  _newton_cotes_weights solve points = Ok w ->
  forall i, (i < length points)%nat ->
    np.dot (map (fun x => x ^ i) points) w = monomial_integral i.
Proof.
  unfold _newton_cotes_weights. intros H i Hi.
  destruct (solve _ _) as [x| |] eqn:Hs; cbn [bind] in H; try discriminate.
  injection H as <-.
  apply solve_sound in Hs.
  apply (f_equal (fun v => nth i v 0)) in Hs.
  unfold np.matvec in Hs.
  rewrite (nth_indep _ 0 (np.dot [] x)) in Hs
    by (now rewrite length_map, transpose_vander_length).
  rewrite (map_nth (fun row => np.dot row x)) in Hs.
  rewrite transpose_vander_row in Hs by exact Hi.
  rewrite nth_map_seq in Hs by lia.
  rewrite dot_scale, Hs. apply twice_half_moment.
Qed.

End NewtonCotesWeights.

(** C5 (amended). For every [npoints >= 2] and for both open and closed
    node sets, the weights [w] returned with the nodes [x_0..x_{n-1}] satisfy
    [sum_j x_j^i * w_j = (1 - (-1)^(i+1)) / (i+1)] for [i < npoints]: the
    system [V w = 2 m] with [V[i,j] = x_j^i], whose right-hand side is the
    exact integral of [x^i] over [[-1,1]], twice the [m] of the specification. *)
Theorem NewtonCotes_weights_moments
        (solve : matrix -> vec -> result vec)
        (solve_sound : forall a b x, solve a b = Ok x -> np.matvec a x = b)
        (npoints : nat) (open : bool) (nodes : matrix) (w : vec) :
  (2 <= npoints)%nat ->
  NewtonCotes_rule solve npoints open = Ok (nodes, w) ->
  exists row : vec,
    nodes = [row] /\ length row = npoints /\
    np.matvec (np.transpose (np.vander_increasing row)) w
    = map monomial_integral (seq 0 npoints) /\
    forall i, (i < npoints)%nat ->
      np.sum (map2 Qcmult (map (fun x => x ^ i) row) w)
      = (1 - (- (1)) ^ (i + 1)) / (qn i + 1).
Proof.
  intros Hn H. unfold NewtonCotes_rule in H.
  destruct (_newton_cotes_weights solve _) as [w'| |] eqn:Hw; cbn [bind] in H;
    try discriminate.
  injection H as <- <-.
  set (row := if open then np.linspace (- (1) + qz 2 / qn npoints) (1 - qz 2 / qn npoints) npoints
              else np.linspace (- (1)) 1 npoints).
  assert (Hnodes : NewtonCotes_nodes npoints open = [row])
    by (unfold NewtonCotes_nodes, row; now destruct open).
  assert (Hlen : length row = npoints)
    by (unfold row; destruct open; apply linspace_length).
  rewrite Hnodes in *. cbn [List.concat] in Hw. rewrite app_nil_r in Hw.
  pose proof (solved_weights_moments solve solve_sound row w' Hw) as Hm.
  rewrite Hlen in Hm.
  exists row. repeat split; auto.
  apply nth_ext with (d := 0) (d' := 0).
  - unfold np.matvec.
    now rewrite !length_map, transpose_vander_length, length_seq.
  - intros i Hi. unfold np.matvec in *.
    rewrite length_map, transpose_vander_length, Hlen in Hi.
    rewrite (nth_indep _ 0 (np.dot [] w'))
      by (now rewrite length_map, transpose_vander_length, Hlen).
    rewrite (map_nth (fun r => np.dot r w')).
    rewrite transpose_vander_row by lia.
    rewrite nth_map_seq by lia. now apply Hm.
Qed.

(** The solver of the examples honours the contract. *)
Lemma combine_eqb_eq (u v : vec) :
  length u = length v ->
  forallb (fun p => Qc_eq_bool (fst p) (snd p)) (combine u v) = true ->
  u = v.
Proof.
  revert v. induction u as [|x u IH]; intros [|y v] Hl H; simpl in *;
    try discriminate; auto.
  apply andb_true_iff in H as [Hxy H].
  apply Qc_eq_bool_correct in Hxy. subst y. f_equal. apply IH; auto.
Qed.

Lemma gauss_solve_sound a b x : gauss.solve a b = Ok x -> np.matvec a x = b.
Proof.
  unfold gauss.solve.
  destruct (gauss.eliminate _ _ _ _) as [rows|]; [|discriminate].
  destruct (_ && _) eqn:C; [|discriminate].
  intros H; injection H as <-.
  apply andb_true_iff in C as [C Hb]. apply andb_true_iff in C as [_ C].
  apply Nat.eqb_eq in Hb.
  apply combine_eqb_eq; auto.
  unfold np.matvec. now rewrite length_map.
Qed.

Lemma NewtonCotes_weights_moments_witness :
  (2 <= 3)%nat /\
  NewtonCotes_rule gauss.solve 3 false
  = Ok ([[- (1); 0; 1]], [qz 1 / qz 3; qz 4 / qz 3; qz 1 / qz 3]) /\
  np.matvec (np.transpose (np.vander_increasing [- (1); 0; 1]))
            [qz 1 / qz 3; qz 4 / qz 3; qz 1 / qz 3]
  = map monomial_integral (seq 0 3).
Proof.
  assert (E : NewtonCotes_rule gauss.solve 3 false
              = Ok ([[- (1); 0; 1]], [qz 1 / qz 3; qz 4 / qz 3; qz 1 / qz 3]))
    by qc_compute.
  split; [lia|]. split; [exact E|].
  destruct (NewtonCotes_weights_moments gauss.solve gauss_solve_sound 3 false _ _
              ltac:(lia) E) as (row & Hrow & _ & Hm & _).
  injection Hrow as <-. exact Hm.
Defined.

(** C5 as stated fails at [npoints = 2] (closed): the nodes are [-1, 1],
    the weights [1, 1], and [V w = [2, 0]], [V^T w = [0, 2]], while
    [m = [1, 0]]. *)
Lemma NewtonCotes_weights_counterexample :
  let V := np.transpose (np.vander_increasing [- (1); 1]) in
  let m := map half_moment (seq 0 2) in
  NewtonCotes_rule gauss.solve 2 false = Ok ([[- (1); 1]], [1; 1]) /\
  np.matvec V [1; 1] = [qz 2; 0] /\
  np.matvec (np.transpose V) [1; 1] = [0; qz 2] /\
  m = [1; 0] /\
  np.matvec V [1; 1] <> m /\
  np.matvec (np.transpose V) [1; 1] <> m.
Proof.
  intros V m.
  assert (E1 : np.matvec V [1; 1] = [qz 2; 0]) by qc_compute.
  assert (E2 : np.matvec (np.transpose V) [1; 1] = [0; qz 2]) by qc_compute.
  assert (E3 : m = [1; 0]) by qc_compute.
  repeat split; auto.
  - qc_compute.
  - rewrite E1, E3. intros H.
    apply (f_equal (map this)) in H. vm_compute in H. discriminate H.
  - rewrite E2, E3. intros H.
    apply (f_equal (map this)) in H. vm_compute in H. discriminate H.
Qed.

(** ** C8: bisection of a region *)


Lemma flat_map_flat_map {A B C} (f : A -> list B) (g : B -> list C) l :
  flat_map g (flat_map f l) = flat_map (fun x => flat_map g (f x)) l.
Proof.
  induction l as [|x l IH]; simpl; auto.
  now rewrite flat_map_app, IH.
Qed.

Lemma flat_map_map {A B C} (f : A -> B) (g : B -> list C) l :
  flat_map g (map f l) = flat_map (fun x => g (f x)) l.
Proof. induction l as [|x l IH]; simpl; auto. now rewrite IH. Qed.

Lemma map_flat_map {A B C} (f : A -> list B) (g : B -> C) l :
  map g (flat_map f l) = flat_map (fun x => map g (f x)) l.
Proof. induction l as [|x l IH]; simpl; auto. now rewrite map_app, IH. Qed.

Lemma product_fold {A} (pools : list (list A)) acc :
  fold_left
    (fun result pool => flat_map (fun x => map (fun y => x ++ [y]) pool) result)
    pools acc
  = flat_map (fun x => map (app x) (product_rec pools)) acc.
Proof.
  revert acc. induction pools as [|pool pools IH]; intros acc.
  - simpl. induction acc as [|x acc IHa]; simpl; auto.
    now rewrite app_nil_r, <- IHa.
  - cbn [fold_left product_rec]. rewrite IH, flat_map_flat_map.
    apply flat_map_ext. intros x.
    rewrite flat_map_map, map_flat_map.
    apply flat_map_ext. intros y. rewrite map_map.
    apply map_ext. intros t. now rewrite <- app_assoc.
Qed.

Lemma product_is_rec {A} (pools : list (list A)) :
  itertools.product pools = product_rec pools.
Proof.
  unfold itertools.product. rewrite product_fold. simpl.
  rewrite app_nil_r. now rewrite map_id.
Qed.


Lemma combine_app {A B} (l1 l2 : list A) (r1 r2 : list B) :
  length l1 = length r1 ->
  combine (l1 ++ l2) (r1 ++ r2) = combine l1 r1 ++ combine l2 r2.
Proof.
  revert r1. induction l1 as [|x l1 IH]; intros [|y r1] H; simpl in *;
    try discriminate; auto.
  f_equal. apply IH. lia.
Qed.

Lemma combine_map {A B A' B'} (f : A -> A') (g : B -> B') l r :
  combine (map f l) (map g r) = map (fun p => (f (fst p), g (snd p))) (combine l r).
Proof.
  revert r. induction l as [|x l IH]; intros [|y r]; simpl; auto.
  now rewrite IH.
Qed.

Lemma product_rec_pairs_length {A} (pools : list (list A)) :
  Forall (fun p => length p = 2%nat) pools ->
  length (product_rec pools) = (2 ^ length pools)%nat.
Proof.
  induction 1 as [|p pools Hp _ IH]; simpl; auto.
  destruct p as [|x [|y [|z p]]]; simpl in Hp; try discriminate.
  simpl. rewrite !length_app, !length_map, IH. simpl. lia.
Qed.

Lemma map2_pairs_Forall (a m : vec) :
  Forall (fun p => length p = 2%nat) (map2 (fun x y => [x; y]) a m).
Proof.
  revert m. induction a as [|x a IH]; intros [|y m]; simpl; constructor; auto.
Qed.

Lemma subregions_rec (a m b : vec) :
  length a = length m -> length m = length b ->
  combine (product_rec (map2 (fun x y => [x; y]) a m))
          (product_rec (map2 (fun x y => [x; y]) m b))
  = map (fun s => (lower_corner a m s, upper_corner m b s))
        (product_rec (List.repeat [false; true] (length a))).
Proof.
  revert m b. induction a as [|a0 a IH]; intros [|m0 m] [|b0 b] H1 H2;
    simpl in H1, H2; try discriminate; [reflexivity|].
  cbn [map2 product_rec flat_map length List.repeat].
  rewrite !app_nil_r.
  rewrite combine_app.
  2:{ rewrite !length_map, !product_rec_pairs_length by apply map2_pairs_Forall.
      rewrite !map2_length. f_equal. lia. }
  rewrite !combine_map, IH by lia.
  rewrite map_app, !map_map. reflexivity.
Qed.

Lemma patterns_rec_In d s :
  In s (product_rec (List.repeat [false; true] d)) <-> length s = d.
Proof.
  revert s. induction d as [|d IH]; intros s.
  - simpl. split.
    + intros [<-|[]]. reflexivity.
    + destruct s; [auto | discriminate].
  - cbn [List.repeat product_rec flat_map]. rewrite app_nil_r, in_app_iff, !in_map_iff.
    split.
    + intros [(t & <- & Ht)|(t & <- & Ht)]; simpl; f_equal; now apply IH.
    + destruct s as [|[] s]; simpl; intros H; try discriminate;
        injection H as H; apply IH in H; [right|left]; eauto.
Qed.

Lemma patterns_rec_NoDup d : NoDup (product_rec (List.repeat [false; true] d)).
Proof.
  induction d as [|d IH].
  - simpl. constructor; [intros []|constructor].
  - cbn [List.repeat product_rec flat_map]. rewrite app_nil_r.
    apply NoDup_app.
    + apply Finite.Injective_map_NoDup; auto. intros x y E. now injection E.
    + apply Finite.Injective_map_NoDup; auto. intros x y E. now injection E.
    + intros s H1 H2. apply in_map_iff in H1 as (t & <- & _).
      apply in_map_iff in H2 as (u & E & _). discriminate E.
Qed.

Lemma patterns_rec_length d :
  length (product_rec (List.repeat [false; true] d)) = (2 ^ d)%nat.
Proof.
  rewrite product_rec_pairs_length.
  - now rewrite repeat_length.
  - apply Forall_forall. intros p Hp. apply repeat_spec in Hp. now subst.
Qed.

Lemma nth_map2 {A B C} (f : A -> B -> C) l1 l2 i d d1 d2 :
  (i < length l1)%nat -> (i < length l2)%nat ->
  nth i (map2 f l1 l2) d = f (nth i l1 d1) (nth i l2 d2).
Proof.
  revert l2 i. induction l1 as [|x l1 IH]; intros [|y l2] [|i] H1 H2;
    simpl in *; try lia; auto.
  apply IH; lia.
Qed.

Lemma nth_combine {A B} (l1 : list A) (l2 : list B) i d1 d2 :
  length l1 = length l2 ->
  nth i (combine l1 l2) (d1, d2) = (nth i l1 d1, nth i l2 d2).
Proof.
  revert l2 i. induction l1 as [|x l1 IH]; intros [|y l2] [|i] H;
    simpl in *; try discriminate; auto.
Qed.

Lemma midpoint_between (x y : Qc) :
  x <= y -> x <= (x + y) / qz 2 /\ (x + y) / qz 2 <= y.
Proof. intros H. qc2q. change (/ inject_Z 2)%Q with (1 # 2)%Q. split; lra. Qed.

Lemma midpoint_length a b : length a = length b -> length (midpoint a b) = length a.
Proof. intros H. unfold midpoint. rewrite map2_length. lia. Qed.

Lemma midpoint_nth a b i :
  length a = length b -> (i < length a)%nat ->
  nth i (midpoint a b) 0 = (nth i a 0 + nth i b 0) / qz 2.
Proof.
  intros H Hi. unfold midpoint. now rewrite (nth_map2 _ _ _ _ _ 0 0) by lia.
Qed.

Lemma lower_corner_nth a m s i :
  length a = length m -> length s = length a -> (i < length a)%nat ->
  nth i (lower_corner a m s) 0 = if nth i s false then nth i m 0 else nth i a 0.
Proof.
  intros H1 H2 Hi. unfold lower_corner.
  rewrite (nth_map2 _ _ _ _ _ (0, 0) false) by (rewrite ?length_combine; lia).
  now rewrite nth_combine.
Qed.

Lemma upper_corner_nth m b s i :
  length m = length b -> length s = length m -> (i < length m)%nat ->
  nth i (upper_corner m b s) 0 = if nth i s false then nth i b 0 else nth i m 0.
Proof.
  intros H1 H2 Hi. unfold upper_corner.
  rewrite (nth_map2 _ _ _ _ _ (0, 0) false) by (rewrite ?length_combine; lia).
  now rewrite nth_combine.
Qed.

Lemma corner_length a m s :
  length a = length m -> length s = length a ->
  length (map2 pick (combine a m) s) = length a.
Proof. intros H1 H2. rewrite map2_length, length_combine. lia. Qed.

Lemma differ_somewhere (s t : list bool) :
  length s = length t -> s <> t ->
  exists i, (i < length s)%nat /\ nth i s false <> nth i t false.
Proof.
  revert t. induction s as [|x s IH]; intros [|y t] Hl Hne; simpl in *;
    try discriminate; [congruence|].
  destruct (bool_dec x y) as [->|Hxy].
  - destruct (IH t) as (i & Hi & Hd); [lia|congruence|].
    exists (S i). split; [lia|exact Hd].
  - exists 0%nat. split; [lia|exact Hxy].
Qed.

Lemma Qcltb_spec x y : if Qcltb x y then x < y else y <= x.
Proof.
  unfold Qcltb. destruct (x ?= y) eqn:E.
  - apply Qceq_alt in E. subst. apply Qcle_refl.
  - now apply Qclt_alt.
  - apply Qclt_le_weak. now apply Qcgt_alt.
Qed.

Lemma child_sides (a b : vec) (s : list bool) :
  length a = length b -> length s = length a ->
  map2 Qcminus (snd (child a b s)) (fst (child a b s))
  = map (fun l => l / qz 2) (map2 Qcminus b a).
Proof.
  unfold child, lower_corner, upper_corner, midpoint. cbn [fst snd].
  revert b s. induction a as [|x a IH]; intros [|y b] [|c s] H1 H2;
    simpl in *; try discriminate; auto.
  rewrite IH by lia. f_equal.
  destruct c; unfold pick; cbn [fst snd]; qc_eq; field.
Qed.

Lemma prod_halves (v : vec) :
  qn (2 ^ length v) * np.prod (map (fun l => l / qz 2) v) = np.prod v.
Proof.
  unfold np.prod. induction v as [|x v IH].
  - simpl. now qc_eq.
  - cbn [length map fold_right]. rewrite <- IH.
    replace (2 ^ S (length v))%nat with (2 * 2 ^ length v)%nat by (simpl; lia).
    unfold qn. rewrite Nat2Z.inj_mul, qz_mul. change (Z.of_nat 2) with 2%Z.
    generalize (qz (Z.of_nat (2 ^ length v))). intros p.
    generalize (fold_right Qcmult 1 (map (fun l => l / qz 2) v)). intros q.
    qc_eq. field.
Qed.

Lemma sum_constant {A} (g : A -> Qc) (c : Qc) (l : list A) :
  (forall x, In x l -> g x = c) ->
  np.sum (map g l) = qn (length l) * c.
Proof.
  intros H. induction l as [|x l IH].
  - simpl. rewrite qn_0. unfold np.sum. simpl. ring.
  - cbn [map length]. rewrite qn_S. unfold np.sum in *. cbn [fold_right].
    rewrite IH by (intros; apply H; now right).
    rewrite (H x) by now left. ring.
Qed.

(** Without wrapping, the midpoint is the exact one. *)
Lemma wrap_in_range dt z : in_range dt z -> wrap dt z = z.
Proof.
  destruct dt as [|bits|bits|]; cbn [in_range wrap]; intros H.
  - reflexivity.
  - destruct (Z.le_gt_cases bits 0) as [Hb|Hb].
    + assert (E : (2 ^ (bits - 1) = 0)%Z) by (apply Z.pow_neg_r; lia).
      rewrite E in H. lia.
    + assert (E : (2 ^ bits = 2 * 2 ^ (bits - 1))%Z).
      { replace bits with (Z.succ (bits - 1)) at 1 by lia.
        apply Z.pow_succ_r. lia. }
      rewrite E, Z.mod_small by lia. lia.
  - apply Z.mod_small. exact H.
  - destruct (Z.eqb_spec z 0); lia.
Qed.

Lemma Qfloor_qz_add x y : Qfloor (qz x + qz y) = (x + y)%Z.
Proof.
  assert (E : (this (qz x) + this (qz y) == inject_Z (x + y))%Q).
  { unfold qz. cbn [this Q2Qc]. rewrite !Qred_correct. now rewrite inject_Z_plus. }
  rewrite (Qfloor_comp _ _ E). apply Qfloor_Z.
Qed.

Lemma add_dtype_exact dt (a b : vec) i :
  sums_fit dt a b -> (i < length a)%nat ->
  add_dtype dt (nth i a 0) (nth i b 0) = nth i a 0 + nth i b 0.
Proof.
  intros [->|H] Hi; [reflexivity|].
  destruct (H i Hi) as (x & y & -> & -> & Hr).
  destruct dt; cbn [add_dtype]; [reflexivity| | |];
    now rewrite Qfloor_qz_add, wrap_in_range, qz_add.
Qed.

Lemma midpoint_dtype_exact dt (a b : vec) :
  length a = length b -> sums_fit dt a b -> midpoint_dtype dt a b = midpoint a b.
Proof.
  intros Hab Hs. unfold midpoint_dtype, midpoint.
  apply nth_ext with (d := 0) (d' := 0); [now rewrite !map2_length|].
  intros i Hi. rewrite map2_length in Hi.
  rewrite !(nth_map2 _ _ _ _ _ 0 0) by lia.
  rewrite add_dtype_exact by (auto; lia). reflexivity.
Qed.

Lemma subregion_coordinates_exact dt (a b : vec) :
  length a = length b -> sums_fit dt a b ->
  _subregion_coordinates dt a b = _subregion_coordinates floating a b.
Proof.
  intros Hab Hs. unfold _subregion_coordinates.
  change (map2 (fun x y => add_dtype dt x y / qz 2) a b) with (midpoint_dtype dt a b).
  change (map2 (fun x y => add_dtype floating x y / qz 2) a b)
    with (midpoint_dtype floating a b).
  rewrite (midpoint_dtype_exact dt a b Hab Hs).
  rewrite (midpoint_dtype_exact floating a b Hab (or_introl eq_refl)). reflexivity.
Qed.

(** Whatever the midpoint, the children are read off the choice patterns
    and their volumes add up to the volume of the parent. *)
Lemma subregion_coordinates_children_at dt (a b : vec) subs :
  _subregion_coordinates dt a b = Ok subs ->
  length a = length b /\
  subs = map (child_at a (midpoint_dtype dt a b) b)
             (product_rec (List.repeat [false; true] (length a))).
Proof.
  unfold _subregion_coordinates.
  destruct (Nat.eqb_spec (length a) (length b)) as [E|E]; [|discriminate].
  intros H; injection H as <-. split; [exact E|].
  rewrite !product_is_rec. fold (midpoint_dtype dt a b).
  apply subregions_rec; unfold midpoint_dtype; rewrite ?map2_length; lia.
Qed.

Lemma children_volume_at (a m b : vec) :
  length a = length m -> length m = length b ->
  np.sum (map (fun s => volume (fst (child_at a m b s)) (snd (child_at a m b s)))
              (product_rec (List.repeat [false; true] (length a))))
  = volume a b.
Proof.
  revert m b. induction a as [|x a IH]; intros [|y m] [|z b] H1 H2;
    simpl in H1, H2; try discriminate.
  - unfold volume, np.sum, np.prod. cbn. ring.
  - cbn [length List.repeat product_rec flat_map]. rewrite app_nil_r, map_app, sum_app.
    rewrite !map_map.
    specialize (IH m b ltac:(lia) ltac:(lia)).
    set (V := fun s => volume (fst (child_at a m b s)) (snd (child_at a m b s))) in *.
    assert (F0 : forall s,
               volume (fst (child_at (x :: a) (y :: m) (z :: b) (false :: s)))
                      (snd (child_at (x :: a) (y :: m) (z :: b) (false :: s)))
               = V s * (y - x)).
    { intros s. unfold V, volume, child_at, lower_corner, upper_corner, np.prod.
      cbn [fst snd combine map2 pick fold_right]. ring. }
    assert (F1 : forall s,
               volume (fst (child_at (x :: a) (y :: m) (z :: b) (true :: s)))
                      (snd (child_at (x :: a) (y :: m) (z :: b) (true :: s)))
               = V s * (z - y)).
    { intros s. unfold V, volume, child_at, lower_corner, upper_corner, np.prod.
      cbn [fst snd combine map2 pick fold_right]. ring. }
    rewrite (map_ext _ _ F0), (map_ext _ _ F1).
    rewrite <- (map_map V (fun v => v * (y - x))), <- (map_map V (fun v => v * (z - y))).
    rewrite !sum_scale, IH.
    unfold volume, np.prod. cbn [map2 fold_right]. ring.
Qed.

Lemma children_volume (a b : vec) :
  length a = length b ->
  np.sum (map (fun s => volume (fst (child a b s)) (snd (child a b s)))
              (product_rec (List.repeat [false; true] (length a))))
  = volume a b.
Proof.
  intros Hab.
  rewrite (sum_constant _ (np.prod (map (fun l => l / qz 2) (map2 Qcminus b a)))).
  - rewrite patterns_rec_length.
    replace (length a) with (length (map2 Qcminus b a))
      by (rewrite map2_length; lia).
    apply prod_halves.
  - intros s Hs. apply patterns_rec_In in Hs. unfold volume.
    now rewrite child_sides.
Qed.

(** X18. For a region with corners [a <= b] of dimension [d] whose sums
    [a_i + b_i] are formed without wrapping (floating-point bounds, or
    integer bounds whose sums their type holds),
    [_subregion_coordinates(a, b)] yields the [2^d] pairs [child a b s], one
    for each choice pattern [s] (each pattern exactly once); on every axis a
    child spans [(a_i, m_i)] or [(m_i, b_i)] with [m = (a + b)/2]; every
    child lies in the parent, every point of the parent lies in a child, two
    different children meet only on a bisecting hyperplane [x_i = m_i], and
    the volumes of the children add up to the volume of the parent. *)
Theorem subregion_coordinates_bisect (dt : dtype) (a b : vec) :
  length a = length b ->
  (forall i, (i < length a)%nat -> nth i a 0 <= nth i b 0) ->
  sums_fit dt a b ->
  let d := length a in
  let m := midpoint a b in
  let ps := patterns d in
    NoDup ps /\
    (forall s, In s ps <-> length s = d) /\
    length ps = (2 ^ d)%nat /\
    _subregion_coordinates dt a b = Ok (map (child a b) ps) /\
    (forall s, In s ps ->
       length (fst (child a b s)) = d /\ length (snd (child a b s)) = d /\
       forall i, (i < d)%nat ->
         (nth i (fst (child a b s)) 0 = nth i a 0 /\
          nth i (snd (child a b s)) 0 = nth i m 0) \/
         (nth i (fst (child a b s)) 0 = nth i m 0 /\
          nth i (snd (child a b s)) 0 = nth i b 0)) /\
    (forall s x, In s ps ->
       in_box (fst (child a b s)) (snd (child a b s)) x -> in_box a b x) /\
    (forall x, in_box a b x ->
       exists s, In s ps /\ in_box (fst (child a b s)) (snd (child a b s)) x) /\
    (forall s t x, In s ps -> In t ps -> s <> t ->
       in_box (fst (child a b s)) (snd (child a b s)) x ->
       in_box (fst (child a b t)) (snd (child a b t)) x ->
       exists i, (i < d)%nat /\ nth i x 0 = nth i m 0) /\
    np.sum (map (fun s => volume (fst (child a b s)) (snd (child a b s))) ps)
    = volume a b.
Proof.
  intros Hab Hle Hfit d m ps. unfold ps, patterns. rewrite product_is_rec. clear ps.
  assert (Hm : length m = length a) by (now apply midpoint_length).
  assert (Hmid : forall i, (i < d)%nat ->
            nth i a 0 <= nth i m 0 /\ nth i m 0 <= nth i b 0).
  { intros i Hi. unfold m. rewrite midpoint_nth by auto.
    apply midpoint_between. now apply Hle. }
  assert (Hlo : forall s i, length s = d -> (i < d)%nat ->
            nth i (fst (child a b s)) 0
            = if nth i s false then nth i m 0 else nth i a 0).
  { intros s i Hs Hi. apply lower_corner_nth; auto. }
  assert (Hhi : forall s i, length s = d -> (i < d)%nat ->
            nth i (snd (child a b s)) 0
            = if nth i s false then nth i b 0 else nth i m 0).
  { intros s i Hs Hi. apply upper_corner_nth; fold m; auto; lia. }
  assert (Hllen : forall s, length s = d -> length (fst (child a b s)) = d).
  { intros s Hs. apply corner_length; auto. }
  assert (Hhlen : forall s, length s = d -> length (snd (child a b s)) = d).
  { intros s Hs. cbn [child snd]. unfold upper_corner. fold m.
    rewrite corner_length; auto; lia. }
  split; [apply patterns_rec_NoDup|].
  split; [apply patterns_rec_In|].
  split; [apply patterns_rec_length|].
  split.
  { rewrite (subregion_coordinates_exact dt a b Hab Hfit).
    unfold _subregion_coordinates. rewrite Hab, Nat.eqb_refl.
    rewrite !product_is_rec.
    change (map2 (fun x y => add_dtype floating x y / qz 2) a b) with m.
    rewrite subregions_rec by lia. reflexivity. }
  split.
  { intros s Hs. apply patterns_rec_In in Hs.
    split; [auto|]. split; [auto|].
    intros i Hi. rewrite Hlo, Hhi by auto.
    destruct (nth i s false); auto. }
  split.
  { intros s x Hs [Hx Hbox]. apply patterns_rec_In in Hs.
    rewrite Hllen in Hx, Hbox by auto.
    split; [exact Hx|]. intros i Hi. fold d in Hi.
    specialize (Hbox i Hi). rewrite Hlo, Hhi in Hbox by auto.
    destruct (Hmid i Hi) as [H1 H2]. destruct Hbox as [H3 H4].
    destruct (nth i s false); split; eauto using Qcle_trans. }
  split.
  { intros x [Hx Hbox]. fold d in Hx, Hbox.
    set (s := map2 Qcltb m x).
    assert (Hs : length s = d) by (unfold s; rewrite map2_length; lia).
    exists s. split; [now apply patterns_rec_In|].
    split; [now rewrite Hllen|]. rewrite Hllen by auto.
    intros i Hi. rewrite Hlo, Hhi by auto.
    unfold s. rewrite (nth_map2 _ _ _ _ _ 0 0) by lia.
    pose proof (Qcltb_spec (nth i m 0) (nth i x 0)) as Hc.
    destruct (Hbox i Hi) as [H1 H2].
    destruct (Qcltb _ _); split; auto using Qclt_le_weak. }
  split; [|now apply children_volume].
  intros s t x Hs Ht Hne [Hxs Hbs] [Hxt Hbt].
  apply patterns_rec_In in Hs, Ht.
  rewrite Hllen in Hbs, Hbt by auto.
  destruct (differ_somewhere s t) as (i & Hi & Hd); [lia|auto|].
  rewrite Hs in Hi. exists i. split; [exact Hi|].
  specialize (Hbs i Hi). specialize (Hbt i Hi).
  rewrite Hlo, Hhi in Hbs, Hbt by auto.
  destruct (nth i s false), (nth i t false); try congruence;
    apply Qcle_antisym; tauto.
Qed.

Lemma subregion_coordinates_bisect_witness :
  length [0; 0] = length [1; 1] /\
  sums_fit (signed 64) [0; 0] [1; 1] /\
  _subregion_coordinates (signed 64) [0; 0] [1; 1]
  = Ok (map (child [0; 0] [1; 1]) (patterns 2)) /\
  length (patterns 2) = 4%nat.
Proof.
  assert (Hfit : sums_fit (signed 64) [0; 0] [1; 1]).
  { right. intros [|[|i]] Hi; simpl in Hi; try lia;
      exists 0%Z, 1%Z; (split; [now qc_eq|]); (split; [now qc_eq|]);
      cbn; lia. }
  split; [reflexivity|]. split; [exact Hfit|].
  destruct (subregion_coordinates_bisect (signed 64) [0; 0] [1; 1])
    as (_ & _ & Hl & E & _).
  - reflexivity.
  - intros [|[|i]] Hi; simpl in *; try lia; now vm_compute.
  - exact Hfit.
  - split; [exact E | exact Hl].
Defined.

(** C8. With [int64] bounds the sum [a + b] in [m = (a + b)/2] wraps
    around: at [a = [2^62]], [b = [2^62 + 2^11]] the midpoint the function
    uses is [-(2^62 - 1024)], not [2^62 + 1024], and the two pairs it yields
    are [([2^62], [-(2^62 - 1024)])] and [([-(2^62 - 1024)], [2^62 + 2^11])]:
    the upper corner of the first lies below [a], both lie outside the
    region, and they are not its two halves. *)
Theorem subregion_coordinates_int64_overflow :
  _subregion_coordinates (signed 64) [qz (2 ^ 62)] [qz (2 ^ 62 + 2 ^ 11)]
  = Ok [([qz (2 ^ 62)], [qz (- (2 ^ 62 - 1024))]);
        ([qz (- (2 ^ 62 - 1024))], [qz (2 ^ 62 + 2 ^ 11)])] /\
  qz (2 ^ 62) <= qz (2 ^ 62 + 2 ^ 11) /\
  midpoint [qz (2 ^ 62)] [qz (2 ^ 62 + 2 ^ 11)] = [qz (2 ^ 62 + 1024)] /\
  qz (- (2 ^ 62 - 1024)) < qz (2 ^ 62) /\
  ~ in_box [qz (2 ^ 62)] [qz (2 ^ 62 + 2 ^ 11)] [qz (- (2 ^ 62 - 1024))] /\
  _subregion_coordinates (signed 64) [qz (2 ^ 62)] [qz (2 ^ 62 + 2 ^ 11)]
  <> Ok (map (child [qz (2 ^ 62)] [qz (2 ^ 62 + 2 ^ 11)]) (patterns 1)).
Proof.
  assert (E : _subregion_coordinates (signed 64) [qz (2 ^ 62)] [qz (2 ^ 62 + 2 ^ 11)]
              = Ok [([qz (2 ^ 62)], [qz (- (2 ^ 62 - 1024))]);
                    ([qz (- (2 ^ 62 - 1024))], [qz (2 ^ 62 + 2 ^ 11)])])
    by qc_compute.
  assert (L : qz (- (2 ^ 62 - 1024)) < qz (2 ^ 62)) by now vm_compute.
  split; [exact E|]. split; [now vm_compute|]. split; [qc_compute|].
  split; [exact L|]. split.
  - intros [_ H]. destruct (H 0%nat ltac:(simpl; lia)) as [H0 _]. cbn [nth] in H0.
    exact (Qclt_not_le _ _ L H0).
  - rewrite E. intros H. apply (f_equal (fun r => match r with
                                                   | Ok ((_, [u]) :: _) => u
                                                   | _ => 0
                                                   end)) in H.
    vm_compute in H. discriminate H.
Qed.

(** ** C1 and C2: fixed rules and the error from a difference *)

Lemma map2_seq {A B C} (f : A -> B -> C) l1 l2 n d1 d2 :
  length l1 = n -> length l2 = n ->
  map2 f l1 l2 = map (fun k => f (nth k l1 d1) (nth k l2 d2)) (seq 0 n).
Proof.
  revert l2 n. induction l1 as [|x l1 IH]; intros [|y l2] [|n] H1 H2;
    simpl in *; try discriminate; auto.
  f_equal. rewrite <- seq_shift, map_map. apply IH; lia.
Qed.

Lemma mapM_multiply (w : vec) (rows : matrix) :
  Forall (fun row => length row = length w) rows ->
  mapM (np.multiply w) rows = Ok (map (map2 Qcmult w) rows).
Proof.
  induction 1 as [|row rows Hr _ IH]; simpl; auto.
  unfold np.multiply at 1. rewrite Hr, Nat.eqb_refl. cbn [bind].
  now rewrite IH.
Qed.

(** The affine image of the reference nodes, as [_apply_rule] computes it. *)
Lemma mapped_nodes_seq (nodes : matrix) (a b : vec) d :
  length nodes = d -> length a = d -> length b = d ->
  map2 (fun row la => map (fun x => (x + 1) * (fst la / qz 2) + snd la) row)
       nodes (combine (map2 Qcminus b a) a)
  = map (fun i => map (fun x => (x + 1) * ((nth i b 0 - nth i a 0) / qz 2) + nth i a 0)
                      (nth i nodes []))
        (seq 0 d).
Proof.
  intros Hn Ha Hb.
  rewrite (map2_seq _ _ _ d [] (0, 0)).
  2: exact Hn.
  2: { rewrite length_combine, map2_length. lia. }
  apply map_ext_in. intros i Hi. apply in_seq in Hi.
  rewrite nth_combine by (rewrite map2_length; lia).
  cbn [fst snd]. now rewrite (nth_map2 _ _ _ _ _ 0 0) by lia.
Qed.

Lemma scale_factor_seq (a b : vec) d :
  length a = d -> length b = d ->
  map (fun l => l / qz 2) (map2 Qcminus b a)
  = map (fun i => (nth i b 0 - nth i a 0) / qz 2) (seq 0 d).
Proof.
  intros Ha Hb. rewrite (map2_seq _ _ _ d 0 0) by lia. now rewrite map_map.
Qed.


Lemma apply_rule_weighted_sum (f : integrand) (a b : vec) (nodes : matrix) (weights : vec) :
  length a = length nodes -> length b = length nodes ->
  Forall (fun row => length row = length weights) (f (mapped_nodes nodes a b)) ->
  _apply_rule f a b (nodes, weights)
  = Ok (map (fun row => np.sum (map2 Qcmult (map (mapped_weight a b) weights) row))
            (f (mapped_nodes nodes a b))).
Proof.
  intros Ha Hb Hf. unfold _apply_rule.
  rewrite Ha, Hb, Nat.eqb_refl. cbn [negb orb].
  rewrite (mapped_nodes_seq nodes a b (length nodes)) by auto.
  rewrite (scale_factor_seq a b (length nodes)) by auto.
  fold (mapped_nodes nodes a b).
  replace (np.prod _) with (jacobian a b) by (unfold jacobian; now rewrite Ha).
  change (map (fun w => w * jacobian a b) weights) with (map (mapped_weight a b) weights).
  rewrite mapM_multiply by (now rewrite length_map).
  cbn [bind]. now rewrite map_map.
Qed.


Lemma map2_map_seq {A B C} (f : A -> B -> C) (u : nat -> A) (v : nat -> B) n :
  map2 f (map u (seq 0 n)) (map v (seq 0 n)) = map (fun j => f (u j) (v j)) (seq 0 n).
Proof.
  generalize 0%nat. induction n as [|n IH]; intros s; simpl; auto.
  now rewrite IH.
Qed.

Lemma column_hconcat_l (x y : matrix) m k :
  length x = length y -> Forall (fun row => length row = m) x -> (k < m)%nat ->
  column (hconcat x y) k = column x k.
Proof.
  unfold column, hconcat. revert y.
  induction x as [|r x IH]; intros [|s y] Hl Hx Hk; simpl in *;
    try discriminate; auto.
  inversion Hx; subst. rewrite app_nth1 by lia. f_equal. apply IH; auto.
Qed.

Lemma column_hconcat_r (x y : matrix) m k :
  length x = length y -> Forall (fun row => length row = m) x ->
  column (hconcat x y) (m + k) = column y k.
Proof.
  unfold column, hconcat. revert y.
  induction x as [|r x IH]; intros [|s y] Hl Hx; simpl in *;
    try discriminate; auto.
  inversion Hx; subst. rewrite app_nth2 by lia.
  replace (length r + k - length r)%nat with k by lia. f_equal. apply IH; auto.
Qed.

Lemma ncols_uniform (x : matrix) m :
  (1 <= length x)%nat -> Forall (fun row => length row = m) x -> np.ncols x = m.
Proof. intros H Hx. destruct x; simpl in *; [lia|]. now inversion Hx. Qed.

Lemma hconcat_uniform (x y : matrix) m1 m2 :
  length x = length y ->
  Forall (fun row => length row = m1) x -> Forall (fun row => length row = m2) y ->
  Forall (fun row => length row = (m1 + m2)%nat) (hconcat x y).
Proof.
  unfold hconcat. revert y. induction x as [|r x IH]; intros [|s y] Hl Hx Hy;
    simpl in *; try discriminate; constructor.
  - inversion Hx; inversion Hy; subst. now rewrite length_app.
  - inversion Hx; inversion Hy; subst. apply IH; auto.
Qed.

Lemma seq_from m n : seq m n = map (fun k => (m + k)%nat) (seq 0 n).
Proof.
  induction m as [|m IH].
  - now rewrite map_id.
  - rewrite <- seq_shift, IH, map_map. reflexivity.
Qed.

Lemma vectorize_hconcat n g (x y : matrix) m1 m2 :
  (1 <= length x)%nat -> length x = length y ->
  Forall (fun row => length row = m1) x -> Forall (fun row => length row = m2) y ->
  vectorize n g (hconcat x y) = hconcat (vectorize n g x) (vectorize n g y).
Proof.
  intros Hd Hl Hx Hy. unfold vectorize.
  rewrite (ncols_uniform x m1) by (auto; lia).
  rewrite (ncols_uniform y m2) by (auto; lia).
  rewrite (ncols_uniform (hconcat x y) (m1 + m2)).
  2:{ unfold hconcat. rewrite map2_length. unfold matrix, vec in *. lia. }
  2:{ now apply hconcat_uniform. }
  unfold hconcat at 2. rewrite map2_map_seq.
  apply map_ext. intros j.
  rewrite seq_app, map_app. f_equal.
  - apply map_ext_in. intros k Hk. apply in_seq in Hk.
    rewrite (column_hconcat_l x y m1) by (auto; lia). reflexivity.
  - cbn [Nat.add]. rewrite seq_from, map_map. apply map_ext. intros k.
    now rewrite (column_hconcat_r x y m1).
Qed.

Lemma mapped_nodes_length nodes a b : length (mapped_nodes nodes a b) = length nodes.
Proof. unfold mapped_nodes. now rewrite length_map, length_seq. Qed.

Lemma mapped_nodes_uniform nodes a b m :
  Forall (fun row => length row = m) nodes ->
  Forall (fun row => length row = m) (mapped_nodes nodes a b).
Proof.
  intros H. unfold mapped_nodes. apply Forall_forall. intros row Hr.
  apply in_map_iff in Hr as (i & <- & Hi). apply in_seq in Hi.
  rewrite length_map. rewrite Forall_forall in H. apply H, nth_In. lia.
Qed.

Lemma hconcat_length (x y : matrix) :
  length x = length y -> length (hconcat x y) = length x.
Proof. intros H. unfold hconcat. rewrite map2_length. unfold matrix, vec in *. lia. Qed.

Lemma mapped_nodes_hconcat (x y : matrix) a b :
  length x = length y ->
  mapped_nodes (hconcat x y) a b = hconcat (mapped_nodes x a b) (mapped_nodes y a b).
Proof.
  intros H. unfold mapped_nodes. rewrite hconcat_length by auto. rewrite <- H.
  unfold hconcat at 2. rewrite map2_map_seq.
  apply map_ext_in. intros i Hi. apply in_seq in Hi.
  unfold hconcat. rewrite (nth_map2 _ _ _ _ _ [] []) by (unfold matrix, vec in *; lia).
  now rewrite map_app.
Qed.

Lemma vectorize_rows n g x :
  Forall (fun row => length row = np.ncols x) (vectorize n g x).
Proof.
  unfold vectorize. apply Forall_forall. intros row Hr.
  apply in_map_iff in Hr as (j & <- & _). now rewrite length_map, length_seq.
Qed.

Lemma vectorize_length n g x : length (vectorize n g x) = n.
Proof. unfold vectorize. now rewrite length_map, length_seq. Qed.

Lemma map2_app {A B C} (f : A -> B -> C) l1 l2 r1 r2 :
  length l1 = length r1 ->
  map2 f (l1 ++ l2) (r1 ++ r2) = map2 f l1 r1 ++ map2 f l2 r2.
Proof.
  revert r1. induction l1 as [|x l1 IH]; intros [|y r1] H; simpl in *;
    try discriminate; auto.
  f_equal. apply IH. lia.
Qed.

Lemma sum_opp_weights (v row : vec) :
  np.sum (map2 Qcmult (map Qcopp v) row) = - np.sum (map2 Qcmult v row).
Proof.
  unfold np.sum. revert row. induction v as [|x v IH]; intros [|y row]; simpl;
    try ring.
  rewrite IH. ring.
Qed.

Lemma weighted_sum_hconcat (u v : vec) (rx ry : matrix) :
  length rx = length ry ->
  Forall (fun row => length row = length u) rx ->
  map (fun row => np.sum (map2 Qcmult (u ++ map Qcopp v) row)) (hconcat rx ry)
  = map2 Qcminus (map (fun row => np.sum (map2 Qcmult u row)) rx)
                 (map (fun row => np.sum (map2 Qcmult v row)) ry).
Proof.
  unfold hconcat. revert ry.
  induction rx as [|r rx IH]; intros [|s ry] Hl Hx; simpl in *;
    try discriminate; auto.
  inversion Hx; subst. rewrite IH by (auto; lia). f_equal.
  rewrite map2_app by auto. rewrite sum_app, sum_opp_weights. ring.
Qed.

Lemma map_map2 {A B C D} (g : C -> D) (f : A -> B -> C) l1 l2 :
  map g (map2 f l1 l2) = map2 (fun x y => g (f x y)) l1 l2.
Proof.
  revert l2. induction l1 as [|x l1 IH]; intros [|y l2]; simpl; auto.
  now rewrite IH.
Qed.

Lemma mapped_weight_opp a b w : mapped_weight a b (- w) = - mapped_weight a b w.
Proof. unfold mapped_weight. ring. Qed.

(** C2. For fixed rules [H] and [L] of the same spatial dimension [d] and an
    integrand evaluated point by point, [ErrorFromDifference(H, L)] computes
    its error estimate in one pass over the concatenated nodes with weights
    [weights_H ++ (- weights_L)], and the result is the elementwise
    [|H.estimate(f, a, b) - L.estimate(f, a, b)|]; its estimate is that of
    [H]. *)
Theorem ErrorFromDifference_error_is_difference
        (nodes_H nodes_L : matrix) (weights_H weights_L : vec)
        (n : nat) (g : vec -> vec) (f : integrand) (a b : vec) (d : nat) :
  (1 <= d)%nat ->
  length nodes_H = d -> length nodes_L = d -> length a = d -> length b = d ->
  Forall (fun row => length row = length weights_H) nodes_H ->
  Forall (fun row => length row = length weights_L) nodes_L ->
  (forall (x : matrix) m,
      length x = d -> Forall (fun row => length row = m) x ->
      f x = vectorize n g x) ->
  let H := FixedCubature (Ok (nodes_H, weights_H)) in
  let L := FixedCubature (Ok (nodes_L, weights_L)) in
  let rule := ErrorFromDifference (Ok (nodes_H, weights_H)) (Ok (nodes_L, weights_L)) in
  exists h l : vec,
    estimate H f a b = Ok h /\
    estimate L f a b = Ok l /\
    estimate rule f a b = Ok h /\
    length h = n /\ length l = n /\
    error_estimate rule f a b = Ok (map2 (fun x y => Qcabs (x - y)) h l).
Proof.
  intros Hd HnH HnL Ha Hb HrH HrL Hf H L rule.
  set (xH := mapped_nodes nodes_H a b). set (xL := mapped_nodes nodes_L a b).
  assert (LxH : length xH = d) by (unfold xH; now rewrite mapped_nodes_length).
  assert (LxL : length xL = d) by (unfold xL; now rewrite mapped_nodes_length).
  assert (UxH : Forall (fun row => length row = length weights_H) xH)
    by (now apply mapped_nodes_uniform).
  assert (UxL : Forall (fun row => length row = length weights_L) xL)
    by (now apply mapped_nodes_uniform).
  assert (FH : f xH = vectorize n g xH) by (eapply Hf; eauto).
  assert (FL : f xL = vectorize n g xL) by (eapply Hf; eauto).
  assert (RH : Forall (fun row => length row = length weights_H) (f xH)).
  { rewrite FH. rewrite <- (ncols_uniform xH (length weights_H)) by (auto; lia).
    apply vectorize_rows. }
  assert (RL : Forall (fun row => length row = length weights_L) (f xL)).
  { rewrite FL. rewrite <- (ncols_uniform xL (length weights_L)) by (auto; lia).
    apply vectorize_rows. }
  assert (EH : estimate H f a b
               = Ok (map (fun row => np.sum (map2 Qcmult (map (mapped_weight a b) weights_H) row))
                         (f xH))).
  { cbn [H estimate FixedCubature bind]. apply apply_rule_weighted_sum; auto; lia. }
  assert (EL : estimate L f a b
               = Ok (map (fun row => np.sum (map2 Qcmult (map (mapped_weight a b) weights_L) row))
                         (f xL))).
  { cbn [L estimate FixedCubature bind]. apply apply_rule_weighted_sum; auto; lia. }
  eexists. eexists. split; [exact EH|]. split; [exact EL|]. split; [exact EH|].
  split; [now rewrite length_map, FH, vectorize_length|].
  split; [now rewrite length_map, FL, vectorize_length|].
  cbn [rule error_estimate ErrorFromDifference].
  unfold ErrorFromDifference_error_estimate. cbn [bind].
  unfold np.concat_last. rewrite HnH, HnL, Nat.eqb_refl. cbn [bind].
  fold (hconcat nodes_H nodes_L).
  assert (Hx : mapped_nodes (hconcat nodes_H nodes_L) a b = hconcat xH xL)
    by (apply mapped_nodes_hconcat; lia).
  assert (Fx : f (hconcat xH xL) = hconcat (f xH) (f xL)).
  { rewrite (Hf (hconcat xH xL) (length weights_H + length weights_L)%nat).
    - rewrite FH, FL. eapply vectorize_hconcat; eauto; lia.
    - rewrite hconcat_length; lia.
    - apply hconcat_uniform; auto; lia. }
  rewrite apply_rule_weighted_sum.
  - cbn [bind]. rewrite Hx, Fx. rewrite map_app, map_map.
    rewrite (map_ext (fun w => mapped_weight a b (- w))
                     (fun w => - mapped_weight a b w))
      by (intros; apply mapped_weight_opp).
    rewrite <- (map_map (mapped_weight a b) Qcopp).
    rewrite weighted_sum_hconcat.
    + unfold np.abs. now rewrite map_map2.
    + now rewrite FH, FL, !vectorize_length.
    + now rewrite length_map.
  - rewrite hconcat_length; lia.
  - rewrite hconcat_length; lia.
  - rewrite Hx, Fx, length_app, length_map.
    apply hconcat_uniform; auto.
    now rewrite FH, FL, !vectorize_length.
Qed.



Lemma ErrorFromDifference_error_is_difference_witness :
  exists h l : vec,
    estimate (FixedCubature (Ok ([[0]], [qz 2]))) square_pointwise [0] [1] = Ok h /\
    estimate (FixedCubature (Ok ([[- (1); 1]], [1; 1]))) square_pointwise [0] [1] = Ok l /\
    error_estimate midpoint_trapezoid square_pointwise [0] [1]
    = Ok (map2 (fun x y => Qcabs (x - y)) h l).
Proof.
  assert (HH : Forall (fun row : vec => length row = length [qz 2]) [[0]])
    by (repeat constructor).
  assert (HL : Forall (fun row : vec => length row = length [1; 1]) [[- (1); 1]])
    by (repeat constructor).
  destruct (ErrorFromDifference_error_is_difference
              [[0]] [[- (1); 1]] [qz 2] [1; 1] 1
              (fun p => [nth 0 p 0 * nth 0 p 0]) square_pointwise [0] [1] 1
              (le_n 1) eq_refl eq_refl eq_refl eq_refl HH HL
              (fun x m _ _ => eq_refl))
    as (h & l & EH & EL & _ & _ & _ & EE).
  exists h, l. split; [exact EH|]. split; [exact EL|]. exact EE.
Defined.

(** ** The heap operations permute the heap *)

Lemma update_length {A} (l : list A) i x : length (update l i x) = length l.
Proof. revert i; induction l as [|y l IH]; intros [|i]; simpl; auto. Qed.

Lemma nth_error_update_eq {A} (l : list A) i x :
  (i < length l)%nat -> nth_error (update l i x) i = Some x.
Proof.
  revert i; induction l as [|y l IH]; intros [|i] H; simpl in *; try lia; auto.
  apply IH. lia.
Qed.

Lemma nth_error_update_neq {A} (l : list A) i j x :
  i <> j -> nth_error (update l i x) j = nth_error l j.
Proof.
  revert i j; induction l as [|y l IH]; intros [|i] [|j] H; simpl; auto;
    try congruence.
Qed.

Lemma update_same {A} (l : list A) i x :
  nth_error l i = Some x -> update l i x = l.
Proof.
  revert i; induction l as [|y l IH]; intros [|i] H; simpl in *;
    try discriminate; auto.
  - now injection H as ->.
  - f_equal. now apply IH.
Qed.

(** Overwriting [y] by [x] trades one for the other. *)
Lemma update_trade {A} (l : list A) i x y :
  nth_error l i = Some y -> Permutation (y :: update l i x) (x :: l).
Proof.
  revert i; induction l as [|z l IH]; intros [|i] H; simpl in *;
    try discriminate.
  - injection H as ->. apply perm_swap.
  - eapply perm_trans; [apply perm_swap|].
    eapply perm_trans; [|apply perm_swap].
    apply perm_skip. now apply IH.
Qed.

Lemma update_swap {A} (l : list A) i j x y c :
  i <> j -> nth_error l i = Some y -> nth_error l j = Some c ->
  Permutation (update l i x) (update (update l i c) j x).
Proof.
  intros Hij Hi Hj.
  assert (H1 : Permutation (y :: update l i x) (x :: l)) by now apply update_trade.
  assert (H2 : Permutation (y :: update l i c) (c :: l)) by now apply update_trade.
  assert (H3 : Permutation (c :: update (update l i c) j x) (x :: update l i c)).
  { apply update_trade. now rewrite nth_error_update_neq. }
  apply (Permutation_cons_inv (a := y)), (Permutation_cons_inv (a := c)).
  apply perm_trans with (c :: x :: l); [apply perm_skip, H1|].
  symmetry.
  eapply perm_trans; [apply perm_swap|].
  eapply perm_trans; [apply perm_skip, H3|].
  eapply perm_trans; [apply perm_swap|].
  eapply perm_trans; [apply perm_skip, H2|].
  apply perm_swap.
Qed.

Section HeapPermutation.

Context {A : Type}.
Variable lt : A -> A -> bool.

Lemma siftdown_loop_trade fuel : forall (heap : list A) startpos pos newitem y,
  nth_error heap pos = Some y ->
  Permutation (y :: heapq._siftdown_loop lt fuel heap startpos pos newitem)
              (newitem :: heap).
Proof.
  induction fuel as [|fuel IH]; intros heap startpos pos newitem y Hy;
    cbn [heapq._siftdown_loop]; [now apply update_trade|].
  destruct (startpos <? pos) eqn:Hpos; [|now apply update_trade].
  apply Nat.ltb_lt in Hpos.
  destruct (nth_error heap ((pos - 1) / 2)) as [parent|] eqn:Hp;
    [|now apply update_trade].
  destruct (lt newitem parent); [|now apply update_trade].
  assert (Hne : pos <> ((pos - 1) / 2)%nat).
  { pose proof (Nat.Div0.div_le_upper_bound (pos - 1) 2 (pos - 1)). lia. }
  assert (H1 : Permutation (y :: update heap pos parent) (parent :: heap))
    by now apply update_trade.
  assert (H2 := IH (update heap pos parent) startpos ((pos - 1) / 2)%nat newitem parent).
  rewrite nth_error_update_neq in H2 by exact Hne. specialize (H2 Hp).
  apply (Permutation_cons_inv (a := parent)).
  eapply perm_trans; [apply perm_swap|].
  eapply perm_trans; [apply perm_skip, H2|].
  eapply perm_trans; [apply perm_swap|].
  eapply perm_trans; [apply perm_skip, H1|].
  apply perm_swap.
Qed.

Lemma siftdown_perm (heap : list A) startpos pos :
  Permutation (heapq._siftdown lt heap startpos pos) heap.
Proof.
  unfold heapq._siftdown.
  destruct (nth_error heap pos) as [newitem|] eqn:H; [|reflexivity].
  eapply Permutation_cons_inv. now apply siftdown_loop_trade.
Qed.

Lemma siftup_loop_hole fuel : forall (heap : list A) endpos pos heap' pos',
  nth_error heap pos <> None ->
  heapq._siftup_loop lt fuel heap endpos pos = (heap', pos') ->
  forall x, Permutation (update heap pos x) (update heap' pos' x).
Proof.
  induction fuel as [|fuel IH]; intros heap endpos pos heap' pos' Hv E x;
    cbn [heapq._siftup_loop] in E; [injection E as <- <-; reflexivity|].
  destruct (2 * pos + 1 <? endpos); [|injection E as <- <-; reflexivity].
  set (childpos :=
         match nth_error heap (2 * pos + 1), nth_error heap (2 * pos + 1 + 1) with
         | Some c, Some r =>
             if (2 * pos + 1 + 1 <? endpos) && negb (lt c r)
             then (2 * pos + 1 + 1)%nat else (2 * pos + 1)%nat
         | _, _ => (2 * pos + 1)%nat
         end) in *.
  assert (Hc : pos <> childpos).
  { unfold childpos. destruct (nth_error heap (2 * pos + 1)); [|lia].
    destruct (nth_error heap (2 * pos + 1 + 1)); [|lia].
    destruct (_ && _); lia. }
  destruct (nth_error heap childpos) as [c|] eqn:Hchild;
    [|injection E as <- <-; reflexivity].
  destruct (nth_error heap pos) as [y|] eqn:Hy; [|congruence].
  eapply perm_trans; [now apply (update_swap heap pos childpos x y c)|].
  assert (Hv' : nth_error (update heap pos c) childpos <> None)
    by (rewrite nth_error_update_neq by exact Hc; congruence).
  exact (IH _ _ _ _ _ Hv' E x).
Qed.

Lemma siftup_perm (heap : list A) pos :
  Permutation (heapq._siftup lt heap pos) heap.
Proof.
  unfold heapq._siftup.
  destruct (nth_error heap pos) as [newitem|] eqn:H; [|reflexivity].
  destruct (heapq._siftup_loop lt _ heap _ pos) as [heap' pos'] eqn:E.
  eapply perm_trans; [apply siftdown_perm|].
  symmetry. rewrite <- (update_same heap pos newitem H) at 1.
  eapply siftup_loop_hole; eauto. congruence.
Qed.

Lemma heappush_perm (heap : list A) item :
  Permutation (heapq.heappush lt heap item) (item :: heap).
Proof.
  unfold heapq.heappush. eapply perm_trans; [apply siftdown_perm|].
  symmetry. apply Permutation_cons_append.
Qed.

Lemma heappop_perm (heap : list A) item rest :
  heapq.heappop lt heap = Ok (item, rest) -> Permutation heap (item :: rest).
Proof.
  unfold heapq.heappop. intros H.
  destruct (rev heap) as [|lastelt front] eqn:Hr; [discriminate|].
  assert (Hh : heap = rev front ++ [lastelt]).
  { rewrite <- (rev_involutive heap), Hr. reflexivity. }
  destruct (rev front) as [|returnitem rest'] eqn:Hf.
  - injection H as <- <-. now rewrite Hh.
  - injection H as <- <-. rewrite Hh. cbn [app].
    apply perm_skip. eapply perm_trans; [|symmetry; apply siftup_perm].
    symmetry. apply Permutation_cons_append.
Qed.

Lemma heappop_nonempty (heap : list A) :
  heap <> [] -> exists item rest, heapq.heappop lt heap = Ok (item, rest).
Proof.
  intros H. unfold heapq.heappop.
  destruct (rev heap) as [|lastelt front] eqn:Hr.
  - apply (f_equal (@rev A)) in Hr. rewrite rev_involutive in Hr. contradiction.
  - destruct (rev front); eauto.
Qed.

End HeapPermutation.

(** ** C3: the accumulator invariant *)

Lemma map2_plus_zero (v : vec) : map2 Qcplus v (List.repeat 0 (length v)) = v.
Proof. induction v as [|x v IH]; simpl; auto. rewrite IH. f_equal. ring. Qed.

Lemma map2_minus_self (v : vec) : map2 Qcminus v v = List.repeat 0 (length v).
Proof. induction v as [|x v IH]; simpl; auto. rewrite IH. f_equal. ring. Qed.

Lemma map2_plus_minus (a c : vec) :
  length c = length a -> map2 Qcminus (map2 Qcplus a c) a = c.
Proof.
  revert c. induction a as [|x a IH]; intros [|y c] H; simpl in *;
    try discriminate; auto.
  rewrite IH by lia. f_equal. ring.
Qed.

Lemma map2_plus_comm (a b : vec) : map2 Qcplus a b = map2 Qcplus b a.
Proof.
  revert b. induction a as [|x a IH]; intros [|y b]; simpl; auto.
  rewrite IH. f_equal. ring.
Qed.

Lemma map2_plus_left_comm (a b c : vec) :
  map2 Qcplus a (map2 Qcplus b c) = map2 Qcplus b (map2 Qcplus a c).
Proof.
  revert b c. induction a as [|x a IH]; intros [|y b] [|z c]; simpl; auto.
  rewrite IH. f_equal. ring.
Qed.

Lemma array_sum_perm n (l l' : list vec) :
  Permutation l l' -> array_sum n l = array_sum n l'.
Proof.
  unfold array_sum. induction 1; simpl; auto.
  - now rewrite IHPermutation.
  - apply map2_plus_left_comm.
  - congruence.
Qed.

Lemma array_sum_length n (l : list vec) :
  Forall (fun v => length v = n) l -> length (array_sum n l) = n.
Proof.
  unfold array_sum. induction 1 as [|v l Hv _ IH]; simpl.
  - apply repeat_length.
  - rewrite map2_length, IH, Hv. apply Nat.min_id.
Qed.

Lemma deref_update_eq (s : store) l v : (l < length s)%nat -> deref (update s l v) l = v.
Proof.
  intros H. unfold deref.
  pose proof (nth_error_update_eq s l v H) as E.
  now apply nth_error_nth.
Qed.

Lemma deref_update_neq (s : store) l l' v : l <> l' -> deref (update s l v) l' = deref s l'.
Proof.
  intros H. unfold deref.
  pose proof (nth_error_update_neq s l l' v H) as E.
  destruct (nth_error s l') as [w|] eqn:Hw.
  - rewrite (nth_error_nth _ _ _ E). symmetry. now apply nth_error_nth.
  - rewrite !nth_overflow; auto.
    + now apply nth_error_None.
    + rewrite update_length. now apply nth_error_None.
Qed.

Lemma deref_alloc_old (s : store) v l : (l < length s)%nat -> deref (s ++ [v]) l = deref s l.
Proof. intros H. unfold deref. now rewrite app_nth1. Qed.

Lemma deref_alloc_new (s : store) v : deref (s ++ [v]) (length s) = v.
Proof. unfold deref. rewrite app_nth2 by lia. now rewrite Nat.sub_diag. Qed.

Lemma inplace_Ok f s x y s' :
  inplace f s x y = Ok s' ->
  length (deref s x) = length y /\ s' = update s x (map2 f (deref s x) y).
Proof.
  unfold inplace, np.elementwise.
  destruct (length (deref s x) =? length y) eqn:E; cbn [bind]; [|discriminate].
  apply Nat.eqb_eq in E. intros H. injection H as <-. auto.
Qed.


Lemma region_fresh_frame s s' est err r :
  frame s s' est err ->
  length (deref s' est) = length (deref s est) ->
  length (deref s' err) = length (deref s err) ->
  region_fresh s est err r -> region_fresh s' est err r.
Proof.
  intros [Hl Hf] He Hr (H1 & H2 & H3 & H4 & H5 & H6 & H7 & H8).
  unfold region_fresh.
  rewrite (Hf (region_estimate r)), (Hf (region_error r)), He, Hr by auto.
  repeat split; auto; len.
Qed.

Lemma estimates_frame s s' est err regions :
  frame s s' est err -> Forall (region_fresh s est err) regions ->
  estimates_of s' regions = estimates_of s regions /\
  errors_of s' regions = errors_of s regions.
Proof.
  intros [Hl Hf] H. unfold estimates_of, errors_of.
  split; apply map_ext_in; intros r Hr; rewrite Forall_forall in H;
    destruct (H r Hr) as (H1 & H2 & H3 & H4 & H5 & H6 & _); now apply Hf.
Qed.

Lemma frame_update s l v est err :
  l = est \/ l = err -> frame s (update s l v) est err.
Proof.
  intros Hl. split; [now rewrite update_length|].
  intros l' H1 H2 H3. apply deref_update_neq. destruct Hl; congruence.
Qed.

Lemma frame_alloc s v est err : frame s (s ++ [v]) est err.
Proof.
  split; [rewrite length_app; lia|].
  intros l H _ _. now apply deref_alloc_old.
Qed.

Lemma frame_trans s1 s2 s3 est err :
  frame s1 s2 est err -> frame s2 s3 est err -> frame s1 s3 est err.
Proof.
  intros [L1 F1] [L2 F2]. split; [len|].
  intros l H1 H2 H3. rewrite F2, F1; auto; len.
Qed.

Section DriverInvariant.

Variable f : integrand.
Variable rule : Cubature.

Lemma refine_subregion_refined est err s regions sub s' regions' :
  refined s est err regions ->
  refine_subregion f rule est err (s, regions) sub = Ok (s', regions') ->
  refined s' est err regions'.
Proof.
  intros (Hest & Herr & Hne & Hfresh & Hsum_e & Hsum_r) H.
  unfold refine_subregion in H. destruct sub as [a_sub b_sub].
  destruct (estimate rule f a_sub b_sub) as [ev| |]; cbn [bind] in H; try discriminate.
  unfold alloc in H.
  destruct (error_estimate rule f a_sub b_sub) as [rv| |]; cbn [bind] in H; try discriminate.
  set (sa := s ++ [ev]) in *. set (sb := sa ++ [rv]) in *.
  assert (La : length sa = S (length s)) by (unfold sa; rewrite length_app; simpl; len).
  assert (Lb : length sb = S (S (length s))) by (unfold sb; rewrite length_app; simpl; len).
  assert (Dev : deref sb (length s) = ev).
  { unfold sb. rewrite deref_alloc_old by len. apply deref_alloc_new. }
  assert (Drv : deref sb (length sa) = rv) by apply deref_alloc_new.
  assert (Fb : frame s sb est err).
  { eapply frame_trans; apply frame_alloc. }
  assert (Deb : deref sb est = deref s est).
  { unfold sb, sa. now rewrite !deref_alloc_old by (rewrite ?length_app; simpl; len). }
  assert (Drb : deref sb err = deref s err).
  { unfold sb, sa. now rewrite !deref_alloc_old by (rewrite ?length_app; simpl; len). }
  rewrite Dev in H.
  destruct (inplace Qcplus sb est ev) as [sc| |] eqn:Hc; cbn [bind] in H; try discriminate.
  apply inplace_Ok in Hc as [Lev ->]. rewrite Deb in *.
  set (sc := update sb est (map2 Qcplus (deref s est) ev)) in *.
  assert (Drc : deref sc (length sa) = rv).
  { unfold sc. rewrite deref_update_neq by len. exact Drv. }
  rewrite Drc in H.
  destruct (inplace Qcplus sc err rv) as [sd| |] eqn:Hd; cbn [bind] in H; try discriminate.
  apply inplace_Ok in Hd as [Lrv ->].
  assert (Drc' : deref sc err = deref s err).
  { unfold sc. rewrite deref_update_neq by auto. exact Drb. }
  rewrite Drc' in *.
  set (sd := update sc err (map2 Qcplus (deref s err) rv)) in *.
  injection H as <- <-.
  set (new_region := {| region_estimate := length s; region_error := length sa;
                        region_a := a_sub; region_b := b_sub;
                        region_dtype := floating |}).
  assert (Ld : length sd = S (S (length s))).
  { unfold sd, sc. now rewrite !update_length. }
  assert (Ded : deref sd est = map2 Qcplus (deref s est) ev).
  { unfold sd. rewrite deref_update_neq by auto. unfold sc.
    apply deref_update_eq. len. }
  assert (Drd : deref sd err = map2 Qcplus (deref s err) rv).
  { unfold sd. apply deref_update_eq. unfold sc. rewrite update_length. len. }
  assert (Fd : frame s sd est err).
  { eapply frame_trans; [exact Fb|]. eapply frame_trans; apply frame_update; auto. }
  assert (Led : length (deref sd est) = length (deref s est)).
  { rewrite Ded, map2_length. len. }
  assert (Lrd : length (deref sd err) = length (deref s err)).
  { rewrite Drd, map2_length. len. }
  assert (Dnew_e : deref sd (length s) = ev).
  { unfold sd, sc. rewrite !deref_update_neq by len. exact Dev. }
  assert (Dnew_r : deref sd (length sa) = rv).
  { unfold sd, sc. rewrite !deref_update_neq by len. exact Drv. }
  assert (Hnew : region_fresh sd est err new_region).
  { unfold region_fresh, new_region. cbn [region_estimate region_error].
    rewrite Dnew_e, Dnew_r, Led, Lrd. repeat split; len. }
  assert (Hold : Forall (region_fresh sd est err) regions).
  { eapply Forall_impl; [|exact Hfresh]. intros r. now apply region_fresh_frame. }
  destruct (estimates_frame s sd est err regions Fd Hfresh) as [Ee Er].
  pose proof (heappush_perm (CubatureRegion_lt sd) regions new_region) as P.
  unfold refined. rewrite Ld. repeat split; try len; auto.
  - eapply Permutation_Forall; [symmetry; exact P|]. now constructor.
  - unfold estimates_of in *.
    rewrite (array_sum_perm _ _ _ (Permutation_map _ P)).
    unfold array_sum in *. cbn [map fold_right region_estimate new_region].
    rewrite Dnew_e, Led, Ee, <- Hsum_e, Ded. apply map2_plus_comm.
  - unfold errors_of in *.
    rewrite (array_sum_perm _ _ _ (Permutation_map _ P)).
    unfold array_sum in *. cbn [map fold_right region_error new_region].
    rewrite Dnew_r, Lrd, Er, <- Hsum_r, Drd. apply map2_plus_comm.
Qed.

End DriverInvariant.

Section DriverInvariant2.

Variable f : integrand.
Variable rule : Cubature.

Lemma refine_children_refined est err subs : forall s regions s' regions',
  refined s est err regions ->
  foldM (refine_subregion f rule est err) subs (s, regions) = Ok (s', regions') ->
  refined s' est err regions'.
Proof.
  induction subs as [|sub subs IH]; intros s regions s' regions' Hr H; cbn [foldM] in H.
  - now injection H as <- <-.
  - destruct (refine_subregion f rule est err (s, regions) sub) as [[s1 regions1]| |] eqn:E;
      cbn [bind] in H; try discriminate.
    eapply IH; [|exact H]. eapply refine_subregion_refined; eauto.
Qed.

(** Popping the worst region and subtracting its contribution. *)
Lemma refine_subtract st region_k regions s1 s2 :
  driver_invariant st ->
  heapq.heappop (CubatureRegion_lt (st_store st)) (st_regions st) = Ok (region_k, regions) ->
  inplace Qcminus (st_store st) (st_est st)
          (deref (st_store st) (region_estimate region_k)) = Ok s1 ->
  inplace Qcminus s1 (st_err st) (deref s1 (region_error region_k)) = Ok s2 ->
  refined s2 (st_est st) (st_err st) regions.
Proof.
  destruct st as [s est err rs n]. cbn [st_store st_est st_err st_regions].
  intros Inv Hpop H1 H2.
  apply inplace_Ok in H1 as [L1 ->].
  destruct Inv as [(Hest & Herr & Hne & a & b & dt0 & Hrs)|(Hest & Herr & Hne & Hfresh & Hse & Hsr)];
    cbn [st_store st_est st_err st_regions] in *.
  - (* the first pass: the popped region shares its arrays with the accumulators *)
    subst rs. cbn in Hpop. injection Hpop as <- <-.
    cbn [region_estimate region_error] in *.
    rewrite deref_update_neq in H2 by auto.
    apply inplace_Ok in H2 as [L2 ->].
    rewrite deref_update_neq by auto.
    unfold refined. rewrite !update_length.
    rewrite deref_update_eq by (rewrite update_length; len).
    rewrite deref_update_neq, deref_update_eq by auto.
    repeat split; auto; cbn [estimates_of errors_of map array_sum fold_right];
      rewrite map2_minus_self, repeat_length; reflexivity.
  - (* later passes: the popped region has arrays of its own *)
    apply heappop_perm in Hpop.
    pose proof (Permutation_Forall Hpop Hfresh) as Hf'.
    inversion Hf' as [|? ? Hk Hrest]; subst.
    destruct Hk as (K1 & K2 & K3 & K4 & K5 & K6 & K7 & K8).
    rewrite deref_update_neq in H2 by auto.
    apply inplace_Ok in H2 as [L2 ->].
    rewrite deref_update_neq in L2 |- * by auto.
    set (s1 := update s est (map2 Qcminus (deref s est) (deref s (region_estimate region_k)))) in *.
    set (s2 := update s1 err (map2 Qcminus (deref s err) (deref s (region_error region_k)))).
    assert (F : frame s s2 est err).
    { eapply frame_trans; apply frame_update; auto. }
    destruct (estimates_frame s s2 est err regions F Hrest) as [Ee Er].
    assert (Le : length (array_sum (length (deref s est)) (estimates_of s regions))
                 = length (deref s est)).
    { apply array_sum_length. unfold estimates_of. apply Forall_map.
      eapply Forall_impl; [|exact Hrest]. intros r Hr. apply Hr. }
    assert (Lr : length (array_sum (length (deref s err)) (errors_of s regions))
                 = length (deref s err)).
    { apply array_sum_length. unfold errors_of. apply Forall_map.
      eapply Forall_impl; [|exact Hrest]. intros r Hr. apply Hr. }
    assert (De : deref s2 est = array_sum (length (deref s est)) (estimates_of s regions)).
    { unfold s2. rewrite deref_update_neq by auto. unfold s1.
      rewrite deref_update_eq by auto.
      rewrite Hse at 1. unfold estimates_of at 1.
      rewrite (array_sum_perm _ _ _ (Permutation_map _ Hpop)).
      cbn [map array_sum fold_right].
      apply map2_plus_minus. fold (estimates_of s regions).
      fold (array_sum (length (deref s est)) (estimates_of s regions)). len. }
    assert (Dr : deref s2 err = array_sum (length (deref s err)) (errors_of s regions)).
    { unfold s2. rewrite deref_update_eq by (unfold s1; rewrite update_length; auto).
      rewrite Hsr at 1. unfold errors_of at 1.
      rewrite (array_sum_perm _ _ _ (Permutation_map _ Hpop)).
      cbn [map array_sum fold_right].
      apply map2_plus_minus. fold (errors_of s regions).
      fold (array_sum (length (deref s err)) (errors_of s regions)). len. }
    unfold refined. rewrite Ee, Er, De, Dr, Le, Lr.
    unfold s2, s1. rewrite !update_length. repeat split; auto.
    eapply Forall_impl; [|exact Hrest]. intros r.
    apply region_fresh_frame; auto; fold s1; fold s2; rewrite ?De, ?Dr; auto.
Qed.

Lemma refine_invariant st st' :
  driver_invariant st -> refine f rule st = Ok st' ->
  refined (st_store st') (st_est st') (st_err st') (st_regions st') /\
  st_subdivisions st' = (st_subdivisions st + 1)%Z.
Proof.
  intros Inv H. unfold refine in H.
  destruct (heapq.heappop _ _) as [[region_k regions]| |] eqn:Hpop;
    cbn [bind] in H; try discriminate.
  destruct (inplace Qcminus (st_store st) _ _) as [s1| |] eqn:H1;
    cbn [bind] in H; try discriminate.
  destruct (inplace Qcminus s1 _ _) as [s2| |] eqn:H2;
    cbn [bind] in H; try discriminate.
  destruct (_subregion_coordinates _ _) as [subs| |];
    cbn [bind] in H; try discriminate.
  destruct (foldM _ subs _) as [[s3 regions3]| |] eqn:Hc;
    cbn [bind] in H; try discriminate.
  injection H as <-. cbn [st_store st_est st_err st_regions st_subdivisions].
  split; [|reflexivity].
  eapply refine_children_refined; [|exact Hc].
  eapply refine_subtract; eauto.
Qed.

Lemma invariant_consistent st : driver_invariant st -> accumulator_consistent st.
Proof.
  intros [(Hest & Herr & Hne & a & b & dt0 & Hrs)|(_ & _ & _ & _ & He & Hr)].
  - unfold accumulator_consistent. rewrite Hrs.
    cbn [estimates_of errors_of map array_sum fold_right region_estimate region_error].
    now rewrite !map2_plus_zero.
  - split; assumption.
Qed.

Lemma initial_state_pristine est err dt a b : pristine (initial_state est err dt a b).
Proof.
  unfold pristine, initial_state. cbn. repeat split; try len. eauto.
Qed.

End DriverInvariant2.

Section Loop.

Variable f : integrand.
Variable rule : Cubature.
Variables rtol atol : Qc.
Variable max_subdivisions : option Z.

Lemma refinement_loop_invariant fuel : forall st st' success,
  driver_invariant st ->
  refinement_loop f rule rtol atol max_subdivisions fuel st = Ok (st', success) ->
  driver_invariant st'.
Proof.
  induction fuel as [|fuel IH]; intros st st' success Inv H; cbn [refinement_loop] in H;
    destruct (tolerance_violated _ _ _ _) as [[|]| |]; cbn [bind] in H;
    try discriminate; try (injection H as <- <-; exact Inv).
  destruct (refine f rule st) as [st1| |] eqn:E; cbn [bind] in H; try discriminate.
  assert (Inv1 : driver_invariant st1) by (right; eapply refine_invariant; eauto).
  destruct (budget_reached _ _).
  - injection H as <- <-. exact Inv1.
  - eapply IH; eauto.
Qed.

Lemma at_test_invariant st0 st :
  driver_invariant st0 ->
  at_test f rule rtol atol max_subdivisions st0 st -> driver_invariant st.
Proof.
  intros Inv0. induction 1 as [|st st' _ IH _ Hr _]; [exact Inv0|].
  right. eapply refine_invariant; eauto.
Qed.

Lemma make_result_consistent st success :
  accumulator_consistent st -> result_consistent (make_result rtol atol st success).
Proof.
  intros [He Hr]. unfold result_consistent, make_result.
  cbn [res_estimate res_error res_regions]. rewrite !map_map.
  cbn [value_estimate value_error region_value]. split; assumption.
Qed.

End Loop.

Lemma tested_states_consistent
      (f : integrand) (rule : Cubature) (rtol atol : Qc)
      (max_subdivisions : option Z) (dt : dtype) (a b est err : vec) (st : state) :
  at_test f rule rtol atol max_subdivisions (initial_state est err dt a b) st ->
  accumulator_consistent st.
Proof.
  intros H. apply invariant_consistent.
  eapply at_test_invariant; [|exact H]. left. apply initial_state_pristine.
Qed.

Lemma cubature_result_consistent
      (f : integrand) (rule : Cubature) (rtol atol : Qc)
      (max_subdivisions : option Z) (dt : dtype) (a b : vec) (fuel : nat) (res : CubatureResult) :
  cubature f rule rtol atol max_subdivisions fuel dt a b = Ok res ->
  result_consistent res.
Proof.
  intros H. unfold cubature in H.
  destruct (estimate rule f a b) as [est| |]; cbn [bind] in H; try discriminate.
  destruct (error_estimate rule f a b) as [err|[]|]; cbn [bind] in H; try discriminate.
  destruct (refinement_loop _ _ _ _ _ _ _) as [[st success]| |] eqn:E;
    cbn [bind] in H; try discriminate.
  injection H as <-. apply make_result_consistent, invariant_consistent.
  eapply refinement_loop_invariant; [|exact E]. left. apply initial_state_pristine.
Qed.

(** The loop of the model evaluates its condition on the states of
    [at_test] only: a run that ends normally ends in such a state, and a run
    that ends by [break] has refined such a state. *)
Lemma refinement_loop_at_test
      (f : integrand) (rule : Cubature) (rtol atol : Qc)
      (max_subdivisions : option Z) (st0 : state) (fuel : nat) :
  forall st st' success,
    at_test f rule rtol atol max_subdivisions st0 st ->
    refinement_loop f rule rtol atol max_subdivisions fuel st = Ok (st', success) ->
    if success then at_test f rule rtol atol max_subdivisions st0 st'
    else exists st_k,
        at_test f rule rtol atol max_subdivisions st0 st_k /\
        refine f rule st_k = Ok st' /\
        budget_reached max_subdivisions (st_subdivisions st') = true.
Proof.
  induction fuel as [|fuel IH]; intros st st' success Hst H; cbn [refinement_loop] in H;
    destruct (tolerance_violated _ _ _ _) as [[|]| |] eqn:T; cbn [bind] in H;
    try discriminate; try (injection H as <- <-; exact Hst).
  destruct (refine f rule st) as [st1| |] eqn:E; cbn [bind] in H; try discriminate.
  destruct (budget_reached _ _) eqn:B.
  - injection H as <- <-. eauto.
  - eapply IH; [|exact H]. eapply at_test_next; eauto.
Qed.

(** C3. Whenever the loop condition of [cubature] is evaluated, and in the
    returned [CubatureResult], the global estimate is the elementwise sum of
    the estimates of the regions of the working set, and the global error
    is the elementwise sum of their errors. *)
Theorem accumulator_is_sum_of_regions
        (f : integrand) (rule : Cubature) (rtol atol : Qc)
        (max_subdivisions : option Z) (dt : dtype) (a b : vec) :
  (forall est err st,
      at_test f rule rtol atol max_subdivisions (initial_state est err dt a b) st ->
      accumulator_consistent st) /\
  (forall est err fuel st,
      refinement_loop f rule rtol atol max_subdivisions fuel
                      (initial_state est err dt a b) = Ok (st, true) ->
      at_test f rule rtol atol max_subdivisions (initial_state est err dt a b) st) /\
  (forall fuel res,
      cubature f rule rtol atol max_subdivisions fuel dt a b = Ok res ->
      result_consistent res).
Proof.
  split; [|split].
  - intros est err st. apply tested_states_consistent.
  - intros est err fuel st H.
    exact (refinement_loop_at_test f rule rtol atol max_subdivisions _ fuel
             _ _ true (at_test_first _ _ _ _ _ _) H).
  - intros fuel res. apply cubature_result_consistent.
Qed.

Lemma accumulator_is_sum_of_regions_witness :
  exists res,
    cubature square midpoint_trapezoid 0 0 (Some 3%Z) 3 floating [0] [1] = Ok res /\
    res_subdivisions res = 3%Z /\
    result_consistent res.
Proof.
  destruct (cubature square midpoint_trapezoid 0 0 (Some 3%Z) 3 floating [0] [1])
    as [res| |] eqn:E.
  - exists res. split; [reflexivity|]. split.
    + vm_compute in E. injection E as <-. reflexivity.
    + exact (proj2 (proj2 (accumulator_is_sum_of_regions
                             square midpoint_trapezoid 0 0 (Some 3%Z) floating [0] [1])) _ _ E).
  - vm_compute in E. discriminate E.
  - vm_compute in E. discriminate E.
Defined.

(** ** C4: the subdivision budget *)

Section Budget.

Variable f : integrand.
Variable rule : Cubature.
Variables rtol atol : Qc.
Variable limit : Z.

Lemma refine_subdivisions st st' :
  refine f rule st = Ok st' -> st_subdivisions st' = (st_subdivisions st + 1)%Z.
Proof.
  unfold refine. intros H.
  destruct (heapq.heappop _ _) as [[region_k regions]| |]; cbn [bind] in H; try discriminate.
  destruct (inplace Qcminus (st_store st) _ _) as [s1| |]; cbn [bind] in H; try discriminate.
  destruct (inplace Qcminus s1 _ _) as [s2| |]; cbn [bind] in H; try discriminate.
  destruct (_subregion_coordinates _ _) as [subs| |]; cbn [bind] in H; try discriminate.
  destruct (foldM _ subs _) as [[s3 regions3]| |]; cbn [bind] in H; try discriminate.
  now injection H as <-.
Qed.

(** While the loop runs the counter stays below the limit; it leaves the
    loop through [break] exactly when the counter reaches the limit. *)
Lemma refinement_loop_budget fuel : forall st st' success,
  (st_subdivisions st < limit)%Z ->
  refinement_loop f rule rtol atol (Some limit) fuel st = Ok (st', success) ->
  if success then (st_subdivisions st' < limit)%Z else st_subdivisions st' = limit.
Proof.
  induction fuel as [|fuel IH]; intros st st' success Hlt H; cbn [refinement_loop] in H;
    destruct (tolerance_violated _ _ _ _) as [[|]| |]; cbn [bind] in H;
    try discriminate; try (injection H as <- <-; exact Hlt).
  destruct (refine f rule st) as [st1| |] eqn:E; cbn [bind] in H; try discriminate.
  apply refine_subdivisions in E. cbn [budget_reached] in H.
  destruct (limit <=? st_subdivisions st1)%Z eqn:B.
  - injection H as <- <-. apply Z.leb_le in B. lia.
  - apply Z.leb_gt in B. eapply IH; eauto.
Qed.

Hypothesis rule_returns : forall a b,
  estimate rule f a b <> OutOfFuel /\ error_estimate rule f a b <> OutOfFuel.

Lemma refine_children_return est err subs : forall acc,
  foldM (refine_subregion f rule est err) subs acc <> OutOfFuel.
Proof.
  induction subs as [|[a_sub b_sub] subs IH]; intros [s regions]; cbn [foldM];
    [discriminate|].
  unfold refine_subregion at 1.
  destruct (rule_returns a_sub b_sub) as [He Hr].
  destruct (estimate rule f a_sub b_sub); cbn [bind]; try discriminate; try congruence.
  unfold alloc.
  destruct (error_estimate rule f a_sub b_sub); cbn [bind]; try discriminate; try congruence.
  unfold inplace, np.elementwise.
  repeat (match goal with
          | |- context [if ?c then _ else _] => destruct c
          end; cbn [bind]; try discriminate).
  apply IH.
Qed.

Lemma refine_returns st : refine f rule st <> OutOfFuel.
Proof.
  unfold refine.
  destruct (heapq.heappop _ _) as [[region_k regions]|e|] eqn:Hpop; cbn [bind];
    try discriminate.
  2:{ unfold heapq.heappop in Hpop. destruct (rev _) as [|? front]; [discriminate|].
      destruct (rev front); discriminate. }
  unfold inplace, np.elementwise.
  repeat (match goal with
          | |- context [if ?c then _ else _] => destruct c
          end; cbn [bind]; try discriminate).
  unfold _subregion_coordinates.
  destruct (_ =? _); cbn [bind]; try discriminate.
  match goal with
  | |- context [foldM ?g ?l ?acc] =>
      pose proof (refine_children_return (st_est st) (st_err st) l acc) as Hc;
      destruct (foldM g l acc) as [[s3 regions3]| |]
  end; cbn [bind]; try discriminate. congruence.
Qed.

Lemma refinement_loop_returns fuel : forall st,
  (st_subdivisions st < limit)%Z ->
  (Z.to_nat (limit - st_subdivisions st) <= fuel)%nat ->
  refinement_loop f rule rtol atol (Some limit) fuel st <> OutOfFuel.
Proof.
  induction fuel as [|fuel IH]; intros st Hlt Hfuel; [lia|].
  cbn [refinement_loop].
  destruct (tolerance_violated _ _ _ _) as [[|]| |] eqn:T; cbn [bind]; try discriminate.
  - pose proof (refine_returns st) as R.
    destruct (refine f rule st) as [st1| |] eqn:E; cbn [bind]; try discriminate;
      try congruence.
    apply refine_subdivisions in E. cbn [budget_reached].
    destruct (limit <=? st_subdivisions st1)%Z eqn:B; [discriminate|].
    apply Z.leb_gt in B. apply IH; lia.
  - unfold tolerance_violated in T. destruct (_ =? _); [discriminate|].
    destruct (deref _ (st_err st)) as [|r [|r' err]];
      destruct (deref _ (st_est st)) as [|e [|e' est]]; discriminate.
Qed.

End Budget.

(** X17. For every [max_subdivisions >= 1]: a run that ends with
    [success = False] has status ["not_converged"], carries the accumulated
    estimate and error (the sums over the regions left), and has performed
    exactly [max_subdivisions] subdivisions; a run that ends with
    [success = True] has performed fewer; and the loop ends within
    [max_subdivisions] turns when the rule's methods return. *)
Theorem budget_exhausted_result
        (f : integrand) (rule : Cubature) (rtol atol : Qc) (limit : Z) (dt : dtype) (a b : vec) :
  (1 <= limit)%Z ->
  (forall fuel res,
      cubature f rule rtol atol (Some limit) fuel dt a b = Ok res ->
      res_success res = false ->
      res_status res = "not_converged"%string /\
      res_subdivisions res = limit /\
      result_consistent res) /\
  (forall fuel res,
      cubature f rule rtol atol (Some limit) fuel dt a b = Ok res ->
      res_success res = true ->
      res_status res = "converged"%string /\ (res_subdivisions res < limit)%Z) /\
  ((forall a' b', estimate rule f a' b' <> OutOfFuel /\
                  error_estimate rule f a' b' <> OutOfFuel) ->
   forall fuel, (Z.to_nat limit <= fuel)%nat ->
     cubature f rule rtol atol (Some limit) fuel dt a b <> OutOfFuel).
Proof.
  intros Hlimit. split; [|split].
  - intros fuel res H Hs.
    pose proof (cubature_result_consistent f rule rtol atol (Some limit) dt a b
                                           fuel res H) as Hc.
    unfold cubature in H.
    destruct (estimate rule f a b) as [est| |]; cbn [bind] in H; try discriminate.
    destruct (error_estimate rule f a b) as [err|[]|]; cbn [bind] in H; try discriminate.
    destruct (refinement_loop _ _ _ _ _ _ _) as [[st success]| |] eqn:E;
      cbn [bind] in H; try discriminate.
    injection H as <-. cbn [make_result res_success] in Hs. subst success.
    apply refinement_loop_budget in E; [|cbn; lia].
    cbn [make_result res_status res_subdivisions]. auto.
  - intros fuel res H Hs. unfold cubature in H.
    destruct (estimate rule f a b) as [est| |]; cbn [bind] in H; try discriminate.
    destruct (error_estimate rule f a b) as [err|[]|]; cbn [bind] in H; try discriminate.
    destruct (refinement_loop _ _ _ _ _ _ _) as [[st success]| |] eqn:E;
      cbn [bind] in H; try discriminate.
    injection H as <-. cbn [make_result res_success] in Hs. subst success.
    apply refinement_loop_budget in E; [|cbn; lia].
    cbn [make_result res_status res_subdivisions]. auto.
  - intros Hrule fuel Hfuel. unfold cubature.
    destruct (Hrule a b) as [He Hr].
    destruct (estimate rule f a b) as [est| |]; cbn [bind]; try discriminate;
      try congruence.
    destruct (error_estimate rule f a b) as [err|[]|]; cbn [bind]; try discriminate;
      try congruence.
    pose proof (refinement_loop_returns f rule rtol atol limit Hrule fuel
                  (initial_state est err dt a b)) as R.
    destruct (refinement_loop _ _ _ _ _ _ _) as [[st success]| |]; cbn [bind];
      try discriminate.
    exfalso. apply R; cbn; try lia. reflexivity.
Qed.

Lemma budget_exhausted_result_witness :
  (1 <= 2)%Z /\
  exists res,
    cubature square midpoint_trapezoid 0 0 (Some 2%Z) 2 floating [0] [1] = Ok res /\
    res_success res = false /\
    res_status res = "not_converged"%string /\
    res_subdivisions res = 2%Z.
Proof.
  split; [lia|].
  destruct (cubature square midpoint_trapezoid 0 0 (Some 2%Z) 2 floating [0] [1])
    as [res| |] eqn:E.
  - exists res. split; [reflexivity|].
    assert (Hs : res_success res = false)
      by (vm_compute in E; injection E as <-; reflexivity).
    split; [exact Hs|].
    destruct (budget_exhausted_result square midpoint_trapezoid 0 0 2 floating [0] [1])
      as (H & _); [lia|].
    destruct (H _ _ E Hs) as (H1 & H2 & _). split; assumption.
  - vm_compute in E. discriminate E.
  - vm_compute in E. discriminate E.
Defined.

(** C4. With [max_subdivisions = 0] the budget is exceeded: it is only
    checked after a refinement, so on [f(x) = x^2] over [[0, 1]] with both
    tolerances zero [cubature] performs one subdivision and returns
    [success = False], status ["not_converged"] and [subdivisions = 1], which
    is neither equal to the limit nor bounded by it. *)
Theorem budget_zero_performs_a_subdivision :
  exists res,
    cubature square midpoint_trapezoid 0 0 (Some 0%Z) 1 floating [0] [1] = Ok res /\
    res_success res = false /\
    res_status res = "not_converged"%string /\
    res_subdivisions res = 1%Z /\
    res_subdivisions res <> 0%Z.
Proof.
  destruct (cubature square midpoint_trapezoid 0 0 (Some 0%Z) 1 floating [0] [1])
    as [res| |] eqn:E; vm_compute in E; try discriminate E.
  injection E as <-. eexists. split; [reflexivity|].
  repeat split. discriminate.
Qed.

(** C9 (amended). For every rule whose [estimate] returns on [(f, a, b)]
    and whose [error_estimate] raises [NotImplementedError], [cubature]
    raises the invalid-rule [ValueError], whatever the fuel: before the loop
    starts and before any subdivision. *)
Theorem cubature_rejects_rule_without_error_estimate
        (f : integrand) (rule : Cubature) (rtol atol : Qc)
        (max_subdivisions : option Z) (dt : dtype) (a b est : vec) :
  estimate rule f a b = Ok est ->
  error_estimate rule f a b = Raise NotImplementedError ->
  forall fuel,
    cubature f rule rtol atol max_subdivisions fuel dt a b = Raise invalid_rule_error /\
    invalid_rule_error
    = ValueError "attempting cubature with a rule that doesn't implement error estimation.".
Proof.
  intros He Hr fuel. unfold cubature. rewrite He, Hr. cbn [bind]. auto.
Qed.

Lemma cubature_rejects_rule_without_error_estimate_witness :
  estimate (FixedCubature (Ok ([[0]], [qz 2]))) square [0] [1] = Ok [qz 1 / qz 4] /\
  error_estimate (FixedCubature (Ok ([[0]], [qz 2]))) square [0] [1]
  = Raise NotImplementedError /\
  cubature square (FixedCubature (Ok ([[0]], [qz 2]))) 0 0 None 0 floating [0] [1]
  = Raise invalid_rule_error /\
  cubature square (FixedCubature (Ok ([[0]], [qz 2]))) 0 0 (Some 5%Z) 9 floating [0] [1]
  = Raise invalid_rule_error.
Proof.
  assert (He : estimate (FixedCubature (Ok ([[0]], [qz 2]))) square [0] [1]
               = Ok [qz 1 / qz 4]) by qc_compute.
  split; [exact He|]. split; [reflexivity|]. split.
  - exact (proj1 (cubature_rejects_rule_without_error_estimate
                    square (FixedCubature (Ok ([[0]], [qz 2]))) 0 0 None floating [0] [1] _
                    He eq_refl 0%nat)).
  - exact (proj1 (cubature_rejects_rule_without_error_estimate
                    square (FixedCubature (Ok ([[0]], [qz 2]))) 0 0 (Some 5%Z) floating [0] [1] _
                    He eq_refl 9%nat)).
Defined.

(** C9 as stated fails when [estimate] itself raises: the base class
    [Cubature] lets the raw [NotImplementedError] through, and a fixed rule
    of the wrong dimension raises the dimension error instead. *)
Lemma raw_not_implemented_counterexample :
  error_estimate Cubature_base square [0] [1] = Raise NotImplementedError /\
  (forall fuel, cubature square Cubature_base 0 0 None fuel floating [0] [1]
                = Raise NotImplementedError) /\
  error_estimate (FixedCubature (Ok ([[0]], [qz 2]))) square [0; 0] [1; 1]
  = Raise NotImplementedError /\
  (forall fuel, cubature square (FixedCubature (Ok ([[0]], [qz 2]))) 0 0 None fuel
                         floating [0; 0] [1; 1]
                = Raise dimension_error) /\
  dimension_error <> invalid_rule_error.
Proof.
  repeat split; try reflexivity. discriminate.
Qed.

Lemma tolerance_met (rtol atol : Qc) (est err : vec) :
  length err = length est ->
  (forall i, (i < length est)%nat -> nth i err 0 <= atol + rtol * Qcabs (nth i est 0)) ->
  tolerance_violated rtol atol est err = Ok false.
Proof.
  intros Hl H. unfold tolerance_violated. rewrite Hl, Nat.eqb_refl. f_equal.
  destruct (existsb _ _) eqn:E; [|reflexivity].
  apply existsb_exists in E as ([e s] & Hin & Hlt). cbn [fst snd] in Hlt.
  apply (In_nth _ _ (0, 0)) in Hin as (i & Hi & Hn).
  rewrite length_combine in Hi. rewrite combine_nth in Hn by exact Hl.
  injection Hn as <- <-.
  pose proof (Qcltb_spec (atol + rtol * Qcabs (nth i est 0)) (nth i err 0)) as S.
  rewrite Hlt in S. specialize (H i ltac:(len)).
  now apply Qcle_not_lt in H.
Qed.

(** C10. If the initial estimate and error over [[a, b]] satisfy the
    tolerance componentwise, [cubature] returns without a turn of the loop
    (with no fuel at all): no subdivision, [success = True], status
    ["converged"], and one region holding [a], [b] and the initial estimate
    and error. *)
Theorem cubature_converged_at_once
        (f : integrand) (rule : Cubature) (rtol atol : Qc)
        (max_subdivisions : option Z) (dt : dtype) (a b est err : vec) :
  estimate rule f a b = Ok est ->
  error_estimate rule f a b = Ok err ->
  length err = length est ->
  (forall i, (i < length est)%nat -> nth i err 0 <= atol + rtol * Qcabs (nth i est 0)) ->
  forall fuel,
    cubature f rule rtol atol max_subdivisions fuel dt a b
    = Ok {| res_estimate := est; res_error := err;
            res_success := true; res_status := "converged";
            res_regions := [ {| value_estimate := est; value_error := err;
                                value_a := a; value_b := b |} ];
            res_subdivisions := 0;
            res_atol := atol; res_rtol := rtol |}.
Proof.
  intros He Hr Hl Htol fuel. unfold cubature. rewrite He, Hr. cbn [bind].
  assert (T : tolerance_violated rtol atol est err = Ok false) by now apply tolerance_met.
  destruct fuel; cbn [refinement_loop initial_state alloc st_store st_est st_err];
    cbn [deref length app nth]; rewrite T; reflexivity.
Qed.

Lemma cubature_converged_at_once_witness :
  cubature square midpoint_trapezoid 0 (qz 1) None 0 floating [0] [1]
  = Ok {| res_estimate := [qz 1 / qz 4]; res_error := [qz 1 / qz 4];
          res_success := true; res_status := "converged";
          res_regions := [ {| value_estimate := [qz 1 / qz 4];
                              value_error := [qz 1 / qz 4];
                              value_a := [0]; value_b := [1] |} ];
          res_subdivisions := 0;
          res_atol := qz 1; res_rtol := 0 |}.
Proof.
  assert (He : estimate midpoint_trapezoid square [0] [1] = Ok [qz 1 / qz 4])
    by qc_compute.
  assert (Hr : error_estimate midpoint_trapezoid square [0] [1] = Ok [qz 1 / qz 4])
    by qc_compute.
  apply (cubature_converged_at_once square midpoint_trapezoid 0 (qz 1) None
           floating [0] [1] _ _ He Hr eq_refl).
  intros [|i] Hi; [|simpl in Hi; lia]. cbn [nth]. now vm_compute.
Defined.

(** ** X1: a converged result meets the tolerance *)

Lemma tolerance_not_violated (rtol atol : Qc) (est err : vec) :
  tolerance_violated rtol atol est err = Ok false ->
  forall i j, (i < length err)%nat -> (j < length est)%nat ->
    i = j \/ length err = 1%nat \/ length est = 1%nat ->
    nth i err 0 <= atol + rtol * Qcabs (nth j est 0).
Proof.
  unfold tolerance_violated. intros H i j Hi Hj Hij.
  pose proof (Qcltb_spec (atol + rtol * Qcabs (nth j est 0)) (nth i err 0)) as Hq.
  destruct (Qcltb _ _) eqn:E; [|exact Hq]. exfalso.
  destruct (length err =? length est) eqn:L.
  - apply Nat.eqb_eq in L. injection H as H.
    apply Bool.not_true_iff_false in H. apply H.
    assert (i = j) by (destruct Hij as [|[|]]; lia). subst j.
    apply existsb_exists. exists (nth i err 0, nth i est 0). split; [|exact E].
    rewrite <- combine_nth by exact L. apply nth_In. rewrite length_combine. len.
  - apply Nat.eqb_neq in L.
    destruct err as [|r [|r' err]]; [cbn in Hi; lia| |].
    + injection H as H. apply Bool.not_true_iff_false in H. apply H.
      destruct i; [|cbn in Hi; lia]. cbn [nth] in E.
      apply existsb_exists. exists (nth j est 0). split; [now apply nth_In|exact E].
    + destruct est as [|e [|e' est]]; try discriminate H.
      injection H as H. apply Bool.not_true_iff_false in H. apply H.
      destruct j; [|cbn in Hj; lia]. change (nth 0 [e] 0) with e in E.
      apply (proj2 (existsb_exists (fun r0 => Qcltb (atol + rtol * Qcabs e) r0)
                                   (r :: r' :: err))).
      exists (nth i (r :: r' :: err) 0). split; [now apply nth_In|exact E].
Qed.

Lemma refinement_loop_converged f rule rtol atol max fuel : forall st st',
  refinement_loop f rule rtol atol max fuel st = Ok (st', true) ->
  tolerance_violated rtol atol (deref (st_store st') (st_est st'))
                     (deref (st_store st') (st_err st')) = Ok false.
Proof.
  induction fuel as [|fuel IH]; intros st st' H; cbn [refinement_loop] in H;
    destruct (tolerance_violated _ _ _ _) as [[|]| |] eqn:T; cbn [bind] in H;
    try discriminate; try (injection H as <-; exact T).
  destruct (refine f rule st) as [st1| |]; cbn [bind] in H; try discriminate.
  destruct (budget_reached _ _); [discriminate|]. eauto.
Qed.

(** X1. When [cubature] reports success, every entry of the error it returns
    meets the tolerance against the entry of the estimate it is compared with:
    [error_i <= atol + rtol * |estimate_j|], for the same position [i = j]
    and, as the comparison broadcasts, for every pair of positions when the
    error or the estimate has a single entry. *)
Theorem converged_result_meets_tolerance
        (f : integrand) (rule : Cubature) (rtol atol : Qc)
        (max_subdivisions : option Z) (fuel : nat) (dt : dtype) (a b : vec)
        (res : CubatureResult) :
  cubature f rule rtol atol max_subdivisions fuel dt a b = Ok res ->
  res_success res = true ->
  forall i j, (i < length (res_error res))%nat ->
              (j < length (res_estimate res))%nat ->
    i = j \/ length (res_error res) = 1%nat \/ length (res_estimate res) = 1%nat ->
    nth i (res_error res) 0 <= atol + rtol * Qcabs (nth j (res_estimate res) 0).
Proof.
  intros H Hs. unfold cubature in H.
  destruct (estimate rule f a b) as [est| |]; cbn [bind] in H; try discriminate.
  destruct (error_estimate rule f a b) as [err|[]|]; cbn [bind] in H; try discriminate.
  destruct (refinement_loop _ _ _ _ _ _ _) as [[st success]| |] eqn:E;
    cbn [bind] in H; try discriminate.
  injection H as <-. cbn [make_result res_success] in Hs. subst success.
  apply refinement_loop_converged in E.
  cbn [make_result res_error res_estimate]. now apply tolerance_not_violated.
Qed.

Lemma converged_result_meets_tolerance_witness :
  exists res,
    cubature square midpoint_trapezoid 0 (qz 1 / qz 100) None 8 floating [0] [1] = Ok res /\
    res_success res = true /\
    res_subdivisions res = 5%Z /\
    nth 0 (res_error res) 0 <= qz 1 / qz 100 + 0 * Qcabs (nth 0 (res_estimate res) 0).
Proof.
  destruct (cubature square midpoint_trapezoid 0 (qz 1 / qz 100) None 8 floating [0] [1])
    as [res| |] eqn:E.
  - assert (Hs : res_success res = true)
      by (vm_compute in E; injection E as <-; reflexivity).
    assert (Hn : res_subdivisions res = 5%Z)
      by (vm_compute in E; injection E as <-; reflexivity).
    assert (He : (0 < length (res_error res))%nat)
      by (vm_compute in E; injection E as <-; vm_compute; lia).
    assert (Hl : (0 < length (res_estimate res))%nat)
      by (vm_compute in E; injection E as <-; vm_compute; lia).
    exists res. repeat split; auto.
    exact (converged_result_meets_tolerance _ _ _ _ _ _ _ _ _ _ E Hs 0%nat 0%nat
             He Hl (or_introl eq_refl)).
  - vm_compute in E. discriminate E.
  - vm_compute in E. discriminate E.
Defined.

(** ** X3: the closed Newton-Cotes nodes *)

Lemma qz_2 : qz 2 = 1 + 1.
Proof. now qc_eq. Qed.

Lemma closed_step_nonzero n : (2 <= n)%nat -> qn (n - 1) <> 0.
Proof.
  intros H E.
  assert (Q : (this (qn (n - 1)) == this 0)%Q) by (now rewrite E).
  assert (P : qn 1 <= qn (n - 1)) by (apply qn_le; lia).
  assert (P' : (1 <= this (qn (n - 1)))%Q) by exact P.
  rewrite Q in P'. now vm_compute in P'.
Qed.

Lemma closed_node_bounds_Q (M K : Q) :
  (0 < M -> 0 <= K -> K <= M ->
   - (1) <= K * (inject_Z 2 * / M) + - (1) /\ K * (inject_Z 2 * / M) + - (1) <= 1)%Q.
Proof.
  intros HM H0 H1.
  assert (T0 : (0 <= K / M)%Q) by (apply Qle_shift_div_l; lra).
  assert (T1 : (K / M <= 1)%Q) by (apply Qle_shift_div_r; lra).
  assert (E : (K * (inject_Z 2 * / M) == 2 * (K / M))%Q) by (unfold Qdiv; ring).
  rewrite E. split; lra.
Qed.

(** X3. For [npoints >= 2] the nodes of the closed Newton-Cotes rule are one row
    of [npoints] equally spaced points: the first is [-1], the last is [1],
    consecutive nodes are [2 / (npoints - 1)] apart, the row is symmetric about
    [0] and every node lies in [[-1, 1]]. *)
Theorem NewtonCotes_closed_nodes (npoints : nat) :
  (2 <= npoints)%nat ->
  exists row : vec,
    NewtonCotes_nodes npoints false = [row] /\
    length row = npoints /\
    nth 0 row 0 = - (1) /\
    nth (npoints - 1) row 0 = 1 /\
    (forall k, (S k < npoints)%nat ->
       nth (S k) row 0 - nth k row 0 = qz 2 / qn (npoints - 1)) /\
    (forall k, (k < npoints)%nat ->
       nth (npoints - 1 - k) row 0 = - nth k row 0) /\
    (forall k, (k < npoints)%nat -> - (1) <= nth k row 0 /\ nth k row 0 <= 1).
Proof.
  intros Hn. pose proof (closed_step_nonzero npoints Hn) as Hz.
  set (M := qn (npoints - 1)) in *.
  assert (Hnth : forall k, (k < npoints)%nat ->
            nth k (np.linspace (- (1)) 1 npoints) 0 = qn k * (qz 2 / M) + - (1)).
  { intros k Hk. rewrite linspace_nth by exact Hk. fold M.
    replace (1 - - (1)) with (qz 2) by now qc_eq. reflexivity. }
  exists (np.linspace (- (1)) 1 npoints).
  split; [reflexivity|]. split; [apply linspace_length|].
  split; [|split; [|split; [|split]]].
  - rewrite Hnth by lia. rewrite qn_0. ring.
  - rewrite Hnth by lia. fold M. rewrite qz_2. field. exact Hz.
  - intros k Hk. rewrite !Hnth by lia. rewrite qn_S. field. exact Hz.
  - intros k Hk. rewrite !Hnth by lia.
    assert (E : qn (npoints - 1 - k) = M - qn k).
    { unfold M, qn. replace (Z.of_nat (npoints - 1 - k))
        with (Z.of_nat (npoints - 1) - Z.of_nat k)%Z by lia. apply qz_sub. }
    rewrite E, qz_2. field. exact Hz.
  - intros k Hk. rewrite Hnth by lia.
    assert (H0 : 0 <= qn k) by (change 0 with (qn 0); apply qn_le; lia).
    assert (H1 : qn k <= M) by (apply qn_le; lia).
    assert (HM : 0 < M).
    { apply Qclt_le_trans with (qn 1); [now vm_compute | apply qn_le; lia]. }
    revert H0 H1 HM. generalize (qn k) M. intros K N H0 H1 HM.
    qc2q. now apply closed_node_bounds_Q.
Qed.

Lemma NewtonCotes_closed_nodes_witness :
  exists row : vec,
    NewtonCotes_nodes 3 false = [row] /\ length row = 3%nat /\
    nth 0 row 0 = - (1) /\ nth 2 row 0 = 1.
Proof.
  destruct (NewtonCotes_closed_nodes 3 ltac:(lia)) as (row & E & L & H0 & H1 & _).
  exists row. repeat split; assumption.
Defined.

(** ** X4: constants are integrated exactly on every box *)





(** ** The error from a difference is a magnitude *)

Lemma Qcabs_nonneg x : 0 <= Qcabs x.
Proof.
  unfold Qcabs. pose proof (Qcltb_spec x 0) as S.
  destruct (Qcltb x 0); [|exact S].
  qc2q. lra.
Qed.

Lemma difference_error_nonnegative
        (rule lower_rule : result (matrix * vec)) (f : integrand) (a b err : vec) :
  error_estimate (ErrorFromDifference rule lower_rule) f a b = Ok err ->
  Forall (fun x => 0 <= x) err.
Proof.
  cbn [error_estimate ErrorFromDifference]. unfold ErrorFromDifference_error_estimate.
  destruct rule as [[nodes weights]| |]; cbn [bind]; try discriminate.
  destruct lower_rule as [[lnodes lweights]| |]; cbn [bind]; try discriminate.
  destruct (np.concat_last _ _); cbn [bind]; try discriminate.
  destruct (_apply_rule _ _ _ _) as [r| |]; cbn [bind]; try discriminate.
  intros H; injection H as <-. unfold np.abs.
  apply Forall_forall. intros v Hv. apply in_map_iff in Hv as (y & <- & _).
  apply Qcabs_nonneg.
Qed.

(** ** One refinement step, region by region *)

Section Decompose.

Variable f : integrand.
Variable rule : Cubature.

Lemma region_unchanged_frame s s' est err r :
  frame s s' est err -> region_fresh s est err r -> region_unchanged s s' r.
Proof.
  intros [_ F] (H1 & H2 & H3 & H4 & H5 & H6 & _). split; now apply F.
Qed.

Lemma region_evaluated_unchanged s s' r :
  region_unchanged s s' r -> region_evaluated f rule s r -> region_evaluated f rule s' r.
Proof. intros [U1 U2] [E1 E2]. unfold region_evaluated. now rewrite U1, U2. Qed.

(** One turn of the loop over the subregions: a region is made for the
    subregion, with new arrays holding the rule's two estimates; it is
    pushed on the heap; the other regions keep their arrays. *)
Lemma refine_subregion_step est err s regions sub s' regions' :
  refined s est err regions ->
  refine_subregion f rule est err (s, regions) sub = Ok (s', regions') ->
  exists c,
    region_bounds c = sub /\
    region_dtype c = floating /\
    regions' = heapq.heappush (CubatureRegion_lt s') regions c /\
    frame s s' est err /\
    region_evaluated f rule s' c.
Proof.
  intros (Hest & Herr & Hne & Hfresh & _ & _) H.
  unfold refine_subregion in H. destruct sub as [a_sub b_sub].
  destruct (estimate rule f a_sub b_sub) as [ev| |] eqn:Ee; cbn [bind] in H; try discriminate.
  unfold alloc in H.
  destruct (error_estimate rule f a_sub b_sub) as [rv| |] eqn:Er; cbn [bind] in H; try discriminate.
  set (sa := s ++ [ev]) in *. set (sb := sa ++ [rv]) in *.
  assert (La : length sa = S (length s)) by (unfold sa; rewrite length_app; simpl; len).
  assert (Lb : length sb = S (S (length s))) by (unfold sb; rewrite length_app; simpl; len).
  assert (Dev : deref sb (length s) = ev).
  { unfold sb. rewrite deref_alloc_old by len. apply deref_alloc_new. }
  assert (Drv : deref sb (length sa) = rv) by apply deref_alloc_new.
  assert (Fb : frame s sb est err) by (eapply frame_trans; apply frame_alloc).
  rewrite Dev in H.
  destruct (inplace Qcplus sb est ev) as [sc| |] eqn:Hc; cbn [bind] in H; try discriminate.
  apply inplace_Ok in Hc as [_ ->].
  set (sc := update sb est _) in *.
  assert (Drc : deref sc (length sa) = rv).
  { unfold sc. rewrite deref_update_neq by len. exact Drv. }
  rewrite Drc in H.
  destruct (inplace Qcplus sc err rv) as [sd| |] eqn:Hd; cbn [bind] in H; try discriminate.
  apply inplace_Ok in Hd as [_ ->].
  set (sd := update sc err _) in *.
  injection H as <- <-.
  exists {| region_estimate := length s; region_error := length sa;
            region_a := a_sub; region_b := b_sub;
                        region_dtype := floating |}.
  split; [reflexivity|]. split; [reflexivity|]. split; [reflexivity|]. split.
  - eapply frame_trans; [exact Fb|]. eapply frame_trans; apply frame_update; auto.
  - unfold region_evaluated. cbn [region_a region_b region_estimate region_error].
    unfold sd, sc. rewrite !deref_update_neq by len. now rewrite Dev, Drv, Ee, Er.
Qed.

Lemma refine_children_decompose est err subs : forall s regions s' regions',
  refined s est err regions ->
  foldM (refine_subregion f rule est err) subs (s, regions) = Ok (s', regions') ->
  exists children,
    map region_bounds children = subs /\
    Forall (fun c => region_dtype c = floating) children /\
    Permutation regions' (children ++ regions) /\
    frame s s' est err /\
    Forall (region_evaluated f rule s') children.
Proof.
  induction subs as [|sub subs IH]; intros s regions s' regions' Hr H; cbn [foldM] in H.
  - injection H as <- <-. exists []. repeat split; auto.
  - destruct (refine_subregion f rule est err (s, regions) sub) as [[s1 regions1]| |] eqn:E;
      cbn [bind] in H; try discriminate.
    pose proof (refine_subregion_refined f rule _ _ _ _ _ _ _ Hr E) as Hr1.
    destruct (refine_subregion_step _ _ _ _ _ _ _ Hr E) as (c & Hb & Hdt & Hpush & F1 & Ec).
    destruct (IH _ _ _ _ Hr1 H) as (children & Hm & Hdts & P & F2 & Ech).
    assert (P1 : Permutation regions1 (c :: regions))
      by (rewrite Hpush; apply heappush_perm).
    exists (c :: children). split; [cbn [map]; now rewrite Hb, Hm|].
    split; [now constructor|]. split; [|split].
    + eapply perm_trans; [exact P|]. rewrite P1.
      symmetry. cbn [app]. apply Permutation_middle.
    + eapply frame_trans; eauto.
    + constructor; [|exact Ech].
      eapply region_evaluated_unchanged; [|exact Ec].
      eapply region_unchanged_frame; [exact F2|].
      destruct Hr1 as (_ & _ & _ & Hf1 & _).
      rewrite Forall_forall in Hf1. apply Hf1.
      eapply Permutation_in; [symmetry; exact P1|]. now left.
Qed.

(** The whole body of the loop: the worst region is popped and replaced by
    the regions of its subregions. *)
Lemma refine_decompose st st' :
  driver_invariant st -> refine f rule st = Ok st' ->
  exists region_k rest children,
    heapq.heappop (CubatureRegion_lt (st_store st)) (st_regions st) = Ok (region_k, rest) /\
    Permutation (st_regions st) (region_k :: rest) /\
    _subregion_coordinates (region_dtype region_k) (region_a region_k) (region_b region_k)
    = Ok (map region_bounds children) /\
    Forall (fun c => region_dtype c = floating) children /\
    Permutation (st_regions st') (children ++ rest) /\
    Forall (region_unchanged (st_store st) (st_store st')) rest /\
    Forall (region_evaluated f rule (st_store st')) children.
Proof.
  intros Inv H. unfold refine in H.
  destruct (heapq.heappop _ _) as [[region_k rest]| |] eqn:Hpop;
    cbn [bind] in H; try discriminate.
  destruct (inplace Qcminus (st_store st) _ _) as [s1| |] eqn:H1;
    cbn [bind] in H; try discriminate.
  destruct (inplace Qcminus s1 _ _) as [s2| |] eqn:H2;
    cbn [bind] in H; try discriminate.
  destruct (_subregion_coordinates _ _) as [subs| |] eqn:Hsub;
    cbn [bind] in H; try discriminate.
  destruct (foldM _ subs _) as [[s3 regions3]| |] eqn:Hc;
    cbn [bind] in H; try discriminate.
  injection H as <-. cbn [st_store st_regions].
  pose proof (refine_subtract st region_k rest s1 s2 Inv Hpop H1 H2) as Hr2.
  destruct (refine_children_decompose _ _ _ _ _ _ _ Hr2 Hc)
    as (children & Hm & Hdts & P & F & Ech).
  exists region_k, rest, children.
  pose proof (heappop_perm _ _ _ _ Hpop) as Pp.
  repeat split; auto; try (now rewrite Hm).
  (* the regions left in the heap keep their arrays *)
  destruct Inv as [(Hest & Herr & Hne & a & b & dt0 & Hrs)|(Hest & Herr & Hne & Hfresh & _ & _)].
  - rewrite Hrs in Pp. apply Permutation_length in Pp. destruct rest; [constructor|].
    simpl in Pp. lia.
  - pose proof (Permutation_Forall Pp Hfresh) as Hf'.
    inversion Hf' as [|? ? _ Hrest]; subst.
    apply inplace_Ok in H1 as [_ ->]. apply inplace_Ok in H2 as [_ ->].
    eapply Forall_impl; [|exact Hrest]. intros r Hr.
    eapply region_unchanged_frame; [|exact Hr].
    eapply frame_trans; [|exact F].
    eapply frame_trans; apply frame_update; auto.
Qed.

End Decompose.

(** ** What the driver keeps true of its working set *)

Lemma vec_le_refl u : vec_le u u.
Proof. split; [reflexivity|]. intros. apply Qcle_refl. Qed.

Lemma vec_le_trans u v w : vec_le u v -> vec_le v w -> vec_le u w.
Proof.
  intros [L1 H1] [L2 H2]. split; [len|].
  intros i Hi. eapply Qcle_trans; [apply H1 | apply H2]; len.
Qed.

Lemma sum_perm (l l' : vec) : Permutation l l' -> np.sum l = np.sum l'.
Proof.
  unfold np.sum. induction 1; simpl; try congruence. ring.
Qed.

Lemma regions_volume_perm l l' :
  Permutation l l' -> regions_volume l = regions_volume l'.
Proof. intros P. unfold regions_volume. apply sum_perm. now apply Permutation_map. Qed.

Lemma regions_volume_app l l' :
  regions_volume (l ++ l') = regions_volume l + regions_volume l'.
Proof. unfold regions_volume. now rewrite map_app, sum_app. Qed.

Lemma regions_volume_single r :
  regions_volume [r] = volume (region_a r) (region_b r).
Proof. unfold regions_volume, np.sum. cbn [map fold_right]. ring. Qed.

Lemma child_inside a b s :
  vec_le a b -> length s = length a ->
  box_inside a b (fst (child a b s)) (snd (child a b s)).
Proof.
  intros [Hab Hle] Hs.
  assert (Hm : length (midpoint a b) = length a) by now apply midpoint_length.
  assert (Hmid : forall i, (i < length a)%nat ->
            nth i a 0 <= nth i (midpoint a b) 0 /\ nth i (midpoint a b) 0 <= nth i b 0).
  { intros i Hi. rewrite midpoint_nth by auto. apply midpoint_between. now apply Hle. }
  assert (Ll : length (fst (child a b s)) = length a)
    by (apply corner_length; auto).
  assert (Lh : length (snd (child a b s)) = length a).
  { cbn [child snd]. unfold upper_corner. rewrite corner_length; len. }
  assert (Hlo : forall i, (i < length a)%nat ->
            nth i (fst (child a b s)) 0
            = if nth i s false then nth i (midpoint a b) 0 else nth i a 0).
  { intros i Hi. apply lower_corner_nth; auto. }
  assert (Hhi : forall i, (i < length a)%nat ->
            nth i (snd (child a b s)) 0
            = if nth i s false then nth i b 0 else nth i (midpoint a b) 0).
  { intros i Hi. apply upper_corner_nth; auto; len. }
  repeat split; try len; intros i Hi;
    rewrite ?Ll, ?Lh in Hi; rewrite ?Hlo, ?Hhi by len;
    destruct (Hmid i ltac:(len)) as [M1 M2]; destruct (nth i s false);
    auto using Qcle_refl; eapply Qcle_trans; eauto.
Qed.

Lemma box_inside_trans a b lo hi lo' hi' :
  box_inside a b lo hi -> box_inside lo hi lo' hi' -> box_inside a b lo' hi'.
Proof.
  intros (H1 & H2 & H3) (K1 & K2 & K3). split; [|split].
  - exact (vec_le_trans _ _ _ H1 K1).
  - exact K2.
  - exact (vec_le_trans _ _ _ K3 H3).
Qed.

Section Bookkeeping.

Variable f : integrand.
Variable rule : Cubature.
Variable dt : dtype.
Variables a b : vec.

Lemma initial_bookkeeping est err :
  estimate rule f a b = Ok est -> error_estimate rule f a b = Ok err ->
  bookkeeping f rule dt a b (initial_state est err dt a b).
Proof.
  intros He Hr. unfold bookkeeping.
  split; [left; apply initial_state_pristine|].
  unfold initial_state, alloc.
  cbn [st_store st_regions st_subdivisions length app].
  split; [|split; [|split; [|split; [|split]]]].
  - constructor; [|constructor]. split; assumption.
  - constructor; [reflexivity|constructor].
  - lia.
  - lia.
  - unfold regions_volume, np.sum. cbn [map fold_right region_a region_b]. ring.
  - intros Hab Hfit. constructor; [|constructor].
    cbn [region_a region_b region_dtype]. split; [exact Hfit|].
    split; [apply vec_le_refl|]. split; [exact Hab | apply vec_le_refl].
Qed.

Lemma refine_bookkeeping st st' :
  bookkeeping f rule dt a b st -> refine f rule st = Ok st' ->
  bookkeeping f rule dt a b st'.
Proof.
  intros (Inv & Hev & Hdim & Hn0 & Hcount & Hvol & Hin) H.
  destruct (refine_invariant f rule st st' Inv H) as [Hr Hsub].
  destruct (refine_decompose f rule st st' Inv H)
    as (k & rest & children & Hpop & Pk & Hsubs & Hdts & Pc & Hun & Hch).
  apply subregion_coordinates_children_at in Hsubs as [Lk Hsubs].
  pose proof (Permutation_Forall Pk Hev) as Hev'.
  pose proof (Permutation_Forall Pk Hdim) as Hdim'.
  inversion Hev' as [|? ? Hevk Hevr]; subst.
  inversion Hdim' as [|? ? Hdk Hdr]; subst.
  set (m := midpoint_dtype (region_dtype k) (region_a k) (region_b k)) in *.
  assert (Lm : length m = length (region_a k)).
  { unfold m, midpoint_dtype. rewrite map2_length. lia. }
  set (pats := product_rec (List.repeat [false; true] (length (region_a k)))) in *.
  assert (Hchild : forall c, In c children ->
            exists s, length s = length (region_a k) /\
                      (region_a c, region_b c) = child_at (region_a k) m (region_b k) s).
  { intros c Hc. apply (in_map region_bounds) in Hc. rewrite Hsubs in Hc.
    apply in_map_iff in Hc as (s & Es & Hs). apply patterns_rec_In in Hs. eauto. }
  assert (Lch : length children = (2 ^ length a)%nat).
  { rewrite <- (length_map region_bounds), Hsubs, length_map.
    unfold pats. now rewrite patterns_rec_length, Hdk. }
  unfold bookkeeping. split; [right; exact Hr|]. split; [|split; [|split; [|split; [|split]]]].
  - eapply Permutation_Forall; [symmetry; exact Pc|]. apply Forall_app. split; [exact Hch|].
    rewrite Forall_forall in Hun, Hevr |- *. intros r Hr'.
    eapply region_evaluated_unchanged; eauto.
  - eapply Permutation_Forall; [symmetry; exact Pc|]. apply Forall_app. split; [|exact Hdr].
    rewrite Forall_forall. intros c Hc. destruct (Hchild c Hc) as (s & Ls & Ec).
    apply (f_equal fst) in Ec. cbn [fst child_at] in Ec. rewrite Ec, <- Hdk.
    apply corner_length; auto.
  - lia.
  - rewrite (Permutation_length Pc), length_app, Lch, Hsub.
    apply Permutation_length in Pk. cbn [length] in Pk.
    rewrite Nat2Z.inj_add, Nat2Z.inj_pow. change (Z.of_nat 2) with 2%Z. lia.
  - rewrite (regions_volume_perm _ _ Pc), regions_volume_app.
    rewrite <- Hvol, (regions_volume_perm _ _ Pk).
    change (k :: rest) with ([k] ++ rest). rewrite regions_volume_app. f_equal.
    rewrite regions_volume_single.
    rewrite <- (children_volume_at (region_a k) m (region_b k)) by lia.
    fold pats. unfold regions_volume. f_equal.
    rewrite <- (map_map (child_at (region_a k) m (region_b k))
                        (fun p => volume (fst p) (snd p))).
    rewrite <- Hsubs, map_map. reflexivity.
  - intros Hab Hfit. specialize (Hin Hab Hfit).
    pose proof (Permutation_Forall Pk Hin) as Hin'.
    inversion Hin' as [|? ? [Hfk Hik] Hir]; subst.
    eapply Permutation_Forall; [symmetry; exact Pc|]. apply Forall_app. split; [|exact Hir].
    rewrite Forall_forall in Hdts |- *. intros c Hc.
    split; [left; now apply Hdts|].
    destruct (Hchild c Hc) as (s & Ls & Ec).
    injection Ec as -> ->. eapply box_inside_trans; [exact Hik|].
    unfold m. rewrite (midpoint_dtype_exact _ _ _ Lk Hfk).
    apply (child_inside (region_a k) (region_b k) s); [apply Hik | exact Ls].
Qed.

Lemma refinement_loop_bookkeeping rtol atol max fuel : forall st st' success,
  bookkeeping f rule dt a b st ->
  refinement_loop f rule rtol atol max fuel st = Ok (st', success) ->
  bookkeeping f rule dt a b st'.
Proof.
  induction fuel as [|fuel IH]; intros st st' success Inv H; cbn [refinement_loop] in H;
    destruct (tolerance_violated _ _ _ _) as [[|]| |]; cbn [bind] in H;
    try discriminate; try (injection H as <- <-; exact Inv).
  destruct (refine f rule st) as [st1| |] eqn:E; cbn [bind] in H; try discriminate.
  pose proof (refine_bookkeeping _ _ Inv E) as Inv1.
  destruct (budget_reached _ _).
  - injection H as <- <-. exact Inv1.
  - eapply IH; eauto.
Qed.

Lemma cubature_bookkeeping rtol atol max fuel res :
  cubature f rule rtol atol max fuel dt a b = Ok res ->
  exists st success,
    res = make_result rtol atol st success /\ bookkeeping f rule dt a b st.
Proof.
  intros H. unfold cubature in H.
  destruct (estimate rule f a b) as [est| |] eqn:He; cbn [bind] in H; try discriminate.
  destruct (error_estimate rule f a b) as [err|[]|] eqn:Hr; cbn [bind] in H; try discriminate.
  destruct (refinement_loop _ _ _ _ _ _ _) as [[st success]| |] eqn:E;
    cbn [bind] in H; try discriminate.
  injection H as <-. exists st, success. split; [reflexivity|].
  eapply refinement_loop_bookkeeping; [|exact E]. now apply initial_bookkeeping.
Qed.

End Bookkeeping.

(** ** X5 to X9: the regions of the result *)

(** X5. In a result of [cubature] the count of subdivisions is not negative, and
    the list of regions holds exactly [1 + subdivisions * (2^ndim - 1)] regions:
    every subdivision replaces one region by its [2^ndim] children. *)
Theorem working_set_size
        (f : integrand) (rule : Cubature) (rtol atol : Qc)
        (max_subdivisions : option Z) (fuel : nat) (dt : dtype) (a b : vec) (res : CubatureResult) :
  cubature f rule rtol atol max_subdivisions fuel dt a b = Ok res ->
  (0 <= res_subdivisions res)%Z /\
  Z.of_nat (length (res_regions res))
  = (1 + res_subdivisions res * (2 ^ Z.of_nat (length a) - 1))%Z.
Proof.
  intros H.
  destruct (cubature_bookkeeping _ _ _ _ _ _ _ _ _ _ H)
    as (st & success & -> & _ & _ & _ & H0 & Hc & _).
  cbn [make_result res_subdivisions res_regions]. now rewrite length_map.
Qed.

Lemma working_set_size_witness :
  exists res,
    cubature square midpoint_trapezoid 0 0 (Some 3%Z) 3 floating [0] [1] = Ok res /\
    res_subdivisions res = 3%Z /\
    length (res_regions res) = 4%nat.
Proof.
  destruct (cubature square midpoint_trapezoid 0 0 (Some 3%Z) 3 floating [0] [1])
    as [res| |] eqn:E.
  - assert (Hn : res_subdivisions res = 3%Z)
      by (vm_compute in E; injection E as <-; reflexivity).
    exists res. split; [reflexivity|]. split; [exact Hn|].
    destruct (working_set_size _ _ _ _ _ _ _ _ _ _ E) as [_ Hc].
    rewrite Hn in Hc. cbn in Hc. lia.
  - vm_compute in E. discriminate E.
  - vm_compute in E. discriminate E.
Defined.

(** X6. The volumes of the regions that [cubature] returns add up to the volume
    of the domain of integration [[a, b]]. *)
Theorem regions_tile_the_domain
        (f : integrand) (rule : Cubature) (rtol atol : Qc)
        (max_subdivisions : option Z) (fuel : nat) (dt : dtype) (a b : vec) (res : CubatureResult) :
  cubature f rule rtol atol max_subdivisions fuel dt a b = Ok res ->
  np.sum (map (fun v => volume (value_a v) (value_b v)) (res_regions res))
  = volume a b.
Proof.
  intros H.
  destruct (cubature_bookkeeping _ _ _ _ _ _ _ _ _ _ H)
    as (st & success & -> & _ & _ & _ & _ & _ & Hv & _).
  cbn [make_result res_regions]. rewrite map_map. exact Hv.
Qed.

Lemma regions_tile_the_domain_witness :
  exists res,
    cubature square midpoint_trapezoid 0 0 (Some 3%Z) 3 floating [0] [qz 2] = Ok res /\
    length (res_regions res) = 4%nat /\
    np.sum (map (fun v => volume (value_a v) (value_b v)) (res_regions res)) = qz 2.
Proof.
  destruct (cubature square midpoint_trapezoid 0 0 (Some 3%Z) 3 floating [0] [qz 2])
    as [res| |] eqn:E.
  - exists res. split; [reflexivity|]. split.
    + vm_compute in E. injection E as <-. reflexivity.
    + rewrite (regions_tile_the_domain _ _ _ _ _ _ _ _ _ _ E). qc_compute.
  - vm_compute in E. discriminate E.
  - vm_compute in E. discriminate E.
Defined.

(** X7. When [a <= b] componentwise and the sums [a_i + b_i] are formed
    without wrapping (floating-point bounds, or integer bounds whose sums
    their type holds), every region that [cubature] returns is a box
    [[a_k, b_k]] of the dimension of the domain with [a <= a_k <= b_k <= b]
    componentwise. *)
Theorem regions_stay_inside
        (f : integrand) (rule : Cubature) (rtol atol : Qc)
        (max_subdivisions : option Z) (fuel : nat) (dt : dtype) (a b : vec)
        (res : CubatureResult) :
  vec_le a b ->
  sums_fit dt a b ->
  cubature f rule rtol atol max_subdivisions fuel dt a b = Ok res ->
  Forall (fun v => length (value_a v) = length a /\
                   box_inside a b (value_a v) (value_b v))
         (res_regions res).
Proof.
  intros Hab Hfit H.
  destruct (cubature_bookkeeping _ _ _ _ _ _ _ _ _ _ H)
    as (st & success & -> & _ & _ & Hd & _ & _ & _ & Hin).
  cbn [make_result res_regions]. apply Forall_map.
  specialize (Hin Hab Hfit). rewrite Forall_forall in *.
  intros r Hr. cbn [region_value value_a value_b]. split; [auto|]. now apply Hin.
Qed.

Lemma unit_interval_le : vec_le [0] [1].
Proof.
  split; [reflexivity|]. intros [|i] Hi; [now vm_compute | simpl in Hi; lia].
Qed.

Lemma unit_interval_fits : sums_fit (signed 64) [0] [1].
Proof.
  right. intros [|i] Hi; simpl in Hi; try lia.
  exists 0%Z, 1%Z. split; [now qc_eq|]. split; [now qc_eq|]. cbn. lia.
Qed.

Lemma regions_stay_inside_witness :
  exists res,
    cubature square midpoint_trapezoid 0 0 (Some 3%Z) 3 (signed 64) [0] [1] = Ok res /\
    length (res_regions res) = 4%nat /\
    Forall (fun v => length (value_a v) = 1%nat /\
                     box_inside [0] [1] (value_a v) (value_b v))
           (res_regions res).
Proof.
  destruct (cubature square midpoint_trapezoid 0 0 (Some 3%Z) 3 (signed 64) [0] [1])
    as [res| |] eqn:E.
  - exists res. split; [reflexivity|]. split.
    + vm_compute in E. injection E as <-. reflexivity.
    + exact (regions_stay_inside _ _ _ _ _ _ _ _ _ _ unit_interval_le
               unit_interval_fits E).
  - vm_compute in E. discriminate E.
  - vm_compute in E. discriminate E.
Defined.

(** X8. Every region that [cubature] returns carries the estimate and the error
    estimate that the rule gives on the bounds of that region: the in-place
    updates of the accumulators leave the arrays of the regions as the rule
    returned them. *)
Theorem regions_hold_rule_estimates
        (f : integrand) (rule : Cubature) (rtol atol : Qc)
        (max_subdivisions : option Z) (fuel : nat) (dt : dtype) (a b : vec) (res : CubatureResult) :
  cubature f rule rtol atol max_subdivisions fuel dt a b = Ok res ->
  Forall (fun v =>
            estimate rule f (value_a v) (value_b v) = Ok (value_estimate v) /\
            error_estimate rule f (value_a v) (value_b v) = Ok (value_error v))
         (res_regions res).
Proof.
  intros H.
  destruct (cubature_bookkeeping _ _ _ _ _ _ _ _ _ _ H)
    as (st & success & -> & _ & He & _).
  cbn [make_result res_regions]. apply Forall_map.
  eapply Forall_impl; [|exact He]. intros r Hr. exact Hr.
Qed.

Lemma regions_hold_rule_estimates_witness :
  exists res,
    cubature square midpoint_trapezoid 0 0 (Some 2%Z) 2 floating [0] [1] = Ok res /\
    length (res_regions res) = 3%nat /\
    Forall (fun v =>
              estimate midpoint_trapezoid square (value_a v) (value_b v)
              = Ok (value_estimate v))
           (res_regions res).
Proof.
  destruct (cubature square midpoint_trapezoid 0 0 (Some 2%Z) 2 floating [0] [1])
    as [res| |] eqn:E.
  - exists res. split; [reflexivity|]. split.
    + vm_compute in E. injection E as <-. reflexivity.
    + eapply Forall_impl; [|exact (regions_hold_rule_estimates _ _ _ _ _ _ _ _ _ _ E)].
      intros v Hv. apply Hv.
  - vm_compute in E. discriminate E.
  - vm_compute in E. discriminate E.
Defined.

Lemma array_sum_nonneg n (l : list vec) :
  Forall (Forall (fun x => 0 <= x)) l -> Forall (fun x => 0 <= x) (array_sum n l).
Proof.
  unfold array_sum. induction 1 as [|v l Hv _ IH]; cbn [fold_right].
  - apply Forall_forall. intros x Hx. apply repeat_spec in Hx. subst. apply Qcle_refl.
  - revert IH. generalize (fold_right (map2 Qcplus) (List.repeat 0 n) l). intros w Hw.
    revert w Hw. induction Hv as [|x v Hx _ IHv]; intros [|y w] Hw; cbn [map2];
      constructor.
    + inversion Hw; subst. replace 0 with (0 + 0) by ring.
      now apply Qcplus_le_compat.
    + inversion Hw; subst. now apply IHv.
Qed.

(** X9. With a rule that estimates the error from the difference of two rules
    ([ErrorFromDifference]), every entry of the error that [cubature] returns,
    and of the error of every returned region, is at least zero. *)
Theorem returned_error_nonnegative
        (rule lower_rule : result (matrix * vec)) (f : integrand) (rtol atol : Qc)
        (max_subdivisions : option Z) (fuel : nat) (dt : dtype) (a b : vec) (res : CubatureResult) :
  cubature f (ErrorFromDifference rule lower_rule) rtol atol max_subdivisions fuel dt a b
  = Ok res ->
  Forall (fun x => 0 <= x) (res_error res) /\
  Forall (fun v => Forall (fun x => 0 <= x) (value_error v)) (res_regions res).
Proof.
  intros H.
  pose proof (cubature_result_consistent _ _ _ _ _ _ _ _ _ _ H) as [_ Hsum].
  destruct (cubature_bookkeeping _ _ _ _ _ _ _ _ _ _ H)
    as (st & success & -> & _ & He & _).
  assert (Hr : Forall (fun v => Forall (fun x => 0 <= x) (value_error v))
                      (map (region_value (st_store st)) (st_regions st))).
  { apply Forall_map. eapply Forall_impl; [|exact He]. intros r [_ Hr].
    cbn [region_value value_error]. eapply difference_error_nonnegative; eauto. }
  split; [|exact Hr].
  rewrite Hsum. apply array_sum_nonneg. now apply Forall_map.
Qed.

Lemma returned_error_nonnegative_witness :
  exists res,
    cubature (fun x => map (map Qcopp) (square x)) midpoint_trapezoid 0 0 (Some 2%Z) 2
             floating [0] [1] = Ok res /\
    res_subdivisions res = 2%Z /\
    Forall (fun x => 0 <= x) (res_error res).
Proof.
  destruct (cubature (fun x => map (map Qcopp) (square x)) midpoint_trapezoid 0 0
                     (Some 2%Z) 2 floating [0] [1]) as [res| |] eqn:E.
  - exists res. split; [reflexivity|]. split.
    + vm_compute in E. injection E as <-. reflexivity.
    + exact (proj1 (returned_error_nonnegative _ _ _ _ _ _ _ _ _ _ _ E)).
  - vm_compute in E. discriminate E.
  - vm_compute in E. discriminate E.
Defined.

(** ** The heap operations keep the heap ordered *)

Lemma parent_pos_lt i : (0 < i)%nat -> (parent_pos i < i)%nat.
Proof.
  intros H. unfold parent_pos.
  pose proof (Nat.Div0.div_le_upper_bound (i - 1) 2 (i - 1)). lia.
Qed.

Lemma parent_pos_children c pos :
  (0 < c)%nat -> parent_pos c = pos -> c = (2 * pos + 1)%nat \/ c = (2 * pos + 2)%nat.
Proof.
  unfold parent_pos. intros H E.
  pose proof (Nat.div_mod_eq (c - 1) 2) as D.
  pose proof (Nat.mod_upper_bound (c - 1) 2). lia.
Qed.

Lemma parent_pos_left pos : parent_pos (2 * pos + 1) = pos.
Proof.
  unfold parent_pos. replace (2 * pos + 1 - 1)%nat with (pos * 2)%nat by lia.
  now rewrite Nat.div_mul.
Qed.

Lemma parent_pos_right pos : parent_pos (2 * pos + 1 + 1) = pos.
Proof.
  unfold parent_pos. replace (2 * pos + 1 + 1 - 1)%nat with (1 + pos * 2)%nat by lia.
  rewrite Nat.div_add by lia. reflexivity.
Qed.

Section HeapOrder.

Context {A : Type}.
Variable lt : A -> A -> bool.

(** [x < y] excludes [y < x], and "not less than" is transitive. *)
Hypothesis lt_asym : forall x y, lt x y = true -> lt y x = false.
Hypothesis ge_trans : forall x y z, lt y x = false -> lt z y = false -> lt z x = false.

Lemma lt_irrefl x : lt x x = false.
Proof. destruct (lt x x) eqn:E; [|reflexivity]. now rewrite (lt_asym _ _ E) in E. Qed.

(** Putting an item into the hole gives a heap when the item is not less
    than the parent of the hole and no child of the hole is less than it. *)
Lemma fill_hole (h : list A) pos item :
  (pos < length h)%nat ->
  hole_ordered lt h pos -> above_children lt h pos item ->
  (pos = 0%nat \/ exists p, nth_error h (parent_pos pos) = Some p /\ lt item p = false) ->
  heap_ordered lt (update h pos item).
Proof.
  intros Hpos [Ha Hc] Hb Hp i x p Hi Hx Hpi.
  pose proof (parent_pos_lt i Hi) as Hlt.
  destruct (Nat.eq_dec i pos) as [->|Hne].
  - rewrite nth_error_update_eq in Hx by exact Hpos. injection Hx as <-.
    rewrite nth_error_update_neq in Hpi by lia.
    destruct Hp as [->|(q & Hq & Hle)]; [lia|]. congruence.
  - rewrite nth_error_update_neq in Hx by auto.
    destruct (Nat.eq_dec (parent_pos i) pos) as [E|Hnp].
    + rewrite E, nth_error_update_eq in Hpi by exact Hpos. injection Hpi as <-.
      eapply Hb; eauto.
    + rewrite nth_error_update_neq in Hpi by auto. eapply Ha; eauto.
Qed.

(** The loop of [_siftdown], run down to the root ([startpos = 0]). *)
Lemma siftdown_loop_ordered fuel : forall (h : list A) pos item,
  (pos < length h)%nat -> (pos <= fuel)%nat ->
  hole_ordered lt h pos -> above_children lt h pos item ->
  heap_ordered lt (heapq._siftdown_loop lt fuel h 0 pos item).
Proof.
  induction fuel as [|fuel IH]; intros h pos item Hpos Hfuel Hh Hb;
    cbn [heapq._siftdown_loop].
  - apply fill_hole; auto. left. lia.
  - destruct (Nat.ltb_spec 0 pos) as [H0|H0]; [|apply fill_hole; auto; left; lia].
    pose proof (parent_pos_lt pos H0) as Hlt. fold (parent_pos pos).
    destruct (nth_error h (parent_pos pos)) as [parent|] eqn:Hp.
    2:{ apply nth_error_None in Hp. lia. }
    destruct (lt item parent) eqn:Hitem.
    2:{ apply fill_hole; auto. right. exists parent. split; try assumption. }
    destruct Hh as [Ha Hc].
    assert (Hpi : lt parent item = false) by now apply lt_asym.
    apply IH; try (rewrite ?update_length; lia).
    + split.
      * intros i x p Hi Hne Hnp Hx Hq.
        destruct (Nat.eq_dec i pos) as [->|Hip]; [congruence|].
        rewrite nth_error_update_neq in Hx by auto.
        destruct (Nat.eq_dec (parent_pos i) pos) as [E|Hnq].
        -- rewrite E, nth_error_update_eq in Hq by exact Hpos. injection Hq as <-.
           eapply Hc; eauto.
        -- rewrite nth_error_update_neq in Hq by auto. eapply Ha; eauto.
      * intros c x p H0' Hc0 Ec Hx Hq.
        pose proof (parent_pos_lt _ H0') as Hgp.
        rewrite nth_error_update_neq in Hq by lia.
        assert (Hpp : lt parent p = false) by (eapply (Ha (parent_pos pos)); eauto; lia).
        destruct (Nat.eq_dec c pos) as [->|Hcp].
        -- rewrite nth_error_update_eq in Hx by exact Hpos. now injection Hx as <-.
        -- rewrite nth_error_update_neq in Hx by auto.
           assert (Hxp : lt x parent = false).
           { eapply (Ha c); eauto; rewrite ?Ec; auto; lia. }
           eapply ge_trans; eauto.
    + intros c x Hc0 Ec Hx.
      destruct (Nat.eq_dec c pos) as [->|Hcp].
      * rewrite nth_error_update_eq in Hx by exact Hpos. now injection Hx as <-.
      * rewrite nth_error_update_neq in Hx by auto.
        assert (Hxp : lt x parent = false).
        { eapply (Ha c); eauto; rewrite ?Ec; auto; lia. }
        eapply ge_trans; eauto.
Qed.

Lemma hole_ordered_update (h : list A) pos x :
  hole_ordered lt h pos -> hole_ordered lt (update h pos x) pos.
Proof.
  intros [Ha Hc]. split.
  - intros i y p Hi Hne Hnp Hy Hp.
    rewrite nth_error_update_neq in Hy, Hp by auto. eapply Ha; eauto.
  - intros c y p H0 Hc0 Ec Hy Hp. pose proof (parent_pos_lt _ H0).
    pose proof (parent_pos_lt _ Hc0).
    rewrite nth_error_update_neq in Hy, Hp by lia. eapply Hc; eauto.
Qed.

Lemma leaf_above_children (h : list A) pos item :
  (length h <= 2 * pos + 1)%nat -> above_children lt h pos item.
Proof.
  intros Hleaf c x Hc Ec Hx.
  apply parent_pos_children in Ec; [|exact Hc].
  assert (c < length h)%nat by (apply nth_error_Some; congruence). lia.
Qed.

(** The loop of [_siftup]: the hole goes down to a leaf. *)
Lemma siftup_loop_ordered fuel : forall (h : list A) pos h' pos',
  (pos < length h)%nat -> (length h - pos <= fuel)%nat ->
  hole_ordered lt h pos ->
  heapq._siftup_loop lt fuel h (length h) pos = (h', pos') ->
  hole_ordered lt h' pos' /\ (pos' < length h')%nat /\
  (length h' <= 2 * pos' + 1)%nat.
Proof.
  induction fuel as [|fuel IH]; intros h pos h' pos' Hpos Hfuel Hh E; [lia|].
  cbn [heapq._siftup_loop] in E.
  destruct (Nat.ltb_spec (2 * pos + 1) (length h)) as [Hl|Hl].
  2:{ injection E as <- <-. auto. }
  destruct (nth_error h (2 * pos + 1)) as [c|] eqn:Hcl.
  2:{ apply nth_error_None in Hcl. lia. }
  destruct Hh as [Ha Hc].
  (* the smaller child [cv], at [cp], and what its sibling satisfies *)
  assert (Hchoice : exists cp cv,
             nth_error h cp = Some cv /\ parent_pos cp = pos /\ (pos < cp)%nat /\
             heapq._siftup_loop lt fuel (update h pos cv) (length h) cp = (h', pos') /\
             forall i x, (0 < i)%nat -> parent_pos i = pos -> i <> cp ->
                         nth_error h i = Some x -> lt x cv = false).
  { destruct (nth_error h (2 * pos + 1 + 1)) as [r|] eqn:Hcr.
    - destruct (Nat.ltb_spec (2 * pos + 1 + 1) (length h)) as [Hr|Hr].
      2:{ assert (2 * pos + 1 + 1 < length h)%nat by (apply nth_error_Some; congruence). lia. }
      cbn [andb] in E. destruct (lt c r) eqn:Hcr'; cbn [negb] in E.
      + rewrite Hcl in E. exists (2 * pos + 1)%nat, c.
        repeat split; auto using parent_pos_left; try lia.
        intros i x Hi Ei Hne Hx. apply parent_pos_children in Ei; [|exact Hi].
        assert (i = (2 * pos + 1 + 1)%nat) by lia. subst i.
        rewrite Hcr in Hx. injection Hx as <-. now apply lt_asym.
      + rewrite Hcr in E. exists (2 * pos + 1 + 1)%nat, r.
        repeat split; auto using parent_pos_right; try lia.
        intros i x Hi Ei Hne Hx. apply parent_pos_children in Ei; [|exact Hi].
        assert (i = (2 * pos + 1)%nat) by lia. subst i.
        rewrite Hcl in Hx. now injection Hx as <-.
    - rewrite Hcl in E. exists (2 * pos + 1)%nat, c.
      repeat split; auto using parent_pos_left; try lia.
      intros i x Hi Ei Hne Hx. apply parent_pos_children in Ei; [|exact Hi].
      assert (i = (2 * pos + 1 + 1)%nat) by lia. subst i. congruence. }
  destruct Hchoice as (cp & cv & Hcv & Ecp & Hlt & E' & Hsib).
  assert (Hcpl : (cp < length h)%nat) by (apply nth_error_Some; congruence).
  rewrite <- (update_length h pos cv) in E' at 1.
  eapply IH in E'; try (rewrite ?update_length; lia).
  - exact E'.
  - split.
    + intros i x p Hi Hne Hnp Hx Hq.
      destruct (Nat.eq_dec i pos) as [->|Hip].
      * rewrite nth_error_update_eq in Hx by exact Hpos. injection Hx as <-.
        pose proof (parent_pos_lt _ Hi).
        rewrite nth_error_update_neq in Hq by lia.
        eapply (Hc cp); eauto. lia.
      * rewrite nth_error_update_neq in Hx by auto.
        destruct (Nat.eq_dec (parent_pos i) pos) as [Ei|Hnq].
        -- rewrite Ei, nth_error_update_eq in Hq by exact Hpos. injection Hq as <-.
           eapply Hsib; eauto.
        -- rewrite nth_error_update_neq in Hq by auto. eapply Ha; eauto.
    + intros c' x p H0 Hc0 Ec Hx Hq.
      pose proof (parent_pos_lt _ Hc0).
      rewrite Ecp, nth_error_update_eq in Hq by exact Hpos. injection Hq as <-.
      rewrite nth_error_update_neq in Hx by lia.
      eapply (Ha c'); eauto; rewrite ?Ec; auto; lia.
Qed.

Lemma siftup_ordered (h : list A) :
  hole_ordered lt h 0 -> heap_ordered lt (heapq._siftup lt h 0).
Proof.
  intros Hh. unfold heapq._siftup.
  destruct (nth_error h 0) as [newitem|] eqn:H0.
  2:{ apply nth_error_None in H0. destruct h; [|simpl in H0; lia].
      intros i x p _ Hx. destruct i; discriminate. }
  assert (Hpos : (0 < length h)%nat) by (apply nth_error_Some; congruence).
  destruct (heapq._siftup_loop lt _ h _ 0) as [h' pos'] eqn:E.
  apply siftup_loop_ordered in E; auto; try lia.
  destruct E as (Hh' & Hpos' & Hleaf).
  unfold heapq._siftdown. rewrite nth_error_update_eq by exact Hpos'.
  apply siftdown_loop_ordered; rewrite ?update_length; auto.
  - now apply hole_ordered_update.
  - apply leaf_above_children. now rewrite update_length.
Qed.

Lemma heappush_ordered (h : list A) item :
  heap_ordered lt h -> heap_ordered lt (heapq.heappush lt h item).
Proof.
  intros Hh. unfold heapq.heappush, heapq._siftdown.
  rewrite nth_error_app2, Nat.sub_diag by lia. cbn [nth_error].
  assert (Hin : forall i x, i <> length h -> nth_error (h ++ [item]) i = Some x ->
                            nth_error h i = Some x).
  { intros i x Hne Hx.
    assert (i < length (h ++ [item]))%nat by (apply nth_error_Some; congruence).
    rewrite length_app in H. simpl in H. now rewrite nth_error_app1 in Hx by lia. }
  apply siftdown_loop_ordered; rewrite ?length_app; simpl; try lia.
  - split.
    + intros i x p Hi Hne Hnp Hx Hp. eapply Hh; eauto.
    + intros c x p H0 Hc Ec Hx Hp.
      assert (c < length (h ++ [item]))%nat by (apply nth_error_Some; congruence).
      rewrite length_app in H. simpl in H.
      apply parent_pos_children in Ec; [|exact Hc]. lia.
  - apply leaf_above_children. rewrite length_app. simpl. lia.
Qed.

Lemma heappop_ordered (h : list A) item rest :
  heap_ordered lt h -> heapq.heappop lt h = Ok (item, rest) ->
  nth_error h 0 = Some item /\ heap_ordered lt rest.
Proof.
  intros Hh H. unfold heapq.heappop in H.
  destruct (rev h) as [|lastelt front] eqn:Hr; [discriminate|].
  assert (Eh : h = rev front ++ [lastelt]).
  { rewrite <- (rev_involutive h), Hr. reflexivity. }
  destruct (rev front) as [|returnitem rest'] eqn:Hf.
  - injection H as <- <-. subst h. split; [reflexivity|].
    intros i x p _ Hx. destruct i; discriminate.
  - injection H as <- <-. subst h. split; [reflexivity|].
    apply siftup_ordered. split; [|intros; lia].
    intros i x p Hi _ Hnp Hx Hp.
    destruct i as [|i]; [lia|].
    destruct (parent_pos (S i)) as [|q] eqn:Eq; [congruence|].
    cbn [nth_error] in Hx, Hp.
    apply (Hh (S i) x p); auto.
    + cbn [app nth_error]. rewrite nth_error_app1; auto.
      apply nth_error_Some. congruence.
    + rewrite Eq. cbn [app nth_error]. rewrite nth_error_app1; auto.
      apply nth_error_Some. congruence.
Qed.

(** The root of a heap is least: no item is less than it. *)
Lemma heap_root_least (h : list A) root :
  heap_ordered lt h -> nth_error h 0 = Some root ->
  forall x, In x h -> lt x root = false.
Proof.
  intros Hh Hroot x Hx. apply In_nth_error in Hx as [i Hi].
  revert x Hi. induction i as [i IH] using lt_wf_ind. intros x Hi.
  destruct i as [|i].
  - rewrite Hroot in Hi. injection Hi as <-. apply lt_irrefl.
  - pose proof (parent_pos_lt (S i) ltac:(lia)) as Hlt.
    destruct (nth_error h (parent_pos (S i))) as [p|] eqn:Hp.
    + assert (Hxp : lt x p = false) by (apply (Hh (S i) x p); auto; lia).
      assert (Hpr : lt p root = false) by (eapply IH; eauto).
      eapply ge_trans; eauto.
    + apply nth_error_None in Hp.
      assert (S i < length h)%nat by (apply nth_error_Some; congruence). lia.
Qed.

End HeapOrder.

(** ** X10: the driver refines the region of largest error *)

Lemma Qcltb_asym x y : Qcltb x y = true -> Qcltb y x = false.
Proof.
  intros H. pose proof (Qcltb_spec x y) as S. rewrite H in S.
  pose proof (Qcltb_spec y x) as S'. destruct (Qcltb y x); [|reflexivity].
  exfalso. apply (Qclt_not_le _ _ S). now apply Qclt_le_weak.
Qed.

Lemma Qcltb_ge_trans x y z :
  Qcltb x y = false -> Qcltb y z = false -> Qcltb x z = false.
Proof.
  intros H1 H2.
  pose proof (Qcltb_spec x y) as S1. rewrite H1 in S1.
  pose proof (Qcltb_spec y z) as S2. rewrite H2 in S2.
  pose proof (Qcltb_spec x z) as S3. destruct (Qcltb x z); [|reflexivity].
  exfalso. apply (Qclt_not_le _ _ S3). eapply Qcle_trans; eauto.
Qed.

Lemma region_lt_asym s x y :
  CubatureRegion_lt s x y = true -> CubatureRegion_lt s y x = false.
Proof. unfold CubatureRegion_lt. apply Qcltb_asym. Qed.

Lemma region_ge_trans s x y z :
  CubatureRegion_lt s y x = false -> CubatureRegion_lt s z y = false ->
  CubatureRegion_lt s z x = false.
Proof. unfold CubatureRegion_lt. intros H1 H2. eapply Qcltb_ge_trans; eauto. Qed.

Lemma heap_ordered_ext {A} (lt lt' : A -> A -> bool) (h : list A) :
  (forall x y, In x h -> In y h -> lt' x y = lt x y) ->
  heap_ordered lt h -> heap_ordered lt' h.
Proof.
  intros E Hh i x p Hi Hx Hp.
  rewrite E by (eapply nth_error_In; eauto). eapply Hh; eauto.
Qed.

Lemma heap_ordered_unchanged s s' (h : list CubatureRegion) :
  Forall (region_unchanged s s') h ->
  heap_ordered (CubatureRegion_lt s) h -> heap_ordered (CubatureRegion_lt s') h.
Proof.
  intros U. apply heap_ordered_ext. intros x y Hx Hy.
  rewrite Forall_forall in U. unfold CubatureRegion_lt.
  now rewrite (proj2 (U x Hx)), (proj2 (U y Hy)).
Qed.

Lemma heap_ordered_nil {A} (lt : A -> A -> bool) : heap_ordered lt [].
Proof. intros i x p _ Hx. destruct i; discriminate. Qed.

Section HeapInvariant.

Variable f : integrand.
Variable rule : Cubature.

Lemma refine_children_ordered est err subs : forall s regions s' regions',
  refined s est err regions ->
  heap_ordered (CubatureRegion_lt s) regions ->
  foldM (refine_subregion f rule est err) subs (s, regions) = Ok (s', regions') ->
  heap_ordered (CubatureRegion_lt s') regions'.
Proof.
  induction subs as [|sub subs IH]; intros s regions s' regions' Hr Hh H; cbn [foldM] in H.
  - now injection H as <- <-.
  - destruct (refine_subregion f rule est err (s, regions) sub) as [[s1 regions1]| |] eqn:E;
      cbn [bind] in H; try discriminate.
    pose proof (refine_subregion_refined f rule _ _ _ _ _ _ _ Hr E) as Hr1.
    destruct (refine_subregion_step f rule _ _ _ _ _ _ _ Hr E)
      as (c & _ & _ & Hpush & F & _).
    eapply IH; [exact Hr1| |exact H]. rewrite Hpush.
    apply heappush_ordered; auto using region_lt_asym.
    + intros x y z. apply region_ge_trans.
    + eapply heap_ordered_unchanged; [|exact Hh].
      destruct Hr as (_ & _ & _ & Hf & _).
      eapply Forall_impl; [|exact Hf]. intros r. now apply region_unchanged_frame.
Qed.

Lemma refine_ordered st st' :
  driver_invariant st ->
  heap_ordered (CubatureRegion_lt (st_store st)) (st_regions st) ->
  refine f rule st = Ok st' ->
  heap_ordered (CubatureRegion_lt (st_store st')) (st_regions st').
Proof.
  intros Inv Hh H.
  destruct (refine_decompose f rule st st' Inv H)
    as (k & rest & children & Hpop & Pk & _ & _ & _ & _ & _).
  unfold refine in H. rewrite Hpop in H. cbn [bind] in H.
  destruct (inplace Qcminus (st_store st) _ _) as [s1| |] eqn:H1;
    cbn [bind] in H; try discriminate.
  destruct (inplace Qcminus s1 _ _) as [s2| |] eqn:H2;
    cbn [bind] in H; try discriminate.
  destruct (_subregion_coordinates _ _) as [subs| |] eqn:Hsub;
    cbn [bind] in H; try discriminate.
  destruct (foldM _ subs _) as [[s3 regions3]| |] eqn:Hc;
    cbn [bind] in H; try discriminate.
  injection H as <-. cbn [st_store st_regions].
  pose proof (refine_subtract st k rest s1 s2 Inv Hpop H1 H2) as Hr2.
  eapply refine_children_ordered; [exact Hr2| |exact Hc].
  destruct (heappop_ordered _ (region_lt_asym _)
              (fun x y z => region_ge_trans _ x y z) _ _ _ Hh Hpop) as [_ Hrest].
  destruct Inv as [(Hest & Herr & Hne & a & b & dt0 & Hrs)|(Hest & Herr & Hne & Hfresh & _ & _)].
  - rewrite Hrs in Pk. apply Permutation_length in Pk. destruct rest; [|simpl in Pk; lia].
    apply heap_ordered_nil.
  - eapply heap_ordered_unchanged; [|exact Hrest].
    pose proof (Permutation_Forall Pk Hfresh) as Hf'.
    inversion Hf' as [|? ? _ Hfr]; subst.
    apply inplace_Ok in H1 as [_ ->]. apply inplace_Ok in H2 as [_ ->].
    eapply Forall_impl; [|exact Hfr]. intros r.
    apply region_unchanged_frame.
    eapply frame_trans; apply frame_update; auto.
Qed.

Lemma initial_ordered est err dt a b :
  heap_ordered (CubatureRegion_lt (st_store (initial_state est err dt a b)))
               (st_regions (initial_state est err dt a b)).
Proof.
  intros i x p Hi Hx. cbn in Hx. destruct i as [|[|i]]; try discriminate. lia.
Qed.

Lemma refinement_loop_ordered rtol atol max fuel : forall st st' success,
  driver_invariant st ->
  heap_ordered (CubatureRegion_lt (st_store st)) (st_regions st) ->
  refinement_loop f rule rtol atol max fuel st = Ok (st', success) ->
  heap_ordered (CubatureRegion_lt (st_store st')) (st_regions st').
Proof.
  induction fuel as [|fuel IH]; intros st st' success Inv Hh H; cbn [refinement_loop] in H;
    destruct (tolerance_violated _ _ _ _) as [[|]| |]; cbn [bind] in H;
    try discriminate; try (injection H as <- <-; exact Hh).
  destruct (refine f rule st) as [st1| |] eqn:E; cbn [bind] in H; try discriminate.
  assert (Inv1 : driver_invariant st1) by (right; eapply refine_invariant; eauto).
  pose proof (refine_ordered _ _ Inv Hh E) as Hh1.
  destruct (budget_reached _ _).
  - injection H as <- <-. exact Hh1.
  - eapply IH; eauto.
Qed.

Lemma at_test_ordered rtol atol max st0 st :
  driver_invariant st0 ->
  heap_ordered (CubatureRegion_lt (st_store st0)) (st_regions st0) ->
  at_test f rule rtol atol max st0 st ->
  driver_invariant st /\
  heap_ordered (CubatureRegion_lt (st_store st)) (st_regions st).
Proof.
  intros Inv0 Hh0. induction 1 as [|st st' _ [Inv Hh] _ Hr _]; [auto|].
  split; [right; eapply refine_invariant; eauto|]. eapply refine_ordered; eauto.
Qed.

End HeapInvariant.

(** X10. The region that the driver pops to refine has the largest maximum-norm
    error of all regions of the working set, at every turn of the loop; and the
    first region of the list that [cubature] returns has the largest
    maximum-norm error of the returned regions. *)
Theorem refinement_picks_worst_region
        (f : integrand) (rule : Cubature) (rtol atol : Qc)
        (max_subdivisions : option Z) (dt : dtype) (a b : vec) :
  (forall est err st region_k rest,
      at_test f rule rtol atol max_subdivisions (initial_state est err dt a b) st ->
      heapq.heappop (CubatureRegion_lt (st_store st)) (st_regions st)
      = Ok (region_k, rest) ->
      forall r, In r (st_regions st) ->
        _max_norm (deref (st_store st) (region_error r))
        <= _max_norm (deref (st_store st) (region_error region_k))) /\
  (forall fuel res worst others,
      cubature f rule rtol atol max_subdivisions fuel dt a b = Ok res ->
      res_regions res = worst :: others ->
      forall v, In v (res_regions res) ->
        _max_norm (value_error v) <= _max_norm (value_error worst)).
Proof.
  split.
  - intros est err st k rest Hst Hpop r Hr.
    destruct (at_test_ordered f rule rtol atol max_subdivisions _ _
                (or_introl (initial_state_pristine est err dt a b))
                (initial_ordered est err dt a b) Hst) as [_ Hh].
    destruct (heappop_ordered _ (region_lt_asym _)
                (fun x y z => region_ge_trans _ x y z) _ _ _ Hh Hpop) as [Hroot _].
    pose proof (heap_root_least _ (region_lt_asym _)
                  (fun x y z => region_ge_trans _ x y z) _ _ Hh Hroot r Hr) as Hle.
    unfold CubatureRegion_lt in Hle.
    pose proof (Qcltb_spec (_max_norm (deref (st_store st) (region_error k)))
                           (_max_norm (deref (st_store st) (region_error r)))) as S.
    now rewrite Hle in S.
  - intros fuel res worst others H Hres v Hv. unfold cubature in H.
    destruct (estimate rule f a b) as [est| |]; cbn [bind] in H; try discriminate.
    destruct (error_estimate rule f a b) as [err|[]|]; cbn [bind] in H; try discriminate.
    destruct (refinement_loop _ _ _ _ _ _ _) as [[st success]| |] eqn:E;
      cbn [bind] in H; try discriminate.
    injection H as <-. cbn [make_result res_regions] in *.
    apply refinement_loop_ordered in E;
      [|left; apply initial_state_pristine | apply initial_ordered].
    destruct (st_regions st) as [|r0 rs] eqn:Ers; [discriminate|].
    cbn [map] in Hres. injection Hres as <- <-.
    apply in_map_iff in Hv as (r & <- & Hr).
    pose proof (heap_root_least _ (region_lt_asym _)
                  (fun x y z => region_ge_trans _ x y z) _ r0 E eq_refl r Hr) as Hle.
    unfold CubatureRegion_lt in Hle. cbn [region_value value_error].
    pose proof (Qcltb_spec (_max_norm (deref (st_store st) (region_error r0)))
                           (_max_norm (deref (st_store st) (region_error r)))) as S.
    now rewrite Hle in S.
Qed.

Lemma refinement_picks_worst_region_witness :
  exists res worst others,
    cubature square midpoint_trapezoid 0 0 (Some 3%Z) 3 floating [0] [1] = Ok res /\
    res_regions res = worst :: others /\
    length others = 3%nat /\
    Forall (fun v => _max_norm (value_error v) <= _max_norm (value_error worst))
           (res_regions res).
Proof.
  destruct (cubature square midpoint_trapezoid 0 0 (Some 3%Z) 3 floating [0] [1])
    as [res| |] eqn:E.
  - destruct (res_regions res) as [|worst others] eqn:Er.
    + exfalso. vm_compute in E. injection E as <-. discriminate Er.
    + exists res, worst, others. split; [reflexivity|]. split; [exact Er|]. split.
      * vm_compute in E. injection E as <-. injection Er as <- <-. reflexivity.
      * apply Forall_forall. intros v Hv.
        exact (proj2 (refinement_picks_worst_region square midpoint_trapezoid 0 0
                        (Some 3%Z) floating [0] [1]) _ _ _ _ E Er v Hv).
  - vm_compute in E. discriminate E.
  - vm_compute in E. discriminate E.
Defined.

(** ** X11: Newton-Cotes rules are exact for polynomials *)

Lemma sum_cons x v : np.sum (x :: v) = x + np.sum v.
Proof. reflexivity. Qed.























Lemma weighted_dot (J : Qc) (g : Qc -> Qc) (w row : vec) :
  np.sum (map2 Qcmult (map (fun t => t * J) w) (map g row))
  = J * np.dot (map g row) w.
Proof.
  unfold np.dot. revert row. induction w as [|t w IH]; intros [|r row]; cbn [map map2];
    rewrite ?sum_cons; try (change (np.sum []) with 0; ring).
  rewrite IH. ring.
Qed.




(** ** X12 and X13: product rules *)

Lemma list_as_map_nth {A} (d : A) (l : list A) :
  l = map (fun k => nth k l d) (seq 0 (length l)).
Proof.
  induction l as [|x l IH]; [reflexivity|].
  cbn [length seq map nth]. f_equal. rewrite <- seq_shift, map_map. exact IH.
Qed.

Lemma map_reindex {A B} (d : A) (H : A -> B) (l : list A) :
  map (fun k => H (nth k l d)) (seq 0 (length l)) = map H l.
Proof.
  rewrite <- (map_map (fun k => nth k l d) H). now rewrite <- list_as_map_nth.
Qed.

(** The Cartesian product of the pools is read off the product of their
    index ranges. *)
Lemma product_rec_by_index {A} (d : A) (pools : list (list A)) :
  product_rec pools
  = map (fun idx => map2 (fun pool j => nth j pool d) pools idx)
        (product_rec (map (fun pool => seq 0 (length pool)) pools)).
Proof.
  induction pools as [|pool pools IH]; [reflexivity|].
  cbn [product_rec map].
  rewrite (list_as_map_nth d pool) at 1.
  rewrite flat_map_map, map_flat_map.
  apply flat_map_ext. intros j. rewrite map_map. rewrite IH at 1.
  rewrite map_map. reflexivity.
Qed.

Lemma product_rec_elem_length {A} (pools : list (list A)) idx :
  In idx (product_rec pools) -> length idx = length pools.
Proof.
  revert idx. induction pools as [|pool pools IH]; intros idx H.
  - destruct H as [<-|[]]. reflexivity.
  - cbn [product_rec] in H. apply in_flat_map in H as (y & _ & H).
    apply in_map_iff in H as (t & <- & Ht). cbn [length]. f_equal. now apply IH.
Qed.

Lemma product_rec_length {A} (pools : list (list A)) :
  length (product_rec pools) = fold_right Nat.mul 1%nat (map (@length A) pools).
Proof.
  induction pools as [|pool pools IH]; [reflexivity|].
  cbn [product_rec map fold_right]. rewrite <- IH.
  generalize (product_rec pools). intros P.
  induction pool as [|y pool IHp]; [reflexivity|].
  cbn [flat_map length]. rewrite length_app, length_map, IHp. lia.
Qed.

Lemma ndindex_rec (shape : list nat) :
  ndindex shape = product_rec (map (seq 0) shape).
Proof. apply product_is_rec. Qed.

Lemma ndindex_elem_length shape idx : In idx (ndindex shape) -> length idx = length shape.
Proof.
  rewrite ndindex_rec. intros H. apply product_rec_elem_length in H.
  now rewrite length_map in H.
Qed.

Lemma ndindex_length shape : length (ndindex shape) = fold_right Nat.mul 1%nat shape.
Proof.
  rewrite ndindex_rec, product_rec_length, map_map.
  f_equal. rewrite <- (map_id shape) at 2. apply map_ext. intros n. apply length_seq.
Qed.

Lemma meshgrid_length xi : length (meshgrid_ij xi) = length xi.
Proof. unfold meshgrid_ij. now rewrite length_map, length_seq. Qed.

Lemma meshgrid_row xi i :
  (i < length xi)%nat ->
  nth i (meshgrid_ij xi) []
  = map (fun idx => nth (nth i idx 0%nat) (nth i xi []) 0) (ndindex (map (@length Qc) xi)).
Proof. intros H. unfold meshgrid_ij. now rewrite nth_map_seq. Qed.

Lemma meshgrid_ncols xi :
  xi <> [] -> np.ncols (meshgrid_ij xi) = length (ndindex (map (@length Qc) xi)).
Proof.
  intros H. destruct xi as [|x xi]; [congruence|].
  unfold meshgrid_ij. cbn [length seq map np.ncols]. now rewrite length_map.
Qed.

(** Column [k] of the grids is the tuple selected by the [k]-th multi-index. *)
Lemma meshgrid_column xi k :
  (k < length (ndindex (map (@length Qc) xi)))%nat ->
  column (meshgrid_ij xi) k
  = map2 (fun pool j => nth j pool 0) xi (nth k (ndindex (map (@length Qc) xi)) []).
Proof.
  intros Hk. unfold column, meshgrid_ij. rewrite map_map.
  set (I := ndindex (map (@length Qc) xi)) in *.
  assert (Hl : length (nth k I []) = length xi).
  { rewrite <- (length_map (@length Qc) xi). apply ndindex_elem_length.
    now apply nth_In. }
  rewrite (map2_seq _ xi (nth k I []) (length xi) [] 0%nat) by auto.
  apply map_ext. intros i.
  rewrite (nth_indep _ 0 ((fun idx => nth (nth i idx 0%nat) (nth i xi []) 0) []))
    by (now rewrite length_map).
  now rewrite (map_nth (fun idx => nth (nth i idx 0%nat) (nth i xi []) 0)).
Qed.

(** X12. [_cartesian_product] raises [ValueError] on an empty list of arrays;
    otherwise it returns an array with one row per input array whose columns are
    the tuples of [itertools.product] of the inputs, each once and in that
    order, so that it has as many columns as the product of the lengths of the
    inputs. *)
Theorem cartesian_product_combinations (points : list vec) :
  match points with
  | [] => exists msg, _cartesian_product points = Raise (ValueError msg)
  | _ :: _ =>
      exists out,
        _cartesian_product points = Ok out /\
        length out = length points /\
        Forall (fun row => length row
                           = fold_right Nat.mul 1%nat (map (@length Qc) points)) out /\
        map (column out) (seq 0 (np.ncols out)) = itertools.product points
  end.
Proof.
  destruct points as [|x xs]; [eexists; reflexivity|].
  set (points := x :: xs). exists (meshgrid_ij points).
  split; [reflexivity|]. split; [apply meshgrid_length|]. split.
  - apply Forall_forall. intros row Hr. unfold meshgrid_ij in Hr.
    apply in_map_iff in Hr as (i & <- & _). now rewrite length_map, ndindex_length.
  - rewrite meshgrid_ncols by discriminate.
    rewrite product_is_rec, (product_rec_by_index 0 points).
    set (I := ndindex (map (@length Qc) points)).
    rewrite <- (map_reindex [] (fun idx => map2 (fun pool j => nth j pool 0) points idx)).
    replace (product_rec (map (fun pool => seq 0 (length pool)) points)) with I
      by (unfold I; rewrite ndindex_rec, map_map; reflexivity).
    apply map_ext_in. intros k Hk. apply in_seq in Hk.
    apply meshgrid_column. fold I. lia.
Qed.

Lemma prod_cons x v : np.prod (x :: v) = x * np.prod v.
Proof. reflexivity. Qed.

Lemma bigprod_shift n F : bigprod (S n) F = F 0%nat * bigprod n (fun i => F (S i)).
Proof.
  unfold bigprod. cbn [seq map]. rewrite <- seq_shift, map_map. apply prod_cons.
Qed.

Lemma bigprod_ext n F G :
  (forall i, (i < n)%nat -> F i = G i) -> bigprod n F = bigprod n G.
Proof.
  intros H. unfold bigprod. f_equal. apply map_ext_in. intros i Hi.
  apply in_seq in Hi. apply H. lia.
Qed.

Lemma bigprod_mul n F G :
  bigprod n (fun i => F i * G i) = bigprod n F * bigprod n G.
Proof.
  revert F G. induction n as [|n IH]; intros F G.
  - unfold bigprod. cbn. ring.
  - rewrite !bigprod_shift, IH. ring.
Qed.

Lemma sum_flat_map {A B} (H : B -> Qc) (f : A -> list B) (l : list A) :
  np.sum (map H (flat_map f l)) = np.sum (map (fun j => np.sum (map H (f j))) l).
Proof.
  induction l as [|x l IH]; [reflexivity|].
  cbn [flat_map map]. now rewrite map_app, sum_app, sum_cons, IH.
Qed.

Lemma sum_scale_l {A} (c : Qc) (G : A -> Qc) (l : list A) :
  np.sum (map (fun x => c * G x) l) = c * np.sum (map G l).
Proof.
  induction l as [|x l IH]; cbn [map]; rewrite ?sum_cons.
  - change (np.sum []) with 0. ring.
  - rewrite IH. ring.
Qed.

(** A sum over all multi-indices of a product of factors, one per axis, is
    the product of the sums per axis. *)
Lemma sum_prod_ndindex (shape : list nat) : forall F : nat -> nat -> Qc,
  np.sum (map (fun idx => bigprod (length shape) (fun i => F i (nth i idx 0%nat)))
              (ndindex shape))
  = bigprod (length shape) (fun i => bigsum (nth i shape 0%nat) (F i)).
Proof.
  rewrite ndindex_rec.
  induction shape as [|n shape IH]; intros F.
  - cbn [map product_rec length]. unfold bigprod. cbn [seq map]. rewrite sum_cons.
    change (np.sum []) with 0. ring.
  - cbn [map product_rec length]. rewrite sum_flat_map.
    rewrite bigprod_shift. cbn [nth].
    rewrite <- (IH (fun i => F (S i))).
    set (C := np.sum (map (fun idx => bigprod (length shape)
                                        (fun i => F (S i) (nth i idx 0%nat)))
                          (product_rec (map (seq 0) shape)))).
    unfold bigsum. rewrite <- sum_scale, map_map. f_equal. apply map_ext. intros j.
    rewrite map_map.
    rewrite (map_ext _ (fun idx => F 0%nat j
                          * bigprod (length shape) (fun i => F (S i) (nth i idx 0%nat))))
      by (intros idx; now rewrite bigprod_shift).
    rewrite sum_scale_l. reflexivity.
Qed.

Lemma map2_map_same {A B C D} (f : B -> C -> D) (u : A -> B) (v : A -> C) (l : list A) :
  map2 f (map u l) (map v l) = map (fun x => f (u x) (v x)) l.
Proof. induction l as [|x l IH]; cbn [map map2]; [reflexivity|now rewrite IH]. Qed.

Lemma prod_map2_seq {A B} (f : A -> B -> Qc) (l1 : list A) (l2 : list B) n d1 d2 :
  length l1 = n -> length l2 = n ->
  np.prod (map2 f l1 l2) = bigprod n (fun i => f (nth i l1 d1) (nth i l2 d2)).
Proof. intros H1 H2. unfold bigprod. now rewrite (map2_seq f l1 l2 n d1 d2). Qed.

Lemma half_length (a b : Qc) : jacobian [a] [b] = (b - a) / qz 2.
Proof. unfold jacobian. cbn. ring. Qed.

(** The one-dimensional estimate of a pointwise integrand. *)
Lemma estimate_pointwise (x w : vec) (g : Qc -> Qc) (a b : Qc) :
  length x = length w ->
  estimate (FixedCubature (Ok ([x], w))) (pointwise g) [a] [b]
  = Ok [(b - a) / qz 2
        * bigsum (length x)
            (fun k => nth k w 0 * g (mapped_node [a] [b] 0 (nth k x 0)))].
Proof.
  intros Hl. cbn [estimate FixedCubature bind].
  rewrite apply_rule_weighted_sum; try reflexivity.
  2:{ cbn. constructor; [|constructor]. now rewrite !length_map. }
  cbn [mapped_nodes length seq map pointwise nth]. f_equal. f_equal.
  unfold mapped_weight. rewrite half_length, map_map.
  rewrite (weighted_dot _ (fun t => g (mapped_node [a] [b] 0 t)) w x).
  f_equal. unfold np.dot, bigsum.
  rewrite (map2_seq Qcmult _ w (length x) 0 0) by (now rewrite ?length_map).
  f_equal. apply map_ext_in. intros k Hk. apply in_seq in Hk.
  rewrite (nth_indep _ 0 (g (mapped_node [a] [b] 0 0))) by (rewrite length_map; lia).
  rewrite (map_nth (fun t => g (mapped_node [a] [b] 0 t))). ring.
Qed.

Lemma mapM_Ok {A B} (f : A -> result B) (l : list A) (r : list B) :
  map f l = map (@Ok B) r -> mapM f l = Ok r.
Proof.
  revert r. induction l as [|x l IH]; intros [|y r] H; cbn [map] in H;
    try discriminate; [reflexivity|].
  injection H as Hx Hl. cbn [mapM]. rewrite Hx. cbn [bind].
  rewrite (IH r Hl). reflexivity.
Qed.

Section ProductEstimate.

Variables xs ws : list vec.
Variable gs : list (Qc -> Qc).
Variables a b : vec.
Variable n : nat.

Hypothesis n_positive : (1 <= n)%nat.
Hypothesis xs_length : length xs = n.
Hypothesis ws_length : length ws = n.
Hypothesis gs_length : length gs = n.
Hypothesis a_length : length a = n.
Hypothesis b_length : length b = n.
Hypothesis weights_match : forall i, (i < n)%nat -> length (nth i xs []) = length (nth i ws []).

Lemma shapes_agree : map (@length Qc) ws = map (@length Qc) xs.
Proof.
  apply nth_ext with (d := 0%nat) (d' := 0%nat); [rewrite !length_map; transitivity n; [exact ws_length | symmetry; exact xs_length]|].
  intros i Hi. rewrite length_map in Hi.
  change 0%nat with (@length Qc []). rewrite !map_nth. symmetry.
  apply weights_match. len.
Qed.

Lemma xs_nonempty : xs <> [].
Proof. intros E. rewrite E in xs_length. simpl in xs_length. lia. Qed.

Lemma ws_nonempty : ws <> [].
Proof. intros E. rewrite E in ws_length. simpl in ws_length. lia. Qed.

Lemma index_length idx : In idx (product_indices xs) -> length idx = n.
Proof. intros H. apply ndindex_elem_length in H. rewrite length_map in H. len. Qed.

Lemma product_weights :
  prod_axis0 (meshgrid_ij ws)
  = map (fun idx => bigprod n (fun i => nth (nth i idx 0%nat) (nth i ws []) 0)) (product_indices xs).
Proof.
  unfold prod_axis0. rewrite meshgrid_ncols by apply ws_nonempty.
  rewrite shapes_agree. fold (product_indices xs).
  rewrite <- (map_reindex [] (fun idx => bigprod n (fun i => nth (nth i idx 0%nat) (nth i ws []) 0))).
  apply map_ext_in. intros k Hk. apply in_seq in Hk.
  rewrite meshgrid_column by (rewrite shapes_agree; fold (product_indices xs); lia).
  rewrite shapes_agree. fold (product_indices xs).
  apply (prod_map2_seq (fun (pool : vec) j => nth j pool 0) ws (nth k (product_indices xs) []) n [] 0%nat);
    [exact ws_length|].
  apply index_length. apply nth_In. lia.
Qed.

Lemma product_values :
  separable gs (mapped_nodes (meshgrid_ij xs) a b)
  = [map (fun idx => bigprod n (fun i =>
            nth i gs (fun _ => 0)
                (mapped_node a b i (nth (nth i idx 0%nat) (nth i xs []) 0)))) (product_indices xs)].
Proof.
  unfold separable, vectorize. cbn [seq map nth]. f_equal.
  assert (HX : mapped_nodes (meshgrid_ij xs) a b
               = map (fun i => map (fun idx => mapped_node a b i
                                      (nth (nth i idx 0%nat) (nth i xs []) 0)) (product_indices xs))
                     (seq 0 n)).
  { unfold mapped_nodes. rewrite meshgrid_length, xs_length.
    apply map_ext_in. intros i Hi. apply in_seq in Hi.
    rewrite meshgrid_row by lia. fold (product_indices xs). now rewrite map_map. }
  rewrite HX.
  assert (Hc : np.ncols (map (fun i => map (fun idx => mapped_node a b i
                                      (nth (nth i idx 0%nat) (nth i xs []) 0)) (product_indices xs))
                     (seq 0 n)) = length (product_indices xs)).
  { destruct n as [|m]; [lia|]. cbn [seq map np.ncols]. now rewrite length_map. }
  rewrite Hc.
  rewrite <- (map_reindex [] (fun idx => bigprod n (fun i =>
            nth i gs (fun _ => 0)
                (mapped_node a b i (nth (nth i idx 0%nat) (nth i xs []) 0))))).
  apply map_ext_in. intros k Hk. apply in_seq in Hk.
  unfold column. rewrite map_map.
  rewrite (prod_map2_seq (fun g t => g t) gs _ n (fun _ => 0) 0)
    by (rewrite ?length_map, ?length_seq; auto).
  apply bigprod_ext. intros i Hi. f_equal.
  rewrite nth_map_seq by lia.
  rewrite (nth_indep _ 0 ((fun idx => mapped_node a b i
                             (nth (nth i idx 0%nat) (nth i xs []) 0)) []))
    by (rewrite length_map; lia).
  now rewrite (map_nth (fun idx => mapped_node a b i
                          (nth (nth i idx 0%nat) (nth i xs []) 0))).
Qed.

Lemma product_estimate :
  _apply_rule (separable gs) a b (meshgrid_ij xs, prod_axis0 (meshgrid_ij ws))
  = Ok [bigprod n (fun i =>
          (nth i b 0 - nth i a 0) / qz 2
          * bigsum (length (nth i xs []))
              (fun k => nth k (nth i ws []) 0
                        * nth i gs (fun _ => 0) (mapped_node a b i (nth k (nth i xs []) 0))))].
Proof.
  rewrite apply_rule_weighted_sum.
  2,3: rewrite meshgrid_length; congruence.
  2:{ rewrite product_values, product_weights. constructor; [|constructor].
      now rewrite !length_map. }
  rewrite product_values, product_weights. cbn [map]. f_equal. f_equal.
  rewrite map_map, map2_map_same.
  unfold mapped_weight, jacobian. rewrite a_length. fold (bigprod n (fun i => (nth i b 0 - nth i a 0) / qz 2)).
  set (J := bigprod n _).
  rewrite (map_ext _ (fun idx => J * bigprod n (fun i =>
             nth (nth i idx 0%nat) (nth i ws []) 0
             * nth i gs (fun _ => 0)
                 (mapped_node a b i (nth (nth i idx 0%nat) (nth i xs []) 0)))))
    by (intros idx; rewrite bigprod_mul; ring).
  rewrite sum_scale_l.
  pose proof (sum_prod_ndindex (map (@length Qc) xs)
                (fun i k => nth k (nth i ws []) 0
                            * nth i gs (fun _ => 0)
                                (mapped_node a b i (nth k (nth i xs []) 0)))) as S.
  assert (Hx : @length (list Qc) xs = n) by exact xs_length.
  rewrite length_map, Hx in S. fold (product_indices xs) in S.
  eapply eq_trans; [apply f_equal; exact S|].
  unfold J. rewrite <- bigprod_mul. apply bigprod_ext. intros i Hi.
  change 0%nat with (@length Qc []). now rewrite map_nth.
Qed.

End ProductEstimate.

Lemma single_rules (xs ws : list vec) :
  length xs = length ws ->
  map2 (fun (x w : vec) => @Ok (matrix * vec) ([x], w)) xs ws
  = map (@Ok (matrix * vec)) (map2 (fun (x w : vec) => ([x], w)) xs ws) /\
  map (fun r : matrix * vec => List.concat (fst r)) (map2 (fun (x w : vec) => ([x], w)) xs ws)
  = xs /\
  map (@snd matrix vec) (map2 (fun (x w : vec) => ([x], w)) xs ws) = ws.
Proof.
  revert ws. induction xs as [|x xs IH]; intros [|w ws] H; simpl in H; try discriminate.
  - repeat split.
  - destruct (IH ws) as (E1 & E2 & E3); [lia|].
    cbn [map2 map fst snd List.concat]. rewrite E1, E2, E3, app_nil_r. repeat split.
Qed.

(** X13. The estimate of [Product] for an integrand that is a product of
    functions of one coordinate each is the product of the estimates of the
    one-dimensional base rules, each applied to its function over its side of
    the box. *)
Theorem Product_estimate_separable
        (base_cubatures : list (result (matrix * vec) * result (matrix * vec)))
        (xs ws : list vec) (gs : list (Qc -> Qc)) (a b es : vec) (n : nat) :
  (1 <= n)%nat ->
  length xs = n -> length ws = n -> length gs = n ->
  length a = n -> length b = n -> length es = n ->
  (forall i, (i < n)%nat -> length (nth i xs []) = length (nth i ws [])) ->
  map fst base_cubatures = map2 (fun x w => Ok ([x], w)) xs ws ->
  (forall i, (i < n)%nat ->
     estimate (FixedCubature (Ok ([nth i xs []], nth i ws [])))
              (pointwise (nth i gs (fun _ => 0))) [nth i a 0] [nth i b 0]
     = Ok [nth i es 0]) ->
  estimate (Product base_cubatures) (separable gs) a b = Ok [np.prod es].
Proof.
  intros Hn Hxs Hws Hgs Ha Hb Hes Hm Hbase H1.
  destruct (single_rules xs ws) as (E1 & E2 & E3); [len|].
  cbn [estimate Product ErrorFromDifference FixedCubature].
  unfold Product_rule, Product_rule_of.
  rewrite (mapM_Ok fst base_cubatures (map2 (fun (x w : vec) => ([x], w)) xs ws))
    by (rewrite Hbase; exact E1).
  cbn [bind]. unfold matrix, vec in *. rewrite E2, E3.
  destruct xs as [|x0 xs']; [simpl in Hxs; lia|].
  destruct ws as [|w0 ws']; [simpl in Hws; lia|].
  cbn [_cartesian_product bind].
  eapply eq_trans;
    [apply (product_estimate (x0 :: xs') (w0 :: ws') gs a b n); assumption|].
  f_equal. f_equal.
  rewrite (list_as_map_nth 0 es), Hes. fold (bigprod n (fun k => nth k es 0)).
  apply bigprod_ext. intros i Hi.
  specialize (H1 i Hi). rewrite estimate_pointwise in H1 by auto.
  injection H1 as <-. reflexivity.
Qed.

Lemma Product_estimate_separable_witness :
  estimate (Product [(Ok ([[- (1); 1]], [1; 1]), Ok ([[0]], [qz 2]));
                     (Ok ([[- (1); 1]], [1; 1]), Ok ([[0]], [qz 2]))])
           (separable [fun x => x; fun y => y * y]) [0; 0] [1; 1]
  = Ok [qz 1 / qz 4].
Proof.
  eapply eq_trans.
  - apply (Product_estimate_separable
             [(Ok ([[- (1); 1]], [1; 1]), Ok ([[0]], [qz 2]));
              (Ok ([[- (1); 1]], [1; 1]), Ok ([[0]], [qz 2]))]
             [[- (1); 1]; [- (1); 1]] [[1; 1]; [1; 1]]
             [fun x => x; fun y => y * y] [0; 0] [1; 1]
             [qz 1 / qz 2; qz 1 / qz 2] 2);
      try reflexivity; try lia.
    + intros [|[|i]] Hi; try lia; reflexivity.
    + intros [|[|i]] Hi; try lia; qc_compute.
  - qc_compute.
Defined.

(** ** X14: the distinct permutations *)

(** *** Sorting *)

Lemma insert_sorted_perm x l : Permutation (x :: l) (insert_sorted x l).
Proof.
  induction l as [|y l IH]; cbn [insert_sorted]; [reflexivity|].
  destruct (Qcltb x y); [reflexivity|].
  rewrite perm_swap. now constructor.
Qed.

Lemma sorted_perm l : Permutation l (sorted l).
Proof.
  induction l as [|x l IH]; [reflexivity|].
  cbn [sorted fold_right]. fold (sorted l).
  rewrite <- insert_sorted_perm. now constructor.
Qed.

Lemma insert_sorted_ascending x l : ascending l -> ascending (insert_sorted x l).
Proof.
  unfold ascending. induction 1 as [|y l Hl IH Hy]; cbn [insert_sorted].
  - repeat constructor.
  - pose proof (Qcltb_spec x y) as Hq. destruct (Qcltb x y).
    + constructor; [now constructor|].
      constructor; [now apply Qclt_le_weak|].
      eapply Forall_impl; [|exact Hy]. intros z Hz.
      eapply Qcle_trans; [apply Qclt_le_weak; exact Hq|exact Hz].
    + constructor; [exact IH|].
      eapply Permutation_Forall; [apply insert_sorted_perm|].
      constructor; auto.
Qed.

Lemma sorted_ascending l : ascending (sorted l).
Proof.
  induction l as [|x l IH]; [constructor|].
  cbn [sorted fold_right]. now apply insert_sorted_ascending.
Qed.

(** *** The two searches *)

Lemma find_ascent_none items count :
  find_ascent items count = None ->
  forall k, (k < count)%nat -> nth (S k) items 0 <= nth k items 0.
Proof.
  induction count as [|i IH]; intros H k Hk; [lia|].
  cbn [find_ascent] in H.
  pose proof (Qcltb_spec (nth i items 0) (nth (S i) items 0)) as Hq.
  destruct (Qcltb _ _); [discriminate|].
  destruct (Nat.eq_dec k i) as [->|]; [exact Hq|]. apply IH; [exact H|lia].
Qed.

Lemma find_ascent_some items count i :
  find_ascent items count = Some i ->
  (i < count)%nat /\ nth i items 0 < nth (S i) items 0 /\
  forall k, (i < k < count)%nat -> nth (S k) items 0 <= nth k items 0.
Proof.
  induction count as [|c IH]; intros H; [discriminate|].
  cbn [find_ascent] in H.
  pose proof (Qcltb_spec (nth c items 0) (nth (S c) items 0)) as Hq.
  destruct (Qcltb _ _).
  - injection H as <-. split; [lia|]. split; [exact Hq|]. intros k Hk. lia.
  - destruct (IH H) as (Hi & Hlt & Hd). split; [lia|]. split; [exact Hlt|].
    intros k Hk. destruct (Nat.eq_dec k c) as [->|]; [exact Hq|]. apply Hd. lia.
Qed.

Lemma find_larger_spec items i count :
  nth i items 0 < nth (S i) items 0 -> (1 <= count)%nat ->
  let j := find_larger items i count in
  (i < j <= i + count)%nat /\ nth i items 0 < nth j items 0 /\
  forall k, (j < k <= i + count)%nat -> nth k items 0 <= nth i items 0.
Proof.
  intros Hi. induction count as [|c IH]; intros Hc; [lia|].
  cbn [find_larger].
  pose proof (Qcltb_spec (nth i items 0) (nth (i + S c) items 0)) as Hq.
  destruct (Qcltb _ _).
  - cbn zeta. split; [lia|]. split; [exact Hq|]. intros k Hk. lia.
  - destruct c as [|c].
    + cbn [find_larger]. cbn zeta. split; [lia|]. split; [exact Hi|].
      intros k Hk. lia.
    + destruct (IH ltac:(lia)) as (Hj & Hlt & Hd). cbn zeta.
      split; [lia|]. split; [exact Hlt|]. intros k Hk.
      destruct (Nat.eq_dec k (i + S (S c))) as [->|]; [exact Hq|]. apply Hd. lia.
Qed.

(** *** Lists cut at an index *)

Lemma split_at {A} (d : A) (l : list A) i :
  (i < length l)%nat -> l = firstn i l ++ nth i l d :: skipn (S i) l.
Proof.
  revert i. induction l as [|x l IH]; intros [|i] H; simpl in *; try lia; auto.
  f_equal. apply IH. lia.
Qed.

Lemma update_app {A} (pre l : list A) k v :
  update (pre ++ l) (length pre + k) v = pre ++ update l k v.
Proof. induction pre as [|x pre IH]; simpl; [reflexivity|now rewrite IH]. Qed.

Lemma nth_app_at {A} (d : A) (pre l : list A) k :
  nth (length pre + k) (pre ++ l) d = nth k l d.
Proof. induction pre as [|x pre IH]; simpl; auto. Qed.

Lemma firstn_app_exact {A} (pre l : list A) : firstn (length pre) (pre ++ l) = pre.
Proof. induction pre as [|x pre IH]; simpl; [now destruct l|now rewrite IH]. Qed.

Lemma skipn_app_exact {A} (pre l : list A) : skipn (length pre) (pre ++ l) = l.
Proof. induction pre as [|x pre IH]; simpl; auto. Qed.

Lemma descending_of_steps (l : vec) :
  (forall k, (S k < length l)%nat -> nth (S k) l 0 <= nth k l 0) -> descending l.
Proof.
  unfold descending. induction l as [|x l IH]; intros H; [constructor|].
  assert (Hl : StronglySorted (fun x y => y <= x) l).
  { apply IH. intros k Hk. apply (H (S k)). simpl. lia. }
  constructor; [exact Hl|].
  destruct l as [|y l]; [constructor|].
  assert (Hy : y <= x) by (apply (H 0%nat); simpl; lia).
  constructor; [exact Hy|].
  inversion Hl as [|? ? _ Hall]; subst.
  eapply Forall_impl; [|exact Hall]. intros z Hz.
  apply Qcle_trans with y; [exact Hz|exact Hy].
Qed.

(** The shape of one step: [items = pre ++ x :: s1 ++ y :: s2] with a
    descending tail after [x], [y] its last entry above [x]. *)
Lemma next_permutation_some items items' :
  next_permutation items = Some items' ->
  exists pre x s1 y s2,
    items = pre ++ x :: s1 ++ y :: s2 /\
    items' = pre ++ y :: rev (s1 ++ x :: s2) /\
    x < y /\ descending (s1 ++ y :: s2) /\ Forall (fun z => z <= x) s2.
Proof.
  unfold next_permutation. intros H.
  destruct (find_ascent items (length items - 1)) as [i|] eqn:Ei; [|discriminate].
  injection H as <-.
  destruct (find_ascent_some _ _ _ Ei) as (Hi & Hlt & Hd).
  destruct (find_larger_spec items i (length items - 1 - i) Hlt ltac:(lia))
    as (Hj & Hlt' & Hs).
  set (j := find_larger items i (length items - 1 - i)) in *.
  set (suf := skipn (S i) items).
  assert (E1 : items = firstn i items ++ nth i items 0 :: suf)
    by (apply split_at; lia).
  assert (Li : length (firstn i items) = i) by (rewrite length_firstn; lia).
  assert (Ls : length suf = (length items - S i)%nat) by (unfold suf; apply length_skipn).
  assert (Nsuf : forall k, nth k suf 0 = nth (S i + k) items 0)
    by (intros k; unfold suf; apply nth_skipn).
  assert (E2 : suf = firstn (j - S i) suf ++ nth j items 0 :: skipn (S (j - S i)) suf).
  { rewrite (split_at 0 suf (j - S i)) at 1 by lia.
    rewrite Nsuf. do 3 f_equal. lia. }
  set (pre := firstn i items) in *. set (x := nth i items 0) in *.
  set (y := nth j items 0) in *.
  set (s1 := firstn (j - S i) suf) in *. set (s2 := skipn (S (j - S i)) suf) in *.
  assert (L1 : length s1 = (j - S i)%nat) by (unfold s1; rewrite length_firstn; lia).
  exists pre, x, s1, y, s2.
  assert (E : items = pre ++ x :: s1 ++ y :: s2) by (rewrite <- E2; exact E1).
  split; [exact E|]. split; [|split; [exact Hlt'|split]].
  - assert (U1 : update items i y = pre ++ y :: s1 ++ y :: s2).
    { rewrite E at 1. rewrite <- Li at 1. rewrite <- (Nat.add_0_r (length pre)).
      now rewrite update_app. }
    rewrite U1.
    assert (U2 : update (pre ++ y :: s1 ++ y :: s2) j x = pre ++ y :: s1 ++ x :: s2).
    { replace j with (length pre + S (length s1 + 0))%nat by lia.
      rewrite update_app. cbn [update]. now rewrite update_app. }
    rewrite U2. rewrite Nat.add_1_r.
    replace (pre ++ y :: s1 ++ x :: s2) with ((pre ++ [y]) ++ s1 ++ x :: s2)
      by (now rewrite <- app_assoc).
    replace (S i) with (length (pre ++ [y])) by (rewrite length_app; simpl; lia).
    rewrite firstn_app_exact, skipn_app_exact. now rewrite <- app_assoc.
  - rewrite <- E2. apply descending_of_steps. intros k Hk.
    rewrite !Nsuf. replace (S i + S k)%nat with (S (S i + k)) by lia.
    apply Hd. lia.
  - apply Forall_forall. intros z Hz.
    apply (In_nth _ _ 0) in Hz as (k & Hk & <-).
    assert (Ek : nth k s2 0 = nth (S j + k) items 0).
    { rewrite E. replace (pre ++ x :: s1 ++ y :: s2) with ((pre ++ x :: s1 ++ [y]) ++ s2)
        by (rewrite <- !app_assoc; cbn; now rewrite <- app_assoc).
      replace (S j + k)%nat with (length (pre ++ x :: s1 ++ [y]) + k)%nat
        by (rewrite !length_app; cbn [length]; rewrite length_app; cbn [length]; lia).
      now rewrite nth_app_at. }
    rewrite Ek. apply Hs.
    assert (length items = length pre + S (length s1 + S (length s2)))%nat
      by (rewrite E at 1; rewrite !length_app; cbn [length]; rewrite length_app; cbn [length]; lia).
    lia.
Qed.

Lemma next_permutation_none items :
  next_permutation items = None -> descending items.
Proof.
  unfold next_permutation. intros H.
  destruct (find_ascent items (length items - 1)) as [i|] eqn:Ei; [discriminate|].
  apply descending_of_steps. intros k Hk.
  apply (find_ascent_none _ _ Ei). lia.
Qed.

(** *** The lexicographic order *)

Lemma lex_lt_asym p q : lex_lt p q -> lex_lt q p -> False.
Proof.
  induction 1 as [x y p q Hxy|x p q _ IH]; intros H; inversion H; subst.
  - eapply Qclt_not_le; [exact Hxy|]. now apply Qclt_le_weak.
  - eapply Qclt_not_le; [exact Hxy|]. apply Qcle_refl.
  - eapply Qclt_not_le; [eassumption|]. apply Qcle_refl.
  - auto.
Qed.

Lemma lex_lt_irrefl p : ~ lex_lt p p.
Proof. intros H. exact (lex_lt_asym p p H H). Qed.

Lemma lex_lt_trans p q r : lex_lt p q -> lex_lt q r -> lex_lt p r.
Proof.
  intros H. revert r. induction H as [x y p q Hxy|x p q _ IH]; intros r Hr;
    inversion Hr; subst.
  - constructor. eapply Qclt_trans; eauto.
  - now constructor.
  - now constructor.
  - apply lex_there. auto.
Qed.

Lemma lex_lt_app pre p q : lex_lt p q -> lex_lt (pre ++ p) (pre ++ q).
Proof. intros H. induction pre as [|x pre IH]; [exact H|now apply lex_there]. Qed.

Lemma lex_lt_length p q : lex_lt p q -> Permutation p q -> length p = length q.
Proof. intros _ H. now apply Permutation_length. Qed.

(** An entry of a permutation that is not the head lies in the tail. *)
Lemma lt_total x y : x < y \/ x = y \/ y < x.
Proof.
  destruct (Qc_dec x y) as [[H|H]|H]; auto.
Qed.

(** An ascending list is the least of its permutations, a descending one
    the greatest. *)
Lemma ascending_least s : ascending s ->
  forall r, Permutation s r -> r = s \/ lex_lt s r.
Proof.
  unfold ascending. induction 1 as [|x s Hs IH Hx]; intros r Hr.
  - apply Permutation_nil in Hr. now left.
  - destruct r as [|z r]; [apply Permutation_sym, Permutation_nil in Hr; discriminate|].
    assert (Hz : In z (x :: s)) by (eapply Permutation_in; [symmetry; exact Hr|now left]).
    assert (Hle : x <= z).
    { destruct Hz as [->|Hz]; [apply Qcle_refl|].
      rewrite Forall_forall in Hx. now apply Hx. }
    destruct (lt_total x z) as [H|[H|H]].
    + right. now constructor.
    + subst z. apply Permutation_cons_inv in Hr.
      destruct (IH r Hr) as [->|H]; [now left|right; now apply lex_there].
    + exfalso. eapply Qclt_not_le; eauto.
Qed.

Lemma descending_greatest s : descending s ->
  forall r, Permutation s r -> r = s \/ lex_lt r s.
Proof.
  unfold descending. induction 1 as [|x s Hs IH Hx]; intros r Hr.
  - apply Permutation_nil in Hr. now left.
  - destruct r as [|z r]; [apply Permutation_sym, Permutation_nil in Hr; discriminate|].
    assert (Hz : In z (x :: s)) by (eapply Permutation_in; [symmetry; exact Hr|now left]).
    assert (Hle : z <= x).
    { destruct Hz as [->|Hz]; [apply Qcle_refl|].
      rewrite Forall_forall in Hx. now apply Hx. }
    destruct (lt_total z x) as [H|[H|H]].
    + right. now constructor.
    + subst z. apply Permutation_cons_inv in Hr.
      destruct (IH r Hr) as [->|H]; [now left|right; now apply lex_there].
    + exfalso. eapply Qclt_not_le; eauto.
Qed.

Lemma descending_app_inv u v :
  descending (u ++ v) ->
  descending u /\ descending v /\
  forall a b, In a u -> In b v -> b <= a.
Proof.
  unfold descending. induction u as [|x u IH]; intros H.
  - split; [constructor|]. split; [exact H|]. intros a b [].
  - cbn [app] in H. inversion H as [|? ? Hs Hx]; subst.
    destruct (IH Hs) as (Hu & Hv & Huv).
    rewrite Forall_app in Hx. destruct Hx as [Hxu Hxv].
    split; [now constructor|]. split; [exact Hv|].
    intros a b [<-|Ha] Hb; [|now apply Huv].
    rewrite Forall_forall in Hxv. now apply Hxv.
Qed.

Lemma descending_app u v :
  descending u -> descending v ->
  (forall a b, In a u -> In b v -> b <= a) -> descending (u ++ v).
Proof.
  unfold descending. intros Hu Hv Huv. induction Hu as [|x u Hs IH Hx]; [exact Hv|].
  cbn [app]. constructor.
  - apply IH. intros a b Ha Hb. apply Huv; [now right|exact Hb].
  - apply Forall_app. split; [exact Hx|].
    apply Forall_forall. intros b Hb. apply Huv; [now left|exact Hb].
Qed.

Lemma ascending_rev l : descending l -> ascending (rev l).
Proof.
  unfold ascending, descending. induction 1 as [|x l Hs IH Hx]; [constructor|].
  cbn [rev].
  assert (G : forall u, StronglySorted Qcle u -> Forall (fun z => z <= x) u ->
                        StronglySorted Qcle (u ++ [x])).
  { intros u Hu. induction Hu as [|a u Hu' IHu Ha]; intros Hall.
    - repeat constructor.
    - inversion Hall; subst. cbn [app]. constructor; [now apply IHu|].
      apply Forall_app. split; [exact Ha|]. now repeat constructor. }
  apply G; [exact IH|]. apply Forall_rev. exact Hx.
Qed.

(** *** One step goes to the next permutation *)

Lemma lex_lt_app_inv pre u r :
  lex_lt (pre ++ u) r ->
  (exists r', r = pre ++ r' /\ lex_lt u r') \/
  (forall v, lex_lt (pre ++ v) r).
Proof.
  revert r. induction pre as [|a pre IH]; intros r H.
  - left. now exists r.
  - cbn [app] in H. inversion H; subst.
    + right. intros v. now constructor.
    + destruct (IH _ H3) as [(r' & -> & Hr')|Hv].
      * left. now exists r'.
      * right. intros v. apply lex_there. apply Hv.
Qed.

Lemma step_is_successor pre x s1 y s2 :
  x < y -> descending (s1 ++ y :: s2) -> Forall (fun z => z <= x) s2 ->
  let p := pre ++ x :: s1 ++ y :: s2 in
  let q := pre ++ y :: rev (s1 ++ x :: s2) in
  Permutation p q /\ lex_lt p q /\
  forall r, Permutation p r -> lex_lt p r -> r = q \/ lex_lt q r.
Proof.
  intros Hxy Hd Hs2 p q.
  assert (Pt : Permutation (x :: s1 ++ y :: s2) (y :: s1 ++ x :: s2)).
  { rewrite <- !Permutation_middle. apply perm_swap. }
  split; [|split].
  - unfold p, q. apply Permutation_app_head. rewrite Pt.
    constructor. apply Permutation_rev.
  - unfold p, q. apply lex_lt_app. now constructor.
  - intros r Hr Hlt. unfold p in Hlt.
    destruct (lex_lt_app_inv _ _ _ Hlt) as [(r' & -> & Hr')|Hv]; [|right; apply Hv].
    unfold p in Hr. apply Permutation_app_inv_l in Hr.
    destruct (descending_app_inv _ _ Hd) as (Hd1 & Hd2 & H12).
    inversion Hr' as [? z ? t Hxz|? ? t Ht]; subst.
    + (* the first entry grows *)
      assert (Hz : In z (s1 ++ y :: s2)).
      { assert (Hz : In z (x :: s1 ++ y :: s2))
          by (eapply Permutation_in; [symmetry; exact Hr|now left]).
        destruct Hz as [->|Hz]; [|exact Hz].
        exfalso. eapply Qclt_not_le; [exact Hxz|apply Qcle_refl]. }
      assert (Hyz : y <= z).
      { apply in_app_or in Hz as [Hz|[<-|Hz]].
        - apply H12; [exact Hz|now left].
        - apply Qcle_refl.
        - exfalso. rewrite Forall_forall in Hs2.
          eapply Qclt_not_le; [exact Hxz|]. now apply Hs2. }
      destruct (lt_total y z) as [H|[H|H]].
      * right. unfold q. apply lex_lt_app. now constructor.
      * subst z. rewrite Pt in Hr. apply Permutation_cons_inv in Hr.
        assert (Ha : ascending (rev (s1 ++ x :: s2))).
        { apply ascending_rev. inversion Hd2 as [|? ? Hd2' Hy2]; subst.
          apply descending_app; [exact Hd1| |].
          - constructor; [exact Hd2'|exact Hs2].
          - intros a b Ha [<-|Hb].
            + apply Qcle_trans with y; [now apply Qclt_le_weak|].
              apply H12; [exact Ha|now left].
            + apply H12; [exact Ha|now right]. }
        destruct (ascending_least _ Ha t) as [->|H].
        { rewrite <- Hr. symmetry. apply Permutation_rev. }
        -- now left.
        -- right. unfold q. apply lex_lt_app. now apply lex_there.
      * exfalso. eapply Qclt_not_le; eauto.
    + (* the first entry stays: the tail is already the greatest *)
      apply Permutation_cons_inv in Hr.
      destruct (descending_greatest _ Hd t Hr) as [->|H].
      * exfalso. exact (lex_lt_irrefl _ Ht).
      * exfalso. exact (lex_lt_asym _ _ Ht H).
Qed.

(** *** Termination *)

Lemma rank_bound l x : (rank l x <= length l)%nat.
Proof. unfold rank. apply filter_length_le. Qed.

Lemma rank_lt l x y : In x l -> x < y -> (rank l x < rank l y)%nat.
Proof.
  unfold rank. intros Hx Hxy. induction l as [|z l IH]; [destruct Hx|].
  cbn [filter].
  assert (Mono : forall l', (length (filter (fun t => Qcltb t x) l')
                             <= length (filter (fun t => Qcltb t y) l'))%nat).
  { induction l' as [|t l' IHl']; [apply le_n|]. cbn [filter].
    pose proof (Qcltb_spec t x) as Sx. pose proof (Qcltb_spec t y) as Sy.
    destruct (Qcltb t x), (Qcltb t y); cbn [length]; try lia.
    exfalso. eapply Qclt_not_le; [|exact Sy]. eapply Qclt_trans; eauto. }
  pose proof (Qcltb_spec z x) as Sx. pose proof (Qcltb_spec z y) as Sy.
  destruct Hx as [->|Hx].
  - destruct (Qcltb x x).
    + exfalso. eapply Qclt_not_le; [exact Sx|apply Qcle_refl].
    + destruct (Qcltb x y).
      * cbn [length]. specialize (Mono l). lia.
      * exfalso. eapply Qclt_not_le; eauto.
  - specialize (IH Hx).
    destruct (Qcltb z x), (Qcltb z y); cbn [length]; try lia.
    exfalso. eapply Qclt_not_le; [|exact Sy]. eapply Qclt_trans; eauto.
Qed.

Lemma code_from l p : forall acc,
  fold_left (fun acc x => (acc * S (length l) + rank l x)%nat) p acc
  = (acc * S (length l) ^ length p + code l p)%nat.
Proof.
  unfold code. induction p as [|x p IH]; intros acc.
  - cbn. lia.
  - cbn [fold_left length]. rewrite IH. rewrite (IH (0 * _ + _)%nat).
    rewrite Nat.pow_succ_r'. lia.
Qed.

Lemma code_cons l x p :
  code l (x :: p) = (rank l x * S (length l) ^ length p + code l p)%nat.
Proof. unfold code at 1. cbn [fold_left]. rewrite code_from. lia. Qed.

Lemma code_bound l p : (code l p < S (length l) ^ length p)%nat.
Proof.
  induction p as [|x p IH]; [cbn; lia|].
  rewrite code_cons. cbn [length]. rewrite Nat.pow_succ_r'.
  pose proof (rank_bound l x). nia.
Qed.

Lemma code_lex l p q :
  lex_lt p q -> length p = length q -> (forall x, In x p -> In x l) ->
  (code l p < code l q)%nat.
Proof.
  induction 1 as [x y p q Hxy|x p q _ IH]; intros Hl Hin; cbn [length] in Hl;
    rewrite !code_cons.
  - assert (Hr : (rank l x < rank l y)%nat) by (apply rank_lt; [apply Hin; now left|exact Hxy]).
    pose proof (code_bound l p) as Bp.
    replace (length q) with (length p) by lia. nia.
  - replace (length q) with (length p) by lia.
    apply Nat.add_lt_mono_l. apply IH; [lia|]. intros z Hz. apply Hin. now right.
Qed.

Section Enumeration.

Variable l : vec.

Lemma loop_returns : forall fuel p,
  Permutation l p ->
  (S (length l) ^ length l <= fuel + code l p)%nat ->
  exists out, _distinct_permutations_loop fuel p = Ok out.
Proof.
  induction fuel as [|fuel IH]; intros p Hp Hf.
  - pose proof (code_bound l p) as B.
    rewrite <- (Permutation_length Hp) in B. lia.
  - cbn [_distinct_permutations_loop].
    destruct (next_permutation p) as [q|] eqn:E; [|eexists; reflexivity].
    destruct (next_permutation_some _ _ E) as (pre & x & s1 & y & s2 & -> & -> & Hxy & Hd & Hs).
    destruct (step_is_successor pre x s1 y s2 Hxy Hd Hs) as (Pq & Lq & _).
    destruct (IH (pre ++ y :: rev (s1 ++ x :: s2))) as (out & ->).
    + now rewrite <- Pq.
    + assert (code l (pre ++ x :: s1 ++ y :: s2)
              < code l (pre ++ y :: rev (s1 ++ x :: s2)))%nat.
      { apply code_lex; [exact Lq|now apply Permutation_length|].
        intros z Hz. eapply Permutation_in; [symmetry; exact Hp|exact Hz]. }
      lia.
    + eexists. reflexivity.
Qed.

Lemma loop_sound : forall fuel p out,
  Permutation l p ->
  _distinct_permutations_loop fuel p = Ok out ->
  Forall (Permutation l) out /\
  StronglySorted lex_lt out /\
  Forall (fun r => r = p \/ lex_lt p r) out /\
  forall r, Permutation l r -> r = p \/ lex_lt p r -> In r out.
Proof.
  induction fuel as [|fuel IH]; intros p out Hp H; [discriminate|].
  cbn [_distinct_permutations_loop] in H.
  destruct (next_permutation p) as [q|] eqn:E.
  - destruct (_distinct_permutations_loop fuel q) as [rest| |] eqn:Er; cbn [bind] in H;
      try discriminate.
    injection H as <-.
    destruct (next_permutation_some _ _ E) as (pre & x & s1 & y & s2 & Ep & Eq & Hxy & Hd & Hs).
    destruct (step_is_successor pre x s1 y s2 Hxy Hd Hs) as (Pq & Lq & Sq).
    rewrite <- Ep, <- Eq in Pq, Lq, Sq.
    assert (Hq : Permutation l q) by (now rewrite <- Pq).
    destruct (IH q rest Hq Er) as (Hall & Hsorted & Hge & Hin).
    assert (Hgt : Forall (lex_lt p) rest).
    { eapply Forall_impl; [|exact Hge]. intros r [->|Hr]; [exact Lq|].
      eapply lex_lt_trans; eauto. }
    split; [now constructor|]. split; [now constructor|]. split.
    + constructor; [now left|]. eapply Forall_impl; [|exact Hgt]. now right.
    + intros r Hr [->|Hlt]; [now left|]. right. apply Hin; [exact Hr|].
      apply Sq; [|exact Hlt]. now rewrite <- Hp.
  - injection H as <-. apply next_permutation_none in E.
    split; [now repeat constructor|]. split; [repeat constructor|]. split.
    + constructor; [now left|constructor].
    + intros r Hr [->|Hlt]; [now left|]. exfalso.
      destruct (descending_greatest _ E r) as [->|H].
      * now rewrite <- Hp.
      * exact (lex_lt_irrefl _ Hlt).
      * exact (lex_lt_asym _ _ Hlt H).
Qed.

End Enumeration.

Lemma sorted_lex_NoDup out : StronglySorted lex_lt out -> NoDup out.
Proof.
  induction 1 as [|p out _ IH Hp]; constructor; [|exact IH].
  intros Hin. rewrite Forall_forall in Hp. exact (lex_lt_irrefl _ (Hp _ Hin)).
Qed.

Lemma distinct_permutations_spec (iterable : vec) (fuel : nat) :
  (S (length iterable) ^ length iterable <= fuel)%nat ->
  exists out,
    _distinct_permutations fuel iterable = Ok out /\
    hd [] out = sorted iterable /\
    enumerates iterable out /\
    StronglySorted lex_lt out.
Proof.
  intros Hf. unfold _distinct_permutations.
  pose proof (sorted_perm iterable) as Ps.
  destruct (loop_returns iterable fuel (sorted iterable) Ps ltac:(lia)) as (out & E).
  destruct (loop_sound iterable fuel _ _ Ps E) as (Hall & Hsorted & Hge & Hin).
  exists out. split; [exact E|]. split; [|split; [split|]].
  - destruct fuel as [|fuel']; [discriminate|]. cbn [_distinct_permutations_loop] in E.
    destruct (next_permutation (sorted iterable)).
    + destruct (_distinct_permutations_loop fuel' v); cbn [bind] in E; try discriminate.
      now injection E as <-.
    + now injection E as <-.
  - now apply sorted_lex_NoDup.
  - intros p. split.
    + intros Hp. rewrite Forall_forall in Hall. now apply Hall.
    + intros Hp. apply Hin; [exact Hp|].
      apply (ascending_least _ (sorted_ascending iterable)). now rewrite <- Ps.
  - exact Hsorted.
Qed.

(** X14. [_distinct_permutations] terminates and yields every distinct
    permutation of its argument exactly once, in strictly increasing
    lexicographic order, the sorted tuple first. *)
Theorem distinct_permutations_enumerates (iterable : vec) (fuel : nat) :
  (S (length iterable) ^ length iterable <= fuel)%nat ->
  exists out,
    _distinct_permutations fuel iterable = Ok out /\
    hd [] out = sorted iterable /\
    (forall p, In p out <-> Permutation iterable p) /\
    NoDup out /\
    StronglySorted lex_lt out.
Proof.
  intros Hf.
  destruct (distinct_permutations_spec iterable fuel Hf) as (out & E & Hh & [N Hin] & Hs).
  exists out. repeat split; auto; apply Hin.
Qed.

Lemma distinct_permutations_enumerates_witness :
  (S (length [1; 0; 1]) ^ length [1; 0; 1] <= 64)%nat /\
  _distinct_permutations 64 [1; 0; 1] = Ok [[0; 1; 1]; [1; 0; 1]; [1; 1; 0]] /\
  exists out, _distinct_permutations 64 [1; 0; 1] = Ok out /\ NoDup out.
Proof.
  assert (Hf : (S (length [1; 0; 1]) ^ length [1; 0; 1] <= 64)%nat) by (vm_compute; lia).
  split; [exact Hf|]. split; [vm_compute; reflexivity|].
  destruct (distinct_permutations_enumerates [1; 0; 1] 64 Hf) as (out & E & _ & _ & N & _).
  exists out. split; [exact E|exact N].
Defined.

(** *** Counting the distinct permutations *)

Lemma Qc_eq_bool_refl x : Qc_eq_bool x x = true.
Proof. unfold Qc_eq_bool. destruct (Qc_eq_dec x x); congruence. Qed.

Lemma starts_with_true v p : starts_with v p = true <-> exists t, p = v :: t.
Proof.
  destruct p as [|y t]; cbn [starts_with].
  - split; [discriminate|intros (t & H); discriminate].
  - split.
    + intros H. apply Qc_eq_bool_correct in H. subst. now exists t.
    + intros (t' & H). injection H as -> _. apply Qc_eq_bool_refl.
Qed.

Lemma enumerates_length l L L' : enumerates l L -> enumerates l L' -> length L = length L'.
Proof.
  intros [N H] [N' H']. apply Permutation_length. apply NoDup_Permutation; auto.
  intros p. now rewrite H, H'.
Qed.

Lemma enumerates_perm l l' L : Permutation l l' -> enumerates l L -> enumerates l' L.
Proof.
  intros P [N H]. split; [exact N|]. intros p. rewrite H. now rewrite P.
Qed.

(** The permutations that start with [v], without their head. *)
Lemma tails_enumerate l v rest L :
  enumerates l L -> Permutation l (v :: rest) ->
  enumerates rest (map (@tl Qc) (filter (starts_with v) L)).
Proof.
  intros [N H] P. split.
  - assert (G : forall M : list vec, NoDup M -> Forall (fun p => starts_with v p = true) M ->
                          NoDup (map (@tl Qc) M)).
    { induction 1 as [|p M Hp _ IH]; intros Hall; [constructor|].
      inversion Hall as [|? ? Hv Hall']; subst. cbn [map]. constructor; [|now apply IH].
      intros Hin. apply in_map_iff in Hin as (q & Eq & Hq). apply Hp.
      rewrite Forall_forall in Hall'. specialize (Hall' q Hq).
      apply starts_with_true in Hv as (t & ->). apply starts_with_true in Hall' as (t' & ->).
      cbn [tl] in Eq. now subst. }
    apply G; [now apply NoDup_filter|].
    apply Forall_forall. intros p Hp. now apply filter_In in Hp.
  - intros t. rewrite in_map_iff. split.
    + intros (p & <- & Hp). apply filter_In in Hp as [Hp Hv].
      apply starts_with_true in Hv as (t & ->). cbn [tl].
      apply H in Hp. rewrite P in Hp. now apply Permutation_cons_inv in Hp.
    + intros Ht. exists (v :: t). split; [reflexivity|]. apply filter_In. split.
      * apply H. rewrite P. now constructor.
      * cbn [starts_with]. apply Qc_eq_bool_refl.
Qed.

Lemma tails_count l v rest L n :
  enumerates l L -> Permutation l (v :: rest) ->
  (forall M, enumerates rest M -> length M = n) ->
  length (filter (starts_with v) L) = n.
Proof.
  intros HL P Hn. rewrite <- (length_map (@tl Qc)). apply Hn.
  eapply tails_enumerate; eauto.
Qed.

Lemma tails_absent l v L :
  enumerates l L -> ~ In v l -> length (filter (starts_with v) L) = 0%nat.
Proof.
  intros [_ H] Hv. destruct (filter (starts_with v) L) as [|p M] eqn:E; [reflexivity|].
  exfalso. assert (Hp : In p (filter (starts_with v) L)) by (rewrite E; now left).
  apply filter_In in Hp as [Hp Hs]. apply starts_with_true in Hs as (t & ->).
  apply H in Hp. apply Hv. eapply Permutation_in; [symmetry; exact Hp|now left].
Qed.

(** The tuples are told apart by their heads. *)
Lemma heads_partition (vs : vec) : NoDup vs -> forall L : list vec,
  (forall p, In p L -> exists v, In v vs /\ starts_with v p = true) ->
  length L = list_sum (map (fun v => length (filter (starts_with v) L)) vs).
Proof.
  induction 1 as [|v vs Hv _ IH]; intros L HL.
  - destruct L as [|p L]; [reflexivity|].
    destruct (HL p (or_introl eq_refl)) as (v & [] & _).
  - cbn [map list_sum fold_right]. fold (list_sum (map (fun v0 => length (filter (starts_with v0) L)) vs)).
    rewrite <- (filter_length (starts_with v) L) at 1.
    f_equal. rewrite (IH (filter (fun p => negb (starts_with v p)) L)).
    + f_equal. apply map_ext_in. intros w Hw. f_equal.
      assert (F : forall M : list vec,
                 filter (starts_with w) (filter (fun p => negb (starts_with v p)) M)
                 = filter (starts_with w) M).
      { induction M as [|p M IHM]; [reflexivity|]. cbn [filter].
        destruct (starts_with v p) eqn:Ev, (starts_with w p) eqn:Ew; cbn [negb filter];
          rewrite ?Ew, ?IHM; try reflexivity.
        exfalso. apply starts_with_true in Ev as (t & ->).
        apply starts_with_true in Ew as (t' & E). injection E as -> _. contradiction. }
      apply F.
    + intros p Hp. apply filter_In in Hp as [Hp Hn].
      destruct (HL p Hp) as (w & [<-|Hw] & Hs).
      * rewrite Hs in Hn. discriminate.
      * now exists w.
Qed.

Lemma heads_known l L (vs : vec) :
  enumerates l L -> l <> [] -> (forall z, In z l -> In z vs) ->
  forall p, In p L -> exists v, In v vs /\ starts_with v p = true.
Proof.
  intros [_ H] Hl Hvs p Hp. apply H in Hp.
  destruct p as [|h t].
  - apply Permutation_sym, Permutation_nil in Hp. contradiction.
  - exists h. split.
    + apply Hvs. eapply Permutation_in; [symmetry; exact Hp|now left].
    + cbn [starts_with]. apply Qc_eq_bool_refl.
Qed.

Lemma enumerates_zeros m L : enumerates (List.repeat 0 m) L -> length L = 1%nat.
Proof.
  intros H. apply (enumerates_length _ _ [List.repeat 0 m] H).
  split; [repeat constructor; intros []|].
  intros p. split.
  - intros [<-|[]]. reflexivity.
  - intros Hp. left. symmetry. apply Permutation_repeat. now symmetry.
Qed.

Lemma in_zeros z m : In z (List.repeat 0 m) -> z = 0.
Proof. intros H. now apply repeat_spec in H. Qed.

(** One entry [x] among [m] zeros: [m + 1] arrangements. *)
Lemma count_one x : x <> 0 -> forall m L,
  enumerates (x :: List.repeat 0 m) L -> length L = S m.
Proof.
  intros Hx. induction m as [|m IH]; intros L HL.
  - apply (enumerates_length _ _ [[x]] HL). split; [repeat constructor; intros []|].
    intros p. split.
    + intros [<-|[]]. reflexivity.
    + intros Hp. left. symmetry. now apply Permutation_length_1_inv.
  - rewrite (heads_partition [x; 0]).
    + cbn [map list_sum fold_right].
      rewrite (tails_count _ x (List.repeat 0 (S m)) L 1%nat HL (Permutation_refl _)
                 (enumerates_zeros (S m))).
      rewrite (tails_count _ 0 (x :: List.repeat 0 m) L (S m) HL); [lia| |exact IH].
      cbn [List.repeat]. apply perm_swap.
    + repeat constructor; [intros [H|[]]; congruence|intros []].
    + apply (heads_known _ _ _ HL); [discriminate|].
      intros z [<-|Hz]; [now left|]. right. left. symmetry. now apply in_zeros in Hz.
Qed.

(** Two different entries among [m] zeros: [(m + 2) (m + 1)] arrangements. *)
Lemma count_two x y : x <> 0 -> y <> 0 -> x <> y -> forall m L,
  enumerates (x :: y :: List.repeat 0 m) L -> length L = ((m + 2) * (m + 1))%nat.
Proof.
  intros Hx Hy Hxy. induction m as [|m IH]; intros L HL.
  - rewrite (heads_partition [x; y; 0]).
    + cbn [map list_sum fold_right].
      rewrite (tails_count _ x [y] L 1%nat HL (Permutation_refl _) (count_one y Hy 0)).
      rewrite (tails_count _ y [x] L 1%nat HL (perm_swap _ _ _) (count_one x Hx 0)).
      rewrite (tails_absent _ 0 L HL); [reflexivity|].
      intros [H|[H|[]]]; congruence.
    + repeat constructor; [intros [H|[H|[]]]; congruence|intros [H|[]]; congruence|intros []].
    + apply (heads_known _ _ _ HL); [discriminate|].
      intros z [<-|[<-|[]]]; [now left|right; now left].
  - rewrite (heads_partition [x; y; 0]).
    + cbn [map list_sum fold_right].
      rewrite (tails_count _ x (y :: List.repeat 0 (S m)) L (S (S m)) HL
                 (Permutation_refl _) (count_one y Hy (S m))).
      rewrite (tails_count _ y (x :: List.repeat 0 (S m)) L (S (S m)) HL
                 (perm_swap _ _ _) (count_one x Hx (S m))).
      rewrite (tails_count _ 0 (x :: y :: List.repeat 0 m) L ((m + 2) * (m + 1))%nat HL);
        [lia| |exact IH].
      cbn [List.repeat].
      rewrite (perm_swap 0 y (List.repeat 0 m)). apply perm_swap.
    + repeat constructor; [intros [H|[H|[]]]; congruence|intros [H|[]]; congruence|intros []].
    + apply (heads_known _ _ _ HL); [discriminate|].
      intros z [<-|[<-|Hz]]; [now left|right; now left|].
      right. right. left. symmetry. now apply in_zeros in Hz.
Qed.

(** The same entry twice among [m] zeros: [(m + 2) (m + 1) / 2]
    arrangements. *)
Lemma count_pair x : x <> 0 -> forall m L,
  enumerates (x :: x :: List.repeat 0 m) L -> (2 * length L = (m + 2) * (m + 1))%nat.
Proof.
  intros Hx. induction m as [|m IH]; intros L HL.
  - rewrite (heads_partition [x; 0] ltac:(repeat constructor; [intros [H|[]]; congruence|intros []]) L).
    + cbn [map list_sum fold_right].
      rewrite (tails_count _ x [x] L 1%nat HL (Permutation_refl _) (count_one x Hx 0)).
      rewrite (tails_absent _ 0 L HL); [reflexivity|].
      intros [H|[H|[]]]; congruence.
    + apply (heads_known _ _ _ HL); [discriminate|].
      intros z [<-|[<-|[]]]; now left.
  - rewrite (heads_partition [x; 0] ltac:(repeat constructor; [intros [H|[]]; congruence|intros []]) L).
    + cbn [map list_sum fold_right].
      rewrite (tails_count _ x (x :: List.repeat 0 (S m)) L (S (S m)) HL
                 (Permutation_refl _) (count_one x Hx (S m))).
      assert (P : Permutation (x :: x :: List.repeat 0 (S m))
                              (0 :: x :: x :: List.repeat 0 m)).
      { cbn [List.repeat]. rewrite (perm_swap 0 x (List.repeat 0 m)). apply perm_swap. }
      pose proof (tails_enumerate _ 0 _ L HL P) as HT. apply IH in HT.
      rewrite length_map in HT. unfold vec in *. nia.
    + apply (heads_known _ _ _ HL); [discriminate|].
      intros z [<-|[<-|Hz]]; [now left|now left|].
      right. left. symmetry. now apply in_zeros in Hz.
Qed.

(** ** X15 and X16: the Genz-Malik rule *)

Lemma zip_star_full (its : list vec) d :
  its <> [] -> Forall (fun t => length t = d) its ->
  zip_star its = map (fun i => coordinate i its) (seq 0 d).
Proof.
  intros Hne Hall. destruct its as [|t ts]; [congruence|].
  unfold zip_star. inversion Hall as [|? ? Ht Hts]; subst.
  replace (fold_right Nat.min (length t) (map (@length Qc) ts)) with (length t); [reflexivity|].
  clear Hall Hne. induction Hts as [|u ts Hu _ IH]; [reflexivity|].
  cbn [map fold_right]. rewrite <- IH, Hu. now rewrite Nat.min_id.
Qed.

Lemma length_concat_uniform (rows : matrix) K :
  Forall (fun r => length r = K) rows -> length (List.concat rows) = (length rows * K)%nat.
Proof.
  induction 1 as [|r rows Hr _ IH]; [reflexivity|].
  cbn [List.concat length]. rewrite length_app, IH, Hr. lia.
Qed.

Lemma reshape_concat (rows : matrix) K :
  Forall (fun r => length r = K) rows ->
  reshape (length rows) K (List.concat rows) = rows.
Proof.
  unfold reshape. induction 1 as [|r rows Hr _ IH]; [reflexivity|].
  cbn [length seq map List.concat]. f_equal.
  - cbn [Nat.mul skipn]. rewrite <- Hr. now rewrite firstn_app_exact.
  - rewrite <- seq_shift, map_map. rewrite <- IH at 2.
    apply map_ext. intros i. f_equal.
    replace (S i * K)%nat with (i * K + K)%nat by lia.
    rewrite <- skipn_skipn. f_equal. rewrite <- Hr. apply skipn_app_exact.
Qed.

Lemma nodes_of_points (its : list vec) d size :
  its <> [] -> Forall (fun t => length t = d) its -> length its = size ->
  GenzMalik_nodes_of its d size = Ok (map (fun i => coordinate i its) (seq 0 d)).
Proof.
  intros Hne Hall Hsize. unfold GenzMalik_nodes_of.
  rewrite (zip_star_full its d Hne Hall).
  set (rows := map (fun i => coordinate i its) (seq 0 d)).
  assert (Hrows : Forall (fun r => length r = size) rows).
  { apply Forall_forall. intros r Hr. apply in_map_iff in Hr as (i & <- & _).
    unfold coordinate. now rewrite length_map. }
  assert (Hd : length rows = d) by (unfold rows; now rewrite length_map, length_seq).
  pose proof (length_concat_uniform rows size Hrows) as Hl. rewrite Hd in Hl.
  unfold fromiter. rewrite Hl, Nat.ltb_irrefl. cbn [bind].
  rewrite <- Hl, firstn_all. rewrite <- Hd at 1. now rewrite reshape_concat.
Qed.

Lemma enumerates_lengths l L : enumerates l L -> Forall (fun p => length p = length l) L.
Proof.
  intros [_ H]. apply Forall_forall. intros p Hp. apply H in Hp.
  symmetry. now apply Permutation_length.
Qed.

Section GenzMalikShape.

Variables l_2 l_3 l_4 l_5 : Qc.
Variables fuel ndim : nat.

Hypothesis ndim_bound : (2 <= ndim)%nat.
Hypothesis l_2_positive : 0 < l_2.
Hypothesis l_3_positive : 0 < l_3.
Hypothesis l_4_positive : 0 < l_4.
Hypothesis enough_fuel : (S ndim ^ ndim <= fuel)%nat.

Lemma positive_nonzero x : 0 < x -> x <> 0 /\ - x <> 0 /\ x <> - x.
Proof.
  intros H. repeat split; intros E.
  - rewrite E in H. exact (Qclt_not_le _ _ H (Qcle_refl _)).
  - assert (E' : x = 0) by (rewrite <- (Qcopp_involutive x), E; reflexivity).
    rewrite E' in H. exact (Qclt_not_le _ _ H (Qcle_refl _)).
  - assert (E' : x + x = 0) by (rewrite E at 1; ring).
    assert (H2 : 0 < x + x) by (revert H; qc2q; intros H; lra).
    rewrite E' in H2. exact (Qclt_not_le _ _ H2 (Qcle_refl _)).
Qed.

Lemma one_entry_points x :
  x <> 0 ->
  exists out, _distinct_permutations fuel (x :: List.repeat 0 (ndim - 1)) = Ok out /\
              length out = ndim /\ Forall (fun p => length p = ndim) out.
Proof.
  intros Hx.
  destruct (distinct_permutations_spec (x :: List.repeat 0 (ndim - 1)) fuel)
    as (out & E & _ & He & _).
  { cbn [length]. rewrite repeat_length. replace (S (ndim - 1)) with ndim by lia.
    exact enough_fuel. }
  exists out. split; [exact E|]. split.
  - rewrite (count_one x Hx _ _ He). lia.
  - apply enumerates_lengths in He. cbn [length] in He. rewrite repeat_length in He.
    replace (S (ndim - 1)) with ndim in He by lia. exact He.
Qed.

Lemma two_entry_fuel (x y : Qc) :
  (S (length (x :: y :: List.repeat 0%Qc (ndim - 2)))
   ^ length (x :: y :: List.repeat 0%Qc (ndim - 2)) <= fuel)%nat.
Proof.
  cbn [length]. rewrite repeat_length. replace (S (S (ndim - 2))) with ndim by lia.
  exact enough_fuel.
Qed.

Lemma two_entry_lengths x y out :
  enumerates (x :: y :: List.repeat 0 (ndim - 2)) out ->
  Forall (fun p => length p = ndim) out.
Proof.
  intros He. apply enumerates_lengths in He. cbn [length] in He.
  rewrite repeat_length in He. replace (S (S (ndim - 2))) with ndim in He by lia.
  exact He.
Qed.

Lemma pair_points x :
  x <> 0 ->
  exists out, _distinct_permutations fuel (x :: x :: List.repeat 0 (ndim - 2)) = Ok out /\
              (2 * length out = ndim * (ndim - 1))%nat /\
              Forall (fun p => length p = ndim) out.
Proof.
  intros Hx.
  destruct (distinct_permutations_spec _ fuel (two_entry_fuel x x)) as (out & E & _ & He & _).
  exists out. split; [exact E|]. split; [|now apply (two_entry_lengths x x)].
  rewrite (count_pair x Hx _ _ He).
  replace (ndim - 2 + 2)%nat with ndim by lia. f_equal. lia.
Qed.

Lemma mixed_points x y :
  x <> 0 -> y <> 0 -> x <> y ->
  exists out, _distinct_permutations fuel (x :: y :: List.repeat 0 (ndim - 2)) = Ok out /\
              length out = (ndim * (ndim - 1))%nat /\
              Forall (fun p => length p = ndim) out.
Proof.
  intros Hx Hy Hxy.
  destruct (distinct_permutations_spec _ fuel (two_entry_fuel x y)) as (out & E & _ & He & _).
  exists out. split; [exact E|]. split; [|now apply (two_entry_lengths x y)].
  rewrite (count_two x y Hx Hy Hxy _ _ He).
  replace (ndim - 2 + 2)%nat with ndim by lia. f_equal. lia.
Qed.

Lemma common_points :
  exists its,
    GenzMalik_common_points l_2 l_3 l_4 fuel ndim = Ok its /\
    length its = GenzMalik_lower_nodes_size ndim /\
    Forall (fun p => length p = ndim) its.
Proof.
  destruct (positive_nonzero l_2 l_2_positive) as (H2 & H2' & _).
  destruct (positive_nonzero l_3 l_3_positive) as (H3 & H3' & _).
  destruct (positive_nonzero l_4 l_4_positive) as (H4 & H4' & H4'').
  destruct (one_entry_points l_2 H2) as (p1 & E1 & L1 & F1).
  destruct (one_entry_points (- l_2) H2') as (p2 & E2 & L2 & F2).
  destruct (one_entry_points l_3 H3) as (p3 & E3 & L3 & F3).
  destruct (one_entry_points (- l_3) H3') as (p4 & E4 & L4 & F4).
  destruct (pair_points l_4 H4) as (p5 & E5 & L5 & F5).
  destruct (mixed_points l_4 (- l_4) H4 H4' H4'') as (p6 & E6 & L6 & F6).
  destruct (pair_points (- l_4) H4') as (p7 & E7 & L7 & F7).
  unfold GenzMalik_common_points. rewrite E1, E2, E3, E4, E5, E6, E7. cbn [bind].
  eexists. split; [reflexivity|]. split.
  - rewrite !length_app. cbn [length]. unfold GenzMalik_lower_nodes_size.
    rewrite L1, L2, L3, L4, L6. unfold vec in *. nia.
  - repeat (apply Forall_app; split); auto.
    constructor; [apply repeat_length|constructor].
Qed.

Lemma product_points :
  length (itertools.product (List.repeat [l_5; - l_5] ndim)) = (2 ^ ndim)%nat /\
  Forall (fun p => length p = ndim) (itertools.product (List.repeat [l_5; - l_5] ndim)).
Proof.
  rewrite product_is_rec. split.
  - rewrite product_rec_pairs_length; [now rewrite repeat_length|].
    apply Forall_forall. intros p Hp. apply repeat_spec in Hp. now subst.
  - apply Forall_forall. intros p Hp. apply product_rec_elem_length in Hp.
    now rewrite repeat_length in Hp.
Qed.

(** Both rules return, and their node arrays list the coordinates of the
    generated points. *)
Lemma GenzMalik_rules_return :
  exists its,
    length its = GenzMalik_lower_nodes_size ndim /\
    Forall (fun p => length p = ndim) its /\
    GenzMalik_lower_rule l_2 l_3 l_4 fuel ndim
    = Ok (map (fun i => coordinate i its) (seq 0 ndim), GenzMalik_lower_rule_weights ndim) /\
    GenzMalik_rule l_2 l_3 l_4 l_5 fuel ndim
    = Ok (map (fun i => coordinate i
                          (its ++ itertools.product (List.repeat [l_5; - l_5] ndim)))
              (seq 0 ndim),
          GenzMalik_rule_weights ndim).
Proof.
  destruct common_points as (its & E & L & F).
  destruct product_points as (Lp & Fp).
  exists its. split; [exact L|]. split; [exact F|].
  assert (Hne : its <> []).
  { intros ->. unfold GenzMalik_lower_nodes_size in L. simpl in L. lia. }
  split.
  - unfold GenzMalik_lower_rule. rewrite E. cbn [bind].
    rewrite (nodes_of_points its ndim _ Hne F L). reflexivity.
  - unfold GenzMalik_rule. rewrite E. cbn [bind].
    rewrite (nodes_of_points _ ndim (GenzMalik_nodes_size ndim)); [reflexivity| | |].
    + intros H. apply app_eq_nil in H as [H _]. contradiction.
    + apply Forall_app. split; assumption.
    + rewrite length_app. unfold vec in *. rewrite L, Lp. unfold GenzMalik_lower_nodes_size, GenzMalik_nodes_size. lia.
Qed.

End GenzMalikShape.

(** X15. For [ndim >= 2] and positive radii, [GenzMalik.rule] and
    [GenzMalik.lower_rule] return node arrays of [ndim] rows with one column per
    weight: the count given to [np.fromiter] is exactly the number of generated
    coordinates. Every row of the nodes of the lower rule is the beginning of
    the same row of the nodes of the full rule. *)
Theorem GenzMalik_nodes_match_weights
        (l_2 l_3 l_4 l_5 : Qc) (fuel ndim : nat) :
  (2 <= ndim)%nat -> 0 < l_2 -> 0 < l_3 -> 0 < l_4 ->
  (S ndim ^ ndim <= fuel)%nat ->
  exists nodes lower_nodes,
    GenzMalik_rule l_2 l_3 l_4 l_5 fuel ndim = Ok (nodes, GenzMalik_rule_weights ndim) /\
    GenzMalik_lower_rule l_2 l_3 l_4 fuel ndim
    = Ok (lower_nodes, GenzMalik_lower_rule_weights ndim) /\
    length nodes = ndim /\ length lower_nodes = ndim /\
    Forall (fun row => length row = length (GenzMalik_rule_weights ndim)) nodes /\
    Forall (fun row => length row = length (GenzMalik_lower_rule_weights ndim)) lower_nodes /\
    forall i, (i < ndim)%nat ->
      firstn (GenzMalik_lower_nodes_size ndim) (nth i nodes []) = nth i lower_nodes [].
Proof.
  intros Hn H2 H3 H4 Hf.
  destruct (GenzMalik_rules_return l_2 l_3 l_4 l_5 fuel ndim Hn H2 H3 H4 Hf)
    as (its & L & F & El & Eh).
  destruct (product_points l_5 ndim) as (Lp & Fp).
  eexists. eexists. split; [exact Eh|]. split; [exact El|].
  rewrite !length_map, !length_seq.
  rewrite GenzMalik_rule_weights_length, GenzMalik_lower_rule_weights_length by lia.
  repeat split.
  - apply Forall_forall. intros r Hr. apply in_map_iff in Hr as (i & <- & _).
    unfold coordinate. rewrite length_map, length_app. unfold vec in *. rewrite L, Lp.
    unfold GenzMalik_lower_nodes_size, GenzMalik_nodes_size. lia.
  - apply Forall_forall. intros r Hr. apply in_map_iff in Hr as (i & <- & _).
    unfold coordinate. now rewrite length_map.
  - intros i Hi. rewrite !nth_map_seq by exact Hi. unfold coordinate.
    rewrite map_app, <- L, <- (length_map (fun u => nth i u 0) its).
    apply firstn_app_exact.
Qed.

Lemma GenzMalik_nodes_match_weights_witness :
  exists nodes lower_nodes,
    GenzMalik_rule (qz 1 / qz 3) (qz 9 / qz 10) (qz 9 / qz 10) (qz 2 / qz 3) 9 2
    = Ok (nodes, GenzMalik_rule_weights 2) /\
    GenzMalik_lower_rule (qz 1 / qz 3) (qz 9 / qz 10) (qz 9 / qz 10) 9 2
    = Ok (lower_nodes, GenzMalik_lower_rule_weights 2) /\
    length nodes = 2%nat /\ length lower_nodes = 2%nat.
Proof.
  destruct (GenzMalik_nodes_match_weights
              (qz 1 / qz 3) (qz 9 / qz 10) (qz 9 / qz 10) (qz 2 / qz 3) 9 2)
    as (nodes & lower_nodes & Eh & El & Lh & Ll & _);
    try (vm_compute; reflexivity); try lia.
  exists nodes, lower_nodes. repeat split; assumption.
Defined.


